(** * A Scheme interpreter and a logic language built on it

    Shallow embedding of [logic.py] (unification and depth-bounded
    resolution) and of [scheme.py] (frames, special forms, the recursive and
    the trampolined evaluator).

    Conventions of the embedding.
    - A Python function that recurses or loops without a structural bound
      takes a first argument [n : nat], which bounds the nesting of its
      calls and the turns of its loop.  Running out of [n] is reported as
      "no result yet" ([None], [Timeout]): the stack of the host is taken
      to be as deep as needed, or the [RecursionError] of the host leaves
      the function as any exception does, and nothing is said of the run.
    - Where the program itself tells how deep the stack is, its depth is
      part of the model.  [lookup] of [logic.py] catches the
      [RecursionError] and returns a value; the recursive [scheme_eval] of
      [scheme.py] makes a call where the trampolined evaluator makes a turn
      of its loop.  The bound of these functions is the number of levels
      that the stack has left, a level for each of their calls; the calls
      of the helpers that return at once are not counted.
    - A Python exception is a value of the result type.
    - Module-level mutable state is passed explicitly: the fact list
      [facts] and the counter [IDENTIFIER] in [logic.py], the contents of
      the [Frame] objects in [scheme.py]. *)

From stdpp Require Import base option list gmap strings pretty.
From Stdlib Require Import ZArith Ascii String Lia.

Open Scope string_scope.
Open Scope list_scope.
Open Scope Z_scope.
Open Scope nat_scope.

(** ** Results of host computations *)

(** What a call of a Python function comes to: it returns, it raises, or it
    needs a larger bound [n] than it was given. *)
Inductive result (E A : Type) : Type :=
  | Ok (a : A)
  | Raise (e : E)
  | Timeout.
Arguments Ok {E A} a.
Arguments Raise {E A} e.
Arguments Timeout {E A}.

(** ** The logic language: [logic.py] *)

Module Logic.

(** Modelled from the spec: the term model of [scheme_reader] (class [Pair]
    and the object [nil] are imported, not defined, by the two source
    files).  A term is an atom (boolean, number, text, symbol), the empty
    list, or a pair.  Numbers are the integers; symbols and texts carry
    their name. *)
Inductive term : Type :=
  | Bool (b : bool)
  | Num (n : Z)
  | Text (s : string)
  | Sym (s : string)
  | Nil
  | Pair (first second : term).

#[global] Instance term_eq_dec : EqDecision term.
Proof. solve_decision. Defined.

(** Modelled from the spec: [e == f] on terms, "the resolved terms are
    identical".  It is Python's [==]: [bool] is a subclass of [int], so
    [True == 1] and [False == 0]; strings are compared by content; two
    pairs are compared component by component.  (Where [Pair] does not
    define [__eq__], [e == f] in [unify] is object identity; [unify] then
    descends into equal pairs and finds every leaf equal, binding nothing,
    so the outcome is the one computed here.) *)
Fixpoint py_eq (e f : term) : bool :=
  match e, f with
  | Bool a, Bool b => bool_decide (a = b)
  | Bool a, Num n | Num n, Bool a => bool_decide (n = if a then 1%Z else 0%Z)
  | Num n, Num m => bool_decide (n = m)
  | Text s, Text t => bool_decide (s = t)
  | Sym s, Sym t => bool_decide (s = t)
  | Nil, Nil => true
  | Pair e1 e2, Pair f1 f2 => py_eq e1 f1 && py_eq e2 f2
  | _, _ => false
  end.

(** Modelled from the spec: [scheme_symbolp] of [scheme_primitives]. *)
Definition scheme_symbolp (x : term) : bool :=
  match x with Sym _ => true | _ => false end.

(** Modelled from the spec: [scheme_pairp] of [scheme_primitives]. *)
Definition scheme_pairp (x : term) : bool :=
  match x with Pair _ _ => true | _ => false end.

(** Modelled from the spec: [scheme_atomp] of [scheme_primitives]; the
    atoms and the empty list. *)
Definition scheme_atomp (x : term) : bool :=
  match x with Pair _ _ => false | _ => true end.

(** [s.startswith("?")] *)
Definition startswith_qmark (s : string) : bool :=
  match s with
  | String c _ => bool_decide (c = "?"%char)
  | EmptyString => false
  end.

(** [isvar]: a symbol whose name starts with a question mark. *)
Definition isvar (symbol : term) : bool :=
  match symbol with
  | Sym s => startswith_qmark s
  | _ => false
  end.

(** *** Frames as substitutions

    [class Frame] of [scheme.py]: a dictionary [bindings] and a [parent]
    frame or [None].  In [logic.py] a frame is written only by the [unify]
    call that directly follows its creation in [query], and every later
    frame is a fresh child; a frame value with an updated copy returned is
    therefore an exact account of what the search sees. *)
#[warnings="-register-all"]
Inductive Frame : Type :=
  mkFrame (bindings : gmap string term) (parent : option Frame).

Definition bindings (env : Frame) : gmap string term :=
  match env with mkFrame b _ => b end.

Definition parent (env : Frame) : option Frame :=
  match env with mkFrame _ p => p end.

(** [Frame(parent)] *)
Definition Frame_new (parent : option Frame) : Frame := mkFrame ∅ parent.

(** [Frame.lookup]: [None] stands for the [SchemeError] "unknown
    identifier". *)
Fixpoint Frame_lookup (symbol : string) (env : Frame) : option term :=
  match env with
  | mkFrame b p =>
      match b !! symbol with
      | Some v => Some v
      | None =>
          match p with
          | Some up => Frame_lookup symbol up
          | None => None
          end
      end
  end.

(** [Frame.define] *)
Definition define (sym : string) (val : term) (env : Frame) : Frame :=
  mkFrame (<[sym := val]> (bindings env)) (parent env).

(** [lookup]: look a symbol up repeatedly until it is fully resolved.  The
    bare [except] returns [sym] whatever the [try] block raises.  That is
    the [SchemeError] of [env.lookup], for an unbound symbol and for
    anything that is not a symbol (it is never a key).  It is also the
    [RecursionError] of the host: [n] is the number of levels that its
    stack has left, each call of [lookup] takes one, and the call that
    finds none left returns the symbol it has reached, which a frame may
    still bind.  So [lookup] returns on every input, also in a frame whose
    bindings go round in a circle. *)
Fixpoint lookup (n : nat) (sym : term) (env : Frame) : term :=
  match n with
  | 0 => sym
  | S n' =>
      match sym with
      | Sym s =>
          match Frame_lookup s env with
          | Some v => lookup n' v env
          | None => sym
          end
      | _ => sym
      end
  end.

(** [unify]: the result is the returned boolean and the frame as the call
    leaves it.  Nothing catches a [RecursionError] here: with no level of
    the stack left there is no result. *)
Fixpoint unify (n : nat) (e f : term) (env : Frame) : option (bool * Frame) :=
  match n with
  | 0 => None
  | S n' =>
      let e := lookup n' e env in
      let f := lookup n' f env in
      if py_eq e f then Some (true, env)
      else if isvar e then
        match e with
        | Sym s => Some (true, define s f env)
        | _ => None
        end
      else if isvar f then
        match f with
        | Sym s => Some (true, define s e env)
        | _ => None
        end
      else if scheme_atomp e || scheme_atomp f then Some (false, env)
      else
        match e, f with
        | Pair e1 e2, Pair f1 f2 =>
            '(r, env1) ← unify n' e1 f1 env;
            if r : bool then unify n' e2 f2 env1 else Some (false, env1)
        | _, _ => None
        end
  end.

(** [bind]: replace every variable of [expr] by its value, recursively. *)
Fixpoint bind (n : nat) (expr : term) (env : Frame) : option term :=
  match n with
  | 0 => None
  | S n' =>
      if scheme_symbolp expr then
        let resolved := lookup n' expr env in
        if negb (py_eq expr resolved) then bind n' resolved env
        else Some expr
      else
        match expr with
        | Pair first second =>
            first' ← bind n' first env;
            second' ← bind n' second env;
            Some (Pair first' second')
        | _ => Some expr
        end
  end.

(** [v not in vs], with Python's [==] on the elements. *)
Definition py_in (v : term) (vs : list term) : bool := existsb (py_eq v) vs.

(** [get_vars]: the variables of [expr], each once, in order of first
    occurrence. *)
Fixpoint get_vars (expr : term) : list term :=
  if isvar expr then [expr]
  else
    match expr with
    | Pair first second =>
        foldl (λ vs v, if py_in v vs then vs else vs ++ [v])
              (get_vars first) (get_vars second)
    | _ => []
    end.

(** [str(n)] for the counter: the decimal numeral. *)
Definition str (n : nat) : string := pretty n.

(** [label]: append the identifier [n] to the name of every variable. *)
Fixpoint label (expr : term) (n : nat) : term :=
  if isvar expr then
    match expr with
    | Sym s => Sym (s +:+ "_" +:+ str n)
    | _ => expr
    end
  else
    match expr with
    | Pair first second => Pair (label first n) (label second n)
    | _ => expr
    end.

(** *** The search

    The module state a query reads and writes: the counter [IDENTIFIER],
    and what the consumer of the generator has received so far. *)
Record session : Type := mkSession {
  IDENTIFIER : nat;
  yielded : list (list (term * term))
}.

(** The only exception the search can raise: [.first] or [.second] on
    something that is not a pair (a clause list or a fact that is not a
    list).  A search that raises is reported by its exception alone,
    without what it had yielded before. *)
Inductive exn : Type := AttributeError.

Definition M (A : Type) : Type := session → result exn (A * session).

Definition ret {A} (a : A) : M A := λ st, Ok (a, st).

Definition bnd {A B} (m : M A) (k : A → M B) : M B :=
  λ st, match m st with
        | Ok (a, st') => k a st'
        | Raise e => Raise e
        | Timeout => Timeout
        end.

#[export] Instance M_ret : MRet M := @ret.
#[export] Instance M_bind : MBind M := λ A B k m, bnd m k.

Definition raise {A} (e : exn) : M A := λ _, Raise e.
Definition timeout {A} : M A := λ _, Timeout.

(** A call that has a bound of its own: without a result, the search has
    none. *)
Definition need {A} (o : option A) : M A :=
  match o with Some a => ret a | None => timeout end.

(** [IDENTIFIER = 0] *)
Definition IDENTIFIER_init : nat := 0.

(** [get_unique_id] *)
Definition get_unique_id : M nat :=
  λ st, Ok (S (IDENTIFIER st), mkSession (S (IDENTIFIER st)) (yielded st)).

(** [x.first], [x.second] *)
Definition first (x : term) : M term :=
  match x with Pair a _ => ret a | _ => raise AttributeError end.
Definition second (x : term) : M term :=
  match x with Pair _ b => ret b | _ => raise AttributeError end.

(** [for x in xs: body] over a Python list. *)
Fixpoint for_each {A} (xs : list A) (body : A → M unit) : M unit :=
  match xs with
  | [] => ret tt
  | x :: xs' => _ ← body x; for_each xs' body
  end.

Definition DEPTH_LIMIT : option nat := Some 20.

(** [x is nil] *)
Definition is_nil (x : term) : bool :=
  match x with Nil => true | _ => false end.

(** [query] is a generator.  A [for] loop over a generator runs its body at
    each [yield] and then resumes the generator, so the loop body is passed
    to the generator as [yield]: the calls of [get_unique_id] made by the
    body and by the resumed generator interleave as they do in Python. *)
Fixpoint query (n : nat) (facts : list term) (clauses : term) (env : Frame)
    (depth : nat) (yield : Frame → M unit) : M unit :=
  match n with
  | 0 => timeout
  | S n' =>
      if is_nil clauses then yield env
      else if match DEPTH_LIMIT with
              | None => true
              | Some limit => depth <=? limit
              end
      then
        for_each facts (λ fact,
          id ← get_unique_id;
          let fact := label fact id in
          let env_head := Frame_new (Some env) in
          head ← first fact;
          goal ← first clauses;
          '(unified, env_head) ← need (unify n' head goal env_head);
          if unified : bool then
            hypotheses ← second fact;
            query n' facts hypotheses env_head (depth + 1) (λ env_rule,
              rest ← second clauses;
              query n' facts rest env_rule (depth + 1) yield)
          else ret tt)
      else ret tt
  end.

(** The body of the loop in [do_query]: one answer per solution frame, a
    list of pairs (variable, value). *)
Fixpoint bind_all (n : nat) (vs : list term) (env : Frame)
    : option (list (term * term)) :=
  match vs with
  | [] => Some []
  | v :: vs' =>
      b ← bind n v env;
      bs ← bind_all n vs' env;
      Some ((v, b) :: bs)
  end.

Definition emit (answer : list (term * term)) : M unit :=
  λ st, Ok (tt, mkSession (IDENTIFIER st) (yielded st ++ [answer])).

(** [do_query]: all bindings that simultaneously satisfy [clauses]. *)
Definition do_query (n : nat) (facts : list term) (clauses : term) : M unit :=
  query n facts clauses (Frame_new None) 0 (λ env,
    answer ← need (bind_all n (get_vars clauses) env);
    emit answer).

(** The answers of a query made in a session whose counter is [id]. *)
Definition answers (n : nat) (facts : list term) (clauses : term) (id : nat)
    : result exn (list (list (term * term))) :=
  match do_query n facts clauses (mkSession id []) with
  | Ok (_, st) => Ok (yielded st)
  | Raise e => Raise e
  | Timeout => Timeout
  end.

(** Scheme lists written as Rocq lists. *)
Fixpoint slist (xs : list term) : term :=
  match xs with
  | [] => Nil
  | x :: xs' => Pair x (slist xs')
  end.

(** *** The user interface *)

(** Modelled from the spec: [scheme_listp] of [scheme_primitives]; "a term
    is a proper list if following [second] links reaches the empty list". *)
Fixpoint scheme_listp (x : term) : bool :=
  match x with
  | Nil => true
  | Pair _ second => scheme_listp second
  | _ => false
  end.

(** [x == s] for a string [s] that is the name of a symbol. *)
Definition is_str (s : string) (x : term) : bool :=
  match x with Sym t => bool_decide (t = s) | _ => false end.

(** What [process_input] prints, line by line: ['Success!'], the line of an
    answer, ['Failed.'] and ['Please provide a fact or query.'].  The line
    of an answer is made of one "name: value" for each of its pairs;
    [Answer] holds, for each pair [(k, v)], the name [k[1:]] and the term
    [v], whose text [str.format] puts on the line. *)
Inductive line : Type :=
  | Success
  | Answer (pairs : list (string * term))
  | Failed
  | Please.

(** [k[1:]], for a variable [k]. *)
Definition name_of (k : term) : string :=
  match k with
  | Sym (String _ s) => s
  | _ => ""
  end.

(** The line of a result: ["{0}: {1}".format(k[1:], v)] for each of its
    pairs. *)
Definition answer_line (result : list (term * term)) : line :=
  Answer ((λ kv, (name_of kv.1, kv.2)) <$> result).

(** The loop of [process_input] over the results of a query: "Success!"
    before the first line, "Failed." where there is none. *)
Definition report (results : list (list (term * term))) : list line :=
  match results with
  | [] => [Failed]
  | _ => Success :: (answer_line <$> results)
  end.

(** The state of the module between two inputs, and what has been
    printed. *)
Record world : Type := mkWorld {
  facts : list term;
  counter : nat;
  printed : list line
}.

(** The exceptions of [process_input]: the one of [assert], and those that
    come out of the search. *)
Inductive input_exn : Type :=
  | AssertionError
  | Uncaught (e : exn).

Section process_input.
(** [scheme.scheme_load] reads a file and processes what it holds; the
    frames of the interpreter, which [process_input] hands on to it, are of
    a type [E]. *)
Context {E : Type}.
Context (scheme_load : term → E → world → result input_exn world).

(** [process_input].  The facts of the module, its counter and what has
    been printed are the [world]; a run that raises is reported by its
    exception alone, without what it had printed before. *)
Definition process_input (n : nat) (expr : term) (env : E) (w : world)
    : result input_exn world :=
  if negb (scheme_listp expr) then Raise AssertionError
  else
    match expr with
    | Pair head rest =>
        if is_str "fact" head || is_str "!" head then
          Ok (mkWorld (facts w ++ [rest]) (counter w) (printed w))
        else if is_str "query" head || is_str "?" head then
          match do_query n (facts w) rest (mkSession (counter w) []) with
          | Ok (_, st) =>
              Ok (mkWorld (facts w) (IDENTIFIER st)
                    (printed w ++ report (yielded st)))
          | Raise e => Raise (Uncaught e)
          | Timeout => Timeout
          end
        else if is_str "load" head then
          match rest with
          | Pair sym _ => scheme_load sym env w
          | _ => Raise (Uncaught AttributeError)
          end
        else Ok (mkWorld (facts w) (counter w) (printed w ++ [Please]))
    | _ => Raise (Uncaught AttributeError)
    end.

End process_input.

End Logic.

(** ** The interpreter: [scheme.py] *)

Module Scheme.

(** [class Frame]: a frame object has an identity, and a parent that is
    fixed when the frame is made; its dictionary [bindings] is mutable and
    lives in the heap, under the identity of the frame. *)
#[warnings="-register-all"]
Inductive Frame : Type :=
  mkFrame (id : nat) (parent : option Frame).

Definition id (env : Frame) : nat :=
  match env with mkFrame i _ => i end.

(** [Frame.global_frame]: the frame at the root of the parent chain. *)
Fixpoint global_frame (self : Frame) : Frame :=
  match self with
  | mkFrame _ None => self
  | mkFrame _ (Some up) => global_frame up
  end.

Section evaluator.

(** The native functions of [scheme_primitives], which is not part of the
    two source files: a [PrimitiveProcedure] holds one of them in [fn]. *)
Context {Prim : Type}.

(** Modelled from the spec: the values of the interpreter are the terms of
    [scheme_reader] (atoms, the empty list [nil], pairs) and the three
    kinds of procedure; [PyNone] is Python's [None], which the special forms
    return for "no value".  A symbol is a Python string; a text is a Python
    string that [scheme_symbolp] does not take for a symbol. *)
Inductive value : Type :=
  | PyNone
  | Bool (b : bool)
  | Num (n : Z)
  | Text (s : string)
  | Sym (s : string)
  | Nil
  | Pair (first second : value)
  | PrimitiveProcedure (fn : Prim) (use_env : bool)
  | LambdaProcedure (formals body : value) (env : Frame)
  | MuProcedure (formals body : value).

(** The exceptions of the interpreter.  [SchemeErrorOn msg x] is a
    [SchemeError] whose message is [msg] followed by the text of [x];
    [Exception] is the plain exception of [check_form], with its two
    arguments; [RecursionError] is what the host raises at a call that
    finds no level of its stack left. *)
Inductive exn : Type :=
  | SchemeError (msg : string)
  | SchemeErrorOn (msg : string) (x : value)
  | Exception (msg : string) (x : value)
  | TypeError
  | IndexError
  | AttributeError
  | RecursionError.

(** The dictionaries of the frame objects, by identity; a new frame takes
    the next identity. *)
#[local] Abbreviation heap := (list (gmap string value)).

Definition M (A : Type) : Type := heap → result exn A * heap.

Definition ret {A} (a : A) : M A := λ h, (Ok a, h).

Definition bnd {A B} (m : M A) (k : A → M B) : M B :=
  λ h, match m h with
       | (Ok a, h') => k a h'
       | (Raise e, h') => (Raise e, h')
       | (Timeout, h') => (Timeout, h')
       end.

#[export] Instance M_ret : MRet M := @ret.
#[export] Instance M_bind : MBind M := λ A B k m, bnd m k.

Definition raise {A} (e : exn) : M A := λ h, (Raise e, h).
Definition timeout {A} : M A := λ h, (Timeout, h).

(** [Frame(parent)] *)
Definition Frame_new (parent : option Frame) : M Frame :=
  λ h, (Ok (mkFrame (List.length h) parent), h ++ [∅]).

(** [env.bindings] *)
Definition bindings (h : heap) (env : Frame) : gmap string value :=
  default ∅ (h !! id env).

(** [env.bindings[target] = val].  Only a string is ever looked up in a
    frame, so a key that is not a string makes no difference to any later
    lookup: the model leaves such a binding out. *)
Definition setitem (env : Frame) (target val : value) : M unit :=
  λ h, match target with
       | Sym s => (Ok tt, <[id env := <[s := val]> (bindings h env)]> h)
       | _ => (Ok tt, h)
       end.

(** [Frame.lookup] *)
Fixpoint Frame_lookup (h : heap) (symbol : string) (env : Frame)
    : option value :=
  match env with
  | mkFrame i p =>
      match default ∅ (h !! i) !! symbol with
      | Some v => Some v
      | None =>
          match p with
          | Some up => Frame_lookup h symbol up
          | None => None
          end
      end
  end.

Definition lookup (env : Frame) (symbol : string) : M value :=
  λ h, match Frame_lookup h symbol env with
       | Some v => (Ok v, h)
       | None => (Raise (SchemeErrorOn "unknown identifier: " (Sym symbol)), h)
       end.

(** [Frame.define] *)
Definition define (env : Frame) (sym : string) (val : value) : M unit :=
  setitem env (Sym sym) val.

(** *** Terms

    What [scheme_reader] and [scheme_primitives], which are not among the
    source files, provide on terms, as [scheme.py] uses it.  A proper list
    is a chain of pairs that ends in [nil]. *)

(** [x is nil], [x == nil] *)
Definition is_nil (x : value) : bool :=
  match x with Nil => true | _ => false end.

(** [x == s] for a string [s] *)
Definition is_str (s : string) (x : value) : bool :=
  match x with Sym t => bool_decide (t = s) | _ => false end.

(** [isinstance(x, Pair)] *)
Definition is_pair (x : value) : bool :=
  match x with Pair _ _ => true | _ => false end.

(** Modelled from the spec: [scheme_symbolp] of [scheme_primitives]. *)
Definition scheme_symbolp (x : value) : bool :=
  match x with Sym _ => true | _ => false end.

(** Modelled from the spec: [scheme_atomp] of [scheme_primitives]; the
    atoms and the empty list. *)
Definition scheme_atomp (x : value) : bool :=
  match x with
  | Bool _ | Num _ | Text _ | Sym _ | Nil => true
  | _ => false
  end.

(** Modelled from the spec: [scheme_listp] of [scheme_primitives]; "a term
    is a proper list if following [second] links reaches the empty list". *)
Fixpoint scheme_listp (x : value) : bool :=
  match x with
  | Nil => true
  | Pair _ second => scheme_listp second
  | _ => false
  end.

(** Modelled from the spec: [scheme_false] of [scheme_primitives]; only
    [False] is false-ish. *)
Definition scheme_false (val : value) : bool :=
  match val with Bool false => true | _ => false end.

(** Modelled from the spec: [scheme_true] of [scheme_primitives]. *)
Definition scheme_true (val : value) : bool := negb (scheme_false val).

(** [x.first], [x.second] *)
Definition first (x : value) : M value :=
  match x with Pair a _ => ret a | _ => raise AttributeError end.

Definition second (x : value) : M value :=
  match x with Pair _ b => ret b | _ => raise AttributeError end.

(** The length of a proper list; [None] for anything else. *)
Fixpoint list_length (x : value) : option nat :=
  match x with
  | Nil => Some 0
  | Pair _ second => S <$> list_length second
  | _ => None
  end.

(** Modelled from the spec: [len(x)], which is [Pair.__len__] and
    [nil.__len__] of [scheme_reader] and Python's own on a string.  The
    length of a proper list, of [nil] and of a string; a [TypeError] for a
    list that does not end in [nil] and for a value without a length. *)
Definition len (x : value) : M nat :=
  match x with
  | Text s | Sym s => ret (String.length s)
  | _ => match list_length x with
         | Some n => ret n
         | None => raise TypeError
         end
  end.

(** Modelled from the spec: [Pair.__getitem__] of [scheme_reader], the
    element at index [k] of a list: [IndexError] past the end,
    [TypeError] where the list does not go on with a pair. *)
Fixpoint Pair_getitem (y : value) (k : nat) : M value :=
  match k, y with
  | 0, Pair a _ => ret a
  | S k', Pair _ Nil => raise IndexError
  | S k', Pair _ (Pair _ _ as rest) => Pair_getitem rest k'
  | S k', Pair _ _ => raise TypeError
  | _, _ => raise AttributeError
  end.

(** Modelled from the spec: [x[k]], on a pair, on [nil] (always out of
    bounds), on a string (the character at [k]); nothing else can be
    indexed. *)
Definition getitem (x : value) (k : nat) : M value :=
  match x with
  | Pair _ _ => Pair_getitem x k
  | Nil => raise IndexError
  | Text s =>
      match String.get k s with
      | Some c => ret (Text (String c EmptyString))
      | None => raise IndexError
      end
  | Sym s =>
      match String.get k s with
      | Some c => ret (Sym (String c EmptyString))
      | None => raise IndexError
      end
  | _ => raise TypeError
  end.

(** [bool(x)], the test of a Python [if]: [None], [False], zero, the empty
    string and [nil] (whose length is zero) are false; a pair is true when
    it has a length, which [bool] asks for. *)
Definition truth (x : value) : M bool :=
  match x with
  | PyNone => ret false
  | Bool b => ret b
  | Num n => ret (negb (bool_decide (n = 0%Z)))
  | Text s | Sym s => ret (negb (bool_decide (s = "")))
  | Nil => ret false
  | Pair _ _ => n ← len x; ret (negb (n =? 0))
  | _ => ret true
  end.

(** [for x in xs: body] over a Python sequence. *)
Fixpoint for_each {A} (xs : list A) (body : A → M unit) : M unit :=
  match xs with
  | [] => ret tt
  | x :: xs' => _ ← body x; for_each xs' body
  end.

(** *** Checking the structure of programs *)

(** [check_form] *)
Definition check_form (expr : value) (min : nat) (max : option nat) : M unit :=
  if negb (scheme_listp expr) then
    raise (Exception "badly formed expression: %s" expr)
  else
    length ← len expr;
    if length <? min then raise (SchemeError "too few operands in form")
    else
      match max with
      | Some max =>
          if max <? length then raise (SchemeError "too many operands in form")
          else ret tt
      | None => ret tt
      end.

(** [check_formals]: [seen] is the Python list [list] of the names met so
    far; it holds strings only, so only a symbol can be [in] it. *)
Fixpoint check_formals_from (seen : list string) (formals : value) : M unit :=
  match formals with
  | Nil => ret tt
  | Pair a rest =>
      match a with
      | Sym s =>
          if bool_decide (s ∈ seen) then raise (SchemeError "bad formed formals")
          else check_formals_from (seen ++ [s]) rest
      | _ => raise (SchemeError "bad formed formals")
      end
  | _ => raise (SchemeError "bad formed formals")
  end.

Definition check_formals (formals : value) : M unit :=
  check_formals_from [] formals.

(** *** Procedures *)

(** What calling a native function does: [call fn args env] is
    [fn] applied to the arguments [args], with the frame [env] appended to
    them when the procedure asks for it.  A native function does not call back into the
    interpreter. *)
Context (call : Prim → list value → option Frame → M value).

(** The loop of [make_call_frame]. *)
Fixpoint bind_formals (frame : Frame) (formals vals : value) : M unit :=
  n ← len formals;
  if n =? 0 then ret tt
  else
    match formals with
    | Pair target rest =>
        value ← first vals;
        _ ← setitem frame target value;
        vals ← second vals;
        bind_formals frame rest vals
    | _ => raise AttributeError
    end.

(** [Frame.make_call_frame] *)
Definition make_call_frame (self : Frame) (formals vals : value) : M Frame :=
  frame ← Frame_new (Some self);
  _ ← bind_formals frame formals vals;
  ret frame.

(** The first loop of [apply_primitive]: the Scheme list [args] as a Python
    list. *)
Fixpoint py_list (args : value) : M (list value) :=
  match args with
  | Nil => ret []
  | Pair a rest => l ← py_list rest; ret (a :: l)
  | _ => raise AttributeError
  end.

(** [try: return procedure.fn(...)] with [except TypeError]. *)
Definition try_call (fn : Prim) (l : list value) (env : option Frame)
    : M value :=
  λ h, match call fn l env h with
       | (Raise TypeError, h') => (Raise (SchemeError "bad"), h')
       | r => r
       end.

(** [apply_primitive] *)
Definition apply_primitive (fn : Prim) (use_env : bool) (args : value)
    (env : Frame) : M value :=
  l ← py_list args;
  try_call fn l (if use_env then Some env else None).

(** *** Special forms

    The functions below call [scheme_eval], a name of the module: it is the
    argument [scheme_eval] here. *)
Section forms.
Context (scheme_eval : value → Frame → M value).

(** [do_lambda_form] *)
Definition do_lambda_form (vals : value) (env : Frame) : M value :=
  _ ← check_form vals 2 None;
  formals ← getitem vals 0;
  _ ← check_formals formals;
  body ← second vals;
  n ← len body;
  if 1 <? n then ret (LambdaProcedure formals (Pair (Sym "begin") body) env)
  else b ← getitem body 0; ret (LambdaProcedure formals b env).

(** [do_mu_form] *)
Definition do_mu_form (vals : value) : M value :=
  _ ← check_form vals 2 None;
  formals ← getitem vals 0;
  _ ← check_formals formals;
  body ← second vals;
  n ← len body;
  if 1 <? n then ret (MuProcedure formals (Pair (Sym "begin") body))
  else b ← getitem body 0; ret (MuProcedure formals b).

(** [do_define_form] *)
Definition do_define_form (vals : value) (env : Frame) : M value :=
  _ ← check_form vals 2 None;
  target ← getitem vals 0;
  if scheme_symbolp target then
    _ ← check_form vals 2 (Some 2);
    e ← getitem vals 1;
    v ← scheme_eval e env;
    _ ← setitem env target v;
    ret PyNone
  else if is_pair target then
    tg ← getitem target 0;
    if negb (scheme_symbolp tg) then raise (SchemeError "Not a symbol")
    else
      formals ← second target;
      body ← second vals;
      v ← scheme_eval (Pair (Sym "lambda") (Pair formals body)) env;
      _ ← setitem env tg v;
      ret PyNone
  else raise (SchemeError "bad argument to define").

(** [do_quote_form] *)
Definition do_quote_form (vals : value) : M value :=
  _ ← check_form vals 1 (Some 1);
  getitem vals 0.

(** The [while] loop of [do_let_form]: it returns [names] and [value], the
    latter called [values] here. *)
Fixpoint let_bindings (bindings names values : value) (env : Frame)
    : M (value * value) :=
  match bindings with
  | Nil => ret (names, values)
  | Pair k rest =>
      name ← first k;
      e ← (s ← second k; getitem s 0);
      v ← scheme_eval e env;
      let_bindings rest (Pair name names) (Pair v values) env
  | _ => raise AttributeError
  end.

(** [do_let_form]: the last expression of the body and the new frame. *)
Definition do_let_form (vals : value) (env : Frame) : M (value * Frame) :=
  _ ← check_form vals 2 None;
  bindings ← getitem vals 0;
  exprs ← second vals;
  if negb (scheme_listp bindings) then
    raise (SchemeError "bad bindings list in let form")
  else
    '(names, values) ← let_bindings bindings Nil Nil env;
    new_env ← make_call_frame env names values;
    n ← len exprs;
    let last := n - 1 in
    _ ← for_each (seq 0 last) (λ i,
          e ← getitem exprs i; _ ← scheme_eval e new_env; ret tt);
    e ← getitem exprs last;
    ret (e, new_env).

(** [do_if_form] *)
Definition do_if_form (vals : value) (env : Frame) : M value :=
  _ ← check_form vals 3 (Some 3);
  boo ← getitem vals 0;
  true ← getitem vals 1;
  false ← getitem vals 2;
  v ← scheme_eval boo env;
  if scheme_true v then ret true else ret false.

(** The [while] loop of [do_and_form]. *)
Fixpoint and_loop (vals : value) (env : Frame) : M value :=
  n ← len vals;
  if n =? 0 then ret PyNone
  else
    match vals with
    | Pair a rest =>
        v ← scheme_eval a env;
        if scheme_false v then ret a
        else
          m ← len rest;
          if m =? 1 then first rest
          else if is_nil rest then ret (Bool true)
          else and_loop rest env
    | _ => raise AttributeError
    end.

(** [do_and_form] *)
Definition do_and_form (vals : value) (env : Frame) : M value :=
  n ← len vals;
  if n =? 0 then ret (Bool true) else and_loop vals env.

(** The [while] loop of [do_or_form]. *)
Fixpoint or_loop (vals : value) (env : Frame) : M value :=
  n ← len vals;
  if n =? 0 then ret PyNone
  else
    match vals with
    | Pair a rest =>
        v ← scheme_eval a env;
        if scheme_true v then ret a
        else
          m ← len rest;
          if m =? 1 then first rest
          else if is_nil rest then ret (Bool false)
          else or_loop rest env
    | _ => raise AttributeError
    end.

(** [do_or_form] *)
Definition do_or_form (vals : value) (env : Frame) : M value :=
  n ← len vals;
  if n =? 0 then ret (Bool false) else or_loop vals env.

(** The body of the [for] loop of [do_cond_form], for the clause at index
    [i]: [Some expr] when the loop returns [expr], [None] when it goes on. *)
Definition cond_clause (num_clauses i : nat) (clause : value) (env : Frame)
    : M (option value) :=
  _ ← check_form clause 1 None;
  head ← first clause;
  test ←
    (if is_str "else" head then
       if i <? num_clauses - 1 then raise (SchemeError "else must be last")
       else
         body ← second clause;
         if is_nil body then raise (SchemeError "badly formed else clause")
         else ret (Bool true)
     else scheme_eval head env);
  t ← truth test;
  if t : bool then
    body ← second clause;
    if is_nil body then ret (Some head)
    else ret (Some (Pair (Sym "begin") body))
  else ret None.

(** The [for] loop of [do_cond_form] over the clauses [vals[i]],
    [vals[i+1]], ...; it ends at the index that is out of bounds. *)
Fixpoint cond_loop (vals : value) (num_clauses : nat) (indices : list nat)
    (env : Frame) : M value :=
  match indices with
  | [] => ret PyNone
  | i :: indices' =>
      clause ← getitem vals i;
      r ← cond_clause num_clauses i clause env;
      match r with
      | Some expr => ret expr
      | None => cond_loop vals num_clauses indices' env
      end
  end.

(** [do_cond_form] *)
Definition do_cond_form (vals : value) (env : Frame) : M value :=
  num_clauses ← len vals;
  cond_loop vals num_clauses (seq 0 num_clauses) env.

(** [do_begin_form]: the check, and the recursion on the rest of [vals]. *)
Fixpoint do_begin_form (vals : value) (env : Frame) : M value :=
  _ ← check_form vals 1 None;
  n ← len vals;
  if n =? 1 then first vals
  else
    match vals with
    | Pair a rest => _ ← scheme_eval a env; do_begin_form rest env
    | _ => raise AttributeError
    end.

(** [LOGIC_FORMS]: [None] for a key that is not in the dictionary. *)
Definition LOGIC_FORMS (name : value)
    : option (value → Frame → M value) :=
  if is_str "and" name then Some do_and_form
  else if is_str "or" name then Some do_or_form
  else if is_str "if" name then Some do_if_form
  else if is_str "cond" name then Some do_cond_form
  else if is_str "begin" name then Some do_begin_form
  else None.

(** Modelled from the spec: [Pair.map] and [nil.map] of [scheme_reader], in
    [rest.map(lambda operand: scheme_eval(operand, env))]: the operands
    are evaluated from left to right. *)
Fixpoint map_eval (rest : value) (env : Frame) : M value :=
  match rest with
  | Nil => ret Nil
  | Pair operand tail =>
      mapped ← scheme_eval operand env;
      if is_nil tail || is_pair tail then
        tail' ← map_eval tail env; ret (Pair mapped tail')
      else raise TypeError
  | _ => raise AttributeError
  end.

(** [scheme_apply] *)
Definition scheme_apply (procedure args : value) (env : Frame) : M value :=
  match procedure with
  | PrimitiveProcedure fn use_env => apply_primitive fn use_env args env
  | LambdaProcedure formals body penv =>
      new ← make_call_frame penv formals args;
      scheme_eval body new
  | MuProcedure formals body =>
      new ← make_call_frame env formals args;
      scheme_eval body new
  | _ => raise (SchemeErrorOn "Cannot call " procedure)
  end.

(** *** The two evaluators *)

(** The body of [scheme_eval] as the module defines it first: the
    recursive evaluator. *)
Definition eval_body (expr : value) (env : Frame) : M value :=
  match expr with
  | PyNone => raise (SchemeError "Cannot evaluate an undefined expression.")
  | Sym s => lookup env s
  | _ =>
      if scheme_atomp expr then ret expr
      else if negb (scheme_listp expr) then
        raise (SchemeErrorOn "malformed list: " expr)
      else
        first ← first expr;
        rest ← second expr;
        match LOGIC_FORMS first with
        | Some form =>
            e ← form rest env;
            scheme_eval e env
        | None =>
            if is_str "lambda" first then do_lambda_form rest env
            else if is_str "mu" first then do_mu_form rest
            else if is_str "define" first then do_define_form rest env
            else if is_str "quote" first then do_quote_form rest
            else if is_str "let" first then
              '(e, new_env) ← do_let_form rest env;
              scheme_eval e new_env
            else
              procedure ← scheme_eval first env;
              args ← map_eval rest env;
              scheme_apply procedure args env
        end
  end.

(** One turn of the [while] loop of [scheme_optimized_eval]; [continue]
    is the next turn, with the new [expr] and [env]. *)
Definition optimized_eval_body (continue : value → Frame → M value)
    (expr : value) (env : Frame) : M value :=
  match expr with
  | PyNone => raise (SchemeError "Cannot evaluate an undefined expression.")
  | Sym s => lookup env s
  | _ =>
      if scheme_atomp expr then ret expr
      else if negb (scheme_listp expr) then
        raise (SchemeErrorOn "malformed list: " expr)
      else
        first ← first expr;
        rest ← second expr;
        match LOGIC_FORMS first with
        | Some form =>
            expr ← form rest env;
            continue expr env
        | None =>
            if is_str "lambda" first then do_lambda_form rest env
            else if is_str "mu" first then do_mu_form rest
            else if is_str "define" first then do_define_form rest env
            else if is_str "quote" first then do_quote_form rest
            else if is_str "let" first then
              '(expr, env) ← do_let_form rest env;
              continue expr env
            else
              procedure ← scheme_eval first env;
              args ← map_eval rest env;
              match procedure with
              | PrimitiveProcedure fn use_env =>
                  apply_primitive fn use_env args env
              | LambdaProcedure formals body penv =>
                  env ← make_call_frame penv formals args;
                  continue body env
              | MuProcedure formals body =>
                  env ← make_call_frame env formals args;
                  continue body env
              | _ => raise (SchemeErrorOn "Cannot call " procedure)
              end
        end
  end.

End forms.

(** [scheme_eval] before the module rebinds the name: every [scheme_eval]
    in its body, in [scheme_apply] and in the special forms is this
    function, also where the call is the last thing that its caller does
    ([return scheme_eval(...)] at l.34, 45, 59 and 65).  Each of these
    calls takes a level of the host stack, and gives it back when it
    returns.  [d] is the number of levels that are left: the call that
    finds none raises [RecursionError].  Every step of this evaluator is
    such a call, so [d] bounds the evaluation as well. *)
Fixpoint scheme_eval (d : nat) (expr : value) (env : Frame) : M value :=
  match d with
  | 0 => raise RecursionError
  | S d' => eval_body (scheme_eval d') expr env
  end.

(** [scheme_optimized_eval], which is also what the name [scheme_eval]
    stands for once the module has executed
    [scheme_eval = scheme_optimized_eval].  A turn of the loop takes one
    unit of [n], as a call does. *)
Fixpoint scheme_optimized_eval (n : nat) (expr : value) (env : Frame)
    : M value :=
  match n with
  | 0 => timeout
  | S n' =>
      optimized_eval_body (scheme_optimized_eval n')
        (scheme_optimized_eval n') expr env
  end.

(** [scheme_optimized_eval] on a host stack of which [d] levels are left.
    A call takes a level, as in the recursive evaluator, and the call that
    finds none raises [RecursionError]; a turn of the loop takes none: it
    goes on at the level of the call that it is in.  [n] bounds the turns
    and the calls as above. *)
Fixpoint scheme_optimized_eval_on_stack (d n : nat) (expr : value)
    (env : Frame) {struct n} : M value :=
  match d, n with
  | 0, _ => raise RecursionError
  | _, 0 => timeout
  | S d', S n' =>
      optimized_eval_body (scheme_optimized_eval_on_stack d' n')
        (scheme_optimized_eval_on_stack d n') expr env
  end.

End evaluator.

Arguments value : clear implicits.
Arguments exn : clear implicits.
Abbreviation heap Prim := (list (gmap string (value Prim))).
Arguments M : clear implicits.

(** Scheme lists written as Rocq lists. *)
Fixpoint slist {Prim} (xs : list (value Prim)) : value Prim :=
  match xs with
  | [] => Nil
  | x :: xs' => Pair x (slist xs')
  end.

End Scheme.

(** ** Properties of the logic language *)

Module LogicTheory.
Import Logic.

(** *** A stack that is deep enough

    [lookup] hides from its callers that the stack of the host has run
    out.  The functions of this section are the ones of [logic.py] for a
    run in which that does not happen: [Deep.lookup] has the result of
    [lookup] when the chain of bindings ends within the bound, and no
    result otherwise; the other functions are as in the program, on top of
    it.  They are not part of the program.  They serve to state that a run
    of the program is not cut short (lemmas [deep_lookup] to
    [deep_answers]): where one of them has a result, the program has the
    same result, with that bound and with every larger one. *)
Module Deep.

Fixpoint lookup (n : nat) (sym : term) (env : Frame) : option term :=
  match n with
  | 0 => None
  | S n' =>
      match sym with
      | Sym s =>
          match Frame_lookup s env with
          | Some v => lookup n' v env
          | None => Some sym
          end
      | _ => Some sym
      end
  end.

Fixpoint unify (n : nat) (e f : term) (env : Frame) : option (bool * Frame) :=
  match n with
  | 0 => None
  | S n' =>
      e ← lookup n' e env;
      f ← lookup n' f env;
      if py_eq e f then Some (true, env)
      else if isvar e then
        match e with
        | Sym s => Some (true, define s f env)
        | _ => None
        end
      else if isvar f then
        match f with
        | Sym s => Some (true, define s e env)
        | _ => None
        end
      else if scheme_atomp e || scheme_atomp f then Some (false, env)
      else
        match e, f with
        | Pair e1 e2, Pair f1 f2 =>
            '(r, env1) ← unify n' e1 f1 env;
            if r : bool then unify n' e2 f2 env1 else Some (false, env1)
        | _, _ => None
        end
  end.

Fixpoint bind (n : nat) (expr : term) (env : Frame) : option term :=
  match n with
  | 0 => None
  | S n' =>
      if scheme_symbolp expr then
        resolved ← lookup n' expr env;
        if negb (py_eq expr resolved) then bind n' resolved env
        else Some expr
      else
        match expr with
        | Pair first second =>
            first' ← bind n' first env;
            second' ← bind n' second env;
            Some (Pair first' second')
        | _ => Some expr
        end
  end.

Fixpoint bind_all (n : nat) (vs : list term) (env : Frame)
    : option (list (term * term)) :=
  match vs with
  | [] => Some []
  | v :: vs' =>
      b ← bind n v env;
      bs ← bind_all n vs' env;
      Some ((v, b) :: bs)
  end.

Fixpoint query (n : nat) (facts : list term) (clauses : term) (env : Frame)
    (depth : nat) (yield : Frame → M unit) : M unit :=
  match n with
  | 0 => timeout
  | S n' =>
      if is_nil clauses then yield env
      else if match DEPTH_LIMIT with
              | None => true
              | Some limit => depth <=? limit
              end
      then
        for_each facts (λ fact,
          id ← get_unique_id;
          let fact := label fact id in
          let env_head := Frame_new (Some env) in
          head ← first fact;
          goal ← first clauses;
          '(unified, env_head) ← need (unify n' head goal env_head);
          if unified : bool then
            hypotheses ← second fact;
            query n' facts hypotheses env_head (depth + 1) (λ env_rule,
              rest ← second clauses;
              query n' facts rest env_rule (depth + 1) yield)
          else ret tt)
      else ret tt
  end.

Definition do_query (n : nat) (facts : list term) (clauses : term) : M unit :=
  query n facts clauses (Frame_new None) 0 (λ env,
    answer ← need (bind_all n (get_vars clauses) env);
    emit answer).

Definition answers (n : nat) (facts : list term) (clauses : term) (id : nat)
    : result exn (list (list (term * term))) :=
  match do_query n facts clauses (mkSession id []) with
  | Ok (_, st) => Ok (yielded st)
  | Raise e => Raise e
  | Timeout => Timeout
  end.

End Deep.

(** A larger bound does not change a result of these functions. *)

Lemma lookup_mono n m sym env u :
  Deep.lookup n sym env = Some u → n ≤ m → Deep.lookup m sym env = Some u.
Proof.
  revert m sym. induction n as [|n IH]; intros m sym H Hle; [done|].
  destruct m as [|m]; [lia|]. simpl in *.
  destruct sym; try done.
  destruct (Frame_lookup s env); [|done]. apply IH; [done|lia].
Qed.

Lemma unify_mono n m e f env r :
  Deep.unify n e f env = Some r → n ≤ m → Deep.unify m e f env = Some r.
Proof.
  revert m e f env r. induction n as [|n IH]; intros m e f env r H Hle; [done|].
  destruct m as [|m]; [lia|]. simpl in *.
  destruct (Deep.lookup n e env) as [e'|] eqn:He; [|done].
  destruct (Deep.lookup n f env) as [f'|] eqn:Hf; [|done].
  rewrite (lookup_mono n m e env e' He), (lookup_mono n m f env f' Hf) by lia.
  simpl in *.
  destruct (py_eq e' f'); [done|].
  destruct (isvar e'); [done|]. destruct (isvar f'); [done|].
  destruct (scheme_atomp e' || scheme_atomp f'); [done|].
  destruct e'; try done. destruct f'; try done.
  destruct (Deep.unify n e'1 f'1 env) as [[r1 env1]|] eqn:H1; [|done].
  rewrite (IH m _ _ _ _ H1) by lia. simpl in *.
  destruct r1; [|done]. apply IH; [done|lia].
Qed.

Lemma bind_mono n m expr env u :
  Deep.bind n expr env = Some u → n ≤ m → Deep.bind m expr env = Some u.
Proof.
  revert m expr u. induction n as [|n IH]; intros m expr u H Hle; [done|].
  destruct m as [|m]; [lia|]. simpl in *.
  destruct (scheme_symbolp expr).
  - destruct (Deep.lookup n expr env) as [v|] eqn:Hv; [|done].
    rewrite (lookup_mono n m expr env v Hv) by lia. simpl in *.
    destruct (negb (py_eq expr v)); [|done]. apply IH; [done|lia].
  - destruct expr; try done.
    destruct (Deep.bind n expr1 env) as [a|] eqn:Ha; [|done].
    destruct (Deep.bind n expr2 env) as [b|] eqn:Hb; [|done].
    rewrite (IH m _ _ Ha), (IH m _ _ Hb) by lia. done.
Qed.

(** A generator body that returns whenever another one does, with the same
    session. *)
Definition refines (y1 y2 : Frame → M unit) : Prop :=
  ∀ env st r, y1 env st = Ok r → y2 env st = Ok r.

Lemma for_each_refines {A} (xs : list A) (b1 b2 : A → M unit) st r :
  (∀ x st r, b1 x st = Ok r → b2 x st = Ok r) →
  for_each xs b1 st = Ok r → for_each xs b2 st = Ok r.
Proof.
  intros Hb. revert st. induction xs as [|x xs IH]; intros st H; [done|].
  simpl in *. unfold mbind, M_bind, bnd in *.
  destruct (b1 x st) as [[[] st1]| |] eqn:H1; try done.
  rewrite (Hb _ _ _ H1). by apply IH.
Qed.

(** *** What [Deep] says of the program *)

(** Where the chain of bindings ends within the bound, [lookup] returns
    its end, with that bound and with every larger one. *)
Lemma deep_lookup n m sym env u :
  Deep.lookup n sym env = Some u → n ≤ m → lookup m sym env = u.
Proof.
  revert m sym. induction n as [|n IH]; intros m sym H Hle; [done|].
  destruct m as [|m]; [lia|]. simpl in *.
  destruct sym; simplify_eq; try done.
  destruct (Frame_lookup s env); [|by simplify_eq]. apply IH; [done|lia].
Qed.

Lemma deep_unify n m e f env r :
  Deep.unify n e f env = Some r → n ≤ m → unify m e f env = Some r.
Proof.
  revert m e f env r. induction n as [|n IH]; intros m e f env r H Hle; [done|].
  destruct m as [|m]; [lia|]. simpl in *.
  destruct (Deep.lookup n e env) as [e'|] eqn:He; [|done].
  destruct (Deep.lookup n f env) as [f'|] eqn:Hf; [|done].
  rewrite (deep_lookup n m e env e' He), (deep_lookup n m f env f' Hf) by lia.
  simpl in *.
  destruct (py_eq e' f'); [done|].
  destruct (isvar e'); [done|]. destruct (isvar f'); [done|].
  destruct (scheme_atomp e' || scheme_atomp f'); [done|].
  destruct e'; try done. destruct f'; try done.
  destruct (Deep.unify n e'1 f'1 env) as [[r1 env1]|] eqn:H1; [|done].
  rewrite (IH m _ _ _ _ H1) by lia. simpl in *.
  destruct r1; [|done]. apply IH; [done|lia].
Qed.

Lemma deep_bind n m expr env u :
  Deep.bind n expr env = Some u → n ≤ m → bind m expr env = Some u.
Proof.
  revert m expr u. induction n as [|n IH]; intros m expr u H Hle; [done|].
  destruct m as [|m]; [lia|]. simpl in *.
  destruct (scheme_symbolp expr).
  - destruct (Deep.lookup n expr env) as [v|] eqn:Hv; [|done].
    rewrite (deep_lookup n m expr env v Hv) by lia. simpl in *.
    destruct (negb (py_eq expr v)); [|done]. apply IH; [done|lia].
  - destruct expr; try done.
    destruct (Deep.bind n expr1 env) as [a|] eqn:Ha; [|done].
    destruct (Deep.bind n expr2 env) as [b|] eqn:Hb; [|done].
    rewrite (IH m _ _ Ha), (IH m _ _ Hb) by lia. done.
Qed.

Lemma deep_bind_all n m vs env bs :
  Deep.bind_all n vs env = Some bs → n ≤ m → bind_all m vs env = Some bs.
Proof.
  revert bs. induction vs as [|v vs IH]; intros bs H Hle; [done|].
  simpl in *.
  destruct (Deep.bind n v env) as [b|] eqn:Hb; [|done].
  rewrite (deep_bind n m v env b Hb) by lia. simpl in *.
  destruct (Deep.bind_all n vs env) as [bs'|] eqn:Hbs; [|done].
  rewrite (IH bs' eq_refl) by lia. done.
Qed.

Lemma deep_query n m facts clauses env depth y1 y2 st r :
  refines y1 y2 → n ≤ m →
  Deep.query n facts clauses env depth y1 st = Ok r →
  query m facts clauses env depth y2 st = Ok r.
Proof.
  revert m clauses env depth y1 y2 st r.
  induction n as [|n IH]; intros m clauses env depth y1 y2 st r Hy Hle H;
    [done|].
  destruct m as [|m]; [lia|]. simpl in *.
  destruct (is_nil clauses); [by apply Hy|].
  destruct (depth <=? 20); [|done].
  revert H. apply for_each_refines. intros fact st0 r0.
  unfold mbind, M_bind, bnd, get_unique_id.
  destruct (first (label _ _) _) as [[hd st1]| |]; [|done..].
  destruct (first clauses st1) as [[goal st2]| |]; [|done..].
  unfold need.
  destruct (Deep.unify n _ _ _) as [[u eh]|] eqn:Hu; [|done].
  rewrite (deep_unify n m _ _ _ _ Hu) by lia. simpl.
  destruct u; [|done].
  destruct (second _ _) as [[hy st3]| |]; [|done..].
  apply IH; [|lia].
  intros env1 st4 r4.
  destruct (second clauses st4) as [[rest st5]| |]; [|done..].
  apply IH; [done|lia].
Qed.

(** A query that is answered without a stack that runs out is answered
    the same by the program, with that bound and with every larger one. *)
Lemma deep_answers n m facts clauses id r :
  Deep.answers n facts clauses id = Ok r → n ≤ m →
  answers m facts clauses id = Ok r.
Proof.
  unfold Deep.answers, Deep.do_query, answers, do_query. intros H Hle.
  destruct (Deep.query n _ _ _ _ _ _) as [[[] st]| |] eqn:Hq; [|done..].
  assert (Hy : refines
    (λ env, answer ← need (Deep.bind_all n (get_vars clauses) env);
            emit answer)
    (λ env, answer ← need (bind_all m (get_vars clauses) env); emit answer)).
  { intros env st0 r0. unfold mbind, M_bind, bnd, need.
    destruct (Deep.bind_all n _ _) as [bs|] eqn:Hb; [|done].
    by rewrite (deep_bind_all n m _ _ _ Hb Hle). }
  by rewrite (deep_query _ _ _ _ _ _ _ _ _ _ Hy Hle Hq).
Qed.

(** *** The two scenarios *)

Definition simpsons : list term :=
  [ slist [slist [Sym "parent"; Sym "abe"; Sym "homer"]];
    slist [slist [Sym "parent"; Sym "homer"; Sym "bart"]];
    slist [slist [Sym "grandparent"; Sym "?a"; Sym "?c"];
           slist [Sym "parent"; Sym "?a"; Sym "?b"];
           slist [Sym "parent"; Sym "?b"; Sym "?c"]] ].

Definition grandparent_of_abe : term :=
  slist [slist [Sym "grandparent"; Sym "abe"; Sym "?who"]].

Definition loop_fact : list term :=
  [ slist [slist [Sym "loop"; Sym "?x"]; slist [Sym "loop"; Sym "?x"]] ].

Definition loop_a : term := slist [slist [Sym "loop"; Sym "a"]].

(** C1.  With the facts (parent abe homer), (parent homer bart) and the rule
    (grandparent ?a ?c) <- (parent ?a ?b) (parent ?b ?c), asserted in this
    order in a session whose counter is at its initial value, the query
    (grandparent abe ?who) returns, with any bound [n] from 12 on, a
    non-empty list of answers whose first answer binds ?who to bart. *)
Theorem grandparent_first_answer n :
  12 ≤ n →
  ∃ rest, answers n simpsons grandparent_of_abe IDENTIFIER_init
          = Ok ([(Sym "?who", Sym "bart")] :: rest).
Proof.
  intros Hn. exists [].
  apply (deep_answers 12); [vm_compute; reflexivity|exact Hn].
Qed.

Lemma grandparent_first_answer_witness :
  ∃ rest, answers 12 simpsons grandparent_of_abe IDENTIFIER_init
          = Ok ([(Sym "?who", Sym "bart")] :: rest).
Proof. apply (grandparent_first_answer 12). lia. Defined.

(** C2.  With the depth limit 20 and the single fact (loop ?x) <- (loop ?x),
    the query (loop a) returns, with any bound [n] from 26 on: it
    raises nothing and yields no answer. *)
Theorem loop_query_fails n :
  26 ≤ n →
  DEPTH_LIMIT = Some 20 ∧
  answers n loop_fact loop_a IDENTIFIER_init = Ok [].
Proof.
  intros Hn. split; [reflexivity|].
  apply (deep_answers 26); [vm_compute; reflexivity|exact Hn].
Qed.

Lemma loop_query_fails_witness :
  DEPTH_LIMIT = Some 20 ∧
  answers 26 loop_fact loop_a IDENTIFIER_init = Ok [].
Proof. apply (loop_query_fails 26). lia. Defined.

(** *** What [lookup] returns *)

#[local] Arguments define : simpl never.

(** A term is resolved in a frame when [lookup] leaves it as it is: it is
    not a symbol, or it is a symbol that no frame of the chain binds. *)
Definition resolved (env : Frame) (u : term) : Prop :=
  match u with
  | Sym s => Frame_lookup s env = None
  | _ => True
  end.

Lemma lookup_resolved n sym env u :
  Deep.lookup n sym env = Some u → resolved env u.
Proof.
  revert sym. induction n as [|n IH]; intros sym H; [done|].
  simpl in H. destruct sym; simplify_eq; try done.
  destruct (Frame_lookup s env) eqn:Hs; [by eapply IH|].
  by simplify_eq.
Qed.

Lemma resolved_lookup n env u :
  resolved env u → Deep.lookup (S n) u env = Some u.
Proof. destruct u; simpl; try done. by intros ->. Qed.

(** [lookup] leaves a resolved term as it is, whatever is left of the
    stack. *)
Lemma lookup_of_resolved n env u : resolved env u → lookup n u env = u.
Proof. destruct n, u; simpl; try done. by intros ->. Qed.

Lemma lookup_not_Sym n env u : (∀ s, u ≠ Sym s) → lookup n u env = u.
Proof. intros Hu. destruct n, u; try done. by destruct (Hu s). Qed.

(** [Deep.lookup] has a result exactly where [lookup], with one level
    less, comes to the end of the chain of bindings: it returns a resolved
    term. *)
Lemma deep_lookup_iff n sym env u :
  Deep.lookup (S n) sym env = Some u
  ↔ lookup n sym env = u ∧ resolved env u.
Proof.
  revert sym. induction n as [|n IH]; intros sym.
  - simpl. destruct sym; try (split; [by intros [= <-]|by intros [<- _]]).
    destruct (Frame_lookup s env) eqn:Hs.
    + split; [done|]. intros [<- Hr]. simpl in Hr. congruence.
    + split; [by intros [= <-]|by intros [<- _]].
  - cbn [lookup]. cbn [Deep.lookup] in *.
    destruct sym; try (split; [by intros [= <-]|by intros [<- _]]).
    destruct (Frame_lookup s env) as [v|] eqn:Hs; [apply IH|].
    split; [by intros [= <-]|by intros [<- _]].
Qed.

Lemma Frame_lookup_None_bindings s env :
  Frame_lookup s env = None → bindings env !! s = None.
Proof. destruct env as [b p]. simpl. by destruct (b !! s). Qed.

Lemma Frame_lookup_define s s' v env :
  Frame_lookup s' (define s v env)
  = if decide (s = s') then Some v else Frame_lookup s' env.
Proof.
  destruct env as [b p]. unfold define. simpl.
  rewrite lookup_insert. by destruct (decide (s = s')).
Qed.

Lemma isvar_Sym e : isvar e = true → ∃ s, e = Sym s.
Proof. destruct e; try done. by eexists. Qed.

(** One call of [unify], given what the two calls of [lookup] return. *)
Lemma unify_S k e f env :
  unify (S k) e f env =
    let e' := lookup k e env in
    let f' := lookup k f env in
    if py_eq e' f' then Some (true, env)
    else if isvar e' then
      match e' with Sym s => Some (true, define s f' env) | _ => None end
    else if isvar f' then
      match f' with Sym s => Some (true, define s e' env) | _ => None end
    else if scheme_atomp e' || scheme_atomp f' then Some (false, env)
    else
      match e', f' with
      | Pair e1 e2, Pair f1 f2 =>
          '(r, env1) ← unify k e1 f1 env;
          if r : bool then unify k e2 f2 env1 else Some (false, env1)
      | _, _ => None
      end.
Proof. reflexivity. Qed.

(** *** Unification and the bindings of its frame *)

(** Two variables that are bound to each other. *)
Definition circle : Frame :=
  mkFrame {["?x" := Sym "?y"; "?y" := Sym "?x"]} None.

(** In [circle], [lookup] goes round until the stack runs out, and
    returns the variable it is at. *)
Lemma lookup_circle n :
  lookup n (Sym "?x") circle = (if Nat.even n then Sym "?x" else Sym "?y")
  ∧ lookup n (Sym "?y") circle = (if Nat.even n then Sym "?y" else Sym "?x").
Proof.
  induction n as [|n [IHx IHy]]; [done|].
  rewrite Nat.even_succ, <-Nat.negb_even.
  change (lookup (S n) (Sym "?x") circle) with (lookup n (Sym "?y") circle).
  change (lookup (S n) (Sym "?y") circle) with (lookup n (Sym "?x") circle).
  rewrite IHx, IHy. by destruct (Nat.even n).
Qed.

(** C3.  [unify] changes a binding of its frame where [lookup] has been
    cut short.  In the frame that binds [?x] to [?y] and [?y] to [?x],
    [unify(?x, a)] returns [True] with any stack, and has bound to [a]
    the variable at which [lookup] stopped: the binding that this variable
    had is lost. *)
Theorem unify_changes_binding n :
  let stopped := if Nat.even n then "?x" else "?y" in
  Frame_lookup "?x" circle = Some (Sym "?y")
  ∧ Frame_lookup "?y" circle = Some (Sym "?x")
  ∧ unify (S n) (Sym "?x") (Sym "a") circle
    = Some (true, define stopped (Sym "a") circle)
  ∧ Frame_lookup stopped (define stopped (Sym "a") circle) = Some (Sym "a").
Proof.
  intros stopped. split; [done|]. split; [done|]. split.
  - rewrite unify_S. destruct (lookup_circle n) as [-> _].
    rewrite (lookup_of_resolved n circle (Sym "a")) by done.
    subst stopped. by destruct (Nat.even n).
  - rewrite Frame_lookup_define. by rewrite decide_True.
Qed.

(** The same without a circle: a chain of variables that is longer than
    what is left of the stack.  [chain k] binds [?v0] to [?v1], [?v1] to
    [?v2], and so on up to [?v(k-1)], which it binds to [?vk]. *)
Definition var (i : nat) : string := "?v" +:+ str i.

Fixpoint chain_bindings (k : nat) : gmap string term :=
  match k with
  | 0 => ∅
  | S k' => <[var k' := Sym (var k)]> (chain_bindings k')
  end.

Definition chain (k : nat) : Frame := mkFrame (chain_bindings k) None.

Lemma var_inj i j : var i = var j → i = j.
Proof. unfold var, str. intros H. simplify_eq/=. by apply (inj pretty). Qed.

Lemma Frame_lookup_chain i k :
  Frame_lookup (var i) (chain k)
  = if decide (i < k) then Some (Sym (var (S i))) else None.
Proof.
  unfold chain. cbn [Frame_lookup].
  assert (chain_bindings k !! var i
          = if decide (i < k) then Some (Sym (var (S i))) else None) as ->;
    [|by case_decide].
  induction k as [|k IH]; [done|]. cbn [chain_bindings].
  destruct (decide (i = k)) as [->|Hne].
  - rewrite lookup_insert_eq. by rewrite decide_True by lia.
  - rewrite lookup_insert_ne by (intros ?%var_inj; lia). rewrite IH.
    repeat case_decide; done || lia.
Qed.

Lemma lookup_chain n i k :
  i + n ≤ k → lookup n (Sym (var i)) (chain k) = Sym (var (i + n)).
Proof.
  revert i. induction n as [|n IH]; intros i Hle.
  - by rewrite Nat.add_0_r.
  - cbn [lookup]. rewrite Frame_lookup_chain, decide_True by lia.
    rewrite IH by lia. do 2 f_equal. lia.
Qed.

(** With [n] levels left for [lookup] and a chain of [n + 1] variables,
    [unify(?v0, a)] binds [?vn] to [a], which was bound to [?v(n+1)]. *)
Lemma unify_changes_binding_of_chain n :
  Frame_lookup (var n) (chain (S n)) = Some (Sym (var (S n)))
  ∧ unify (S n) (Sym (var 0)) (Sym "a") (chain (S n))
    = Some (true, define (var n) (Sym "a") (chain (S n))).
Proof.
  split.
  - by rewrite Frame_lookup_chain, decide_True by lia.
  - rewrite unify_S, (lookup_chain n 0) by lia.
    rewrite (lookup_of_resolved n _ (Sym "a")); [done|].
    unfold resolved, chain. cbn [Frame_lookup].
    assert (chain_bindings (S n) !! "a" = None) as ->; [|done].
    generalize (S n). intros k. induction k as [|k IH]; [done|].
    cbn [chain_bindings]. by rewrite lookup_insert_ne.
Qed.

(** Where no [lookup] is cut short, [define] is only called on a symbol
    that no frame of the chain binds. *)
Lemma deep_unify_adds n e f env r env' :
  Deep.unify n e f env = Some (r, env') →
  parent env' = parent env
  ∧ bindings env ⊆ bindings env'
  ∧ ∀ s v, Frame_lookup s env = Some v → Frame_lookup s env' = Some v.
Proof.
  revert e f env r env'.
  induction n as [|n IH]; intros e f env r env' H; [done|].
  cbn [Deep.unify] in H.
  destruct (Deep.lookup n e env) as [e'|] eqn:He; [|done].
  destruct (Deep.lookup n f env) as [f'|] eqn:Hf; [|done].
  cbn [mbind option_bind] in H.
  apply lookup_resolved in He, Hf.
  assert (∀ x v, Frame_lookup x env = None →
    parent (define x v env) = parent env
    ∧ bindings env ⊆ bindings (define x v env)
    ∧ ∀ s w, Frame_lookup s env = Some w →
        Frame_lookup s (define x v env) = Some w) as Hdefine.
  { intros x v Hx. split; [done|]. split.
    - apply insert_subseteq, Frame_lookup_None_bindings, Hx.
    - intros s w Hs. rewrite Frame_lookup_define, decide_False; [done|].
      intros ->. congruence. }
  destruct (py_eq e' f'); [by simplify_eq|].
  destruct (isvar e') eqn:Ve.
  { apply isvar_Sym in Ve as [s ->]. simplify_eq. by apply Hdefine. }
  destruct (isvar f') eqn:Vf.
  { apply isvar_Sym in Vf as [s ->]. simplify_eq. by apply Hdefine. }
  destruct (scheme_atomp e' || scheme_atomp f'); [by simplify_eq|].
  destruct e' as [| | | | |e1 e2]; try done.
  destruct f' as [| | | | |f1 f2]; try done.
  destruct (Deep.unify n e1 f1 env) as [[r1 env1]|] eqn:H1; [|done].
  cbn in H. apply IH in H1 as (Hp1 & Hb1 & Hl1).
  destruct r1; [|by simplify_eq].
  apply IH in H as (Hp2 & Hb2 & Hl2).
  split; [congruence|]. split; [by etrans|]. auto.
Qed.

(** X6.  In a run of [unify] in which every [lookup] comes to the end of
    its chain of bindings with the stack that is left ([Deep.unify] has a
    result), [unify] returns that result, and the frame has the parent
    chain it had and every binding it had, with the same value: bindings
    are added, none is removed or changed, and none of a parent is
    hidden. *)
Theorem unify_adds_bindings n e f env r env' :
  Deep.unify n e f env = Some (r, env') →
  unify n e f env = Some (r, env')
  ∧ parent env' = parent env
  ∧ bindings env ⊆ bindings env'
  ∧ ∀ s v, Frame_lookup s env = Some v → Frame_lookup s env' = Some v.
Proof.
  intros H. split; [by apply (deep_unify n)|]. by eapply deep_unify_adds.
Qed.

(** [unify(?x, a)] in a frame that binds [?y] to [b]. *)
Lemma unify_adds_bindings_witness :
  unify 2 (Sym "?x") (Sym "a") (mkFrame {["?y" := Sym "b"]} None)
  = Some (true, define "?x" (Sym "a") (mkFrame {["?y" := Sym "b"]} None))
  ∧ parent (define "?x" (Sym "a") (mkFrame {["?y" := Sym "b"]} None))
    = parent (mkFrame {["?y" := Sym "b"]} None)
  ∧ bindings (mkFrame {["?y" := Sym "b"]} None)
    ⊆ bindings (define "?x" (Sym "a") (mkFrame {["?y" := Sym "b"]} None))
  ∧ ∀ s v, Frame_lookup s (mkFrame {["?y" := Sym "b"]} None) = Some v →
      Frame_lookup s (define "?x" (Sym "a") (mkFrame {["?y" := Sym "b"]} None))
      = Some v.
Proof.
  apply (unify_adds_bindings 2 (Sym "?x") (Sym "a") _ true).
  vm_compute. reflexivity.
Defined.

(** *** No occurs check *)

(** [v] occurs in [t]. *)
Fixpoint occurs (v t : term) : bool :=
  bool_decide (t = v) ||
  match t with
  | Pair first second => occurs v first || occurs v second
  | _ => false
  end.

(** C8.  A variable that no frame of the chain binds unifies with any pair,
    also one that contains the variable: [unify] returns [True] and has
    bound the variable to the pair. *)
Theorem unify_no_occurs_check n s first second env :
  isvar (Sym s) = true →
  Frame_lookup s env = None →
  occurs (Sym s) (Pair first second) = true →
  unify (S (S n)) (Sym s) (Pair first second) env
    = Some (true, define s (Pair first second) env)
  ∧ Frame_lookup s (define s (Pair first second) env)
    = Some (Pair first second).
Proof.
  intros Hv Hs _. split.
  - cbn [unify lookup]. rewrite Hs. simpl in *. by rewrite Hv.
  - rewrite Frame_lookup_define. by rewrite decide_True.
Qed.

Lemma unify_no_occurs_check_witness :
  unify 2 (Sym "?x") (Pair (Sym "f") (Pair (Sym "?x") Nil)) (Frame_new None)
    = Some (true, define "?x" (Pair (Sym "f") (Pair (Sym "?x") Nil))
                    (Frame_new None))
  ∧ Frame_lookup "?x" (define "?x" (Pair (Sym "f") (Pair (Sym "?x") Nil))
                         (Frame_new None))
    = Some (Pair (Sym "f") (Pair (Sym "?x") Nil)).
Proof.
  apply (unify_no_occurs_check 0 "?x" (Sym "f") (Pair (Sym "?x") Nil));
    reflexivity.
Defined.

(** *** Renaming apart *)








Lemma startswith_qmark_app s t :
  startswith_qmark s = true → startswith_qmark (s +:+ t) = true.
Proof. by destruct s. Qed.



(** The uses of facts that lead to a frame of a search.  The search starts
    from the empty frame; each use of a fact (l.40-42 of [query]) takes an
    identifier [id], relabels the fact with it, makes a new child of the
    frame that the search has come to, and has [unify] match the head of
    the relabelled fact with a goal in that child.  [derivation facts env
    us] lists the uses behind [env], the first use first, each with its
    identifier and its fact. *)
Inductive derivation (facts : list term) : Frame → list (nat * term) → Prop :=
  | derivation_start : derivation facts (Frame_new None) []
  | derivation_use env us fact id head hypotheses goal k env_head :
      derivation facts env us →
      fact ∈ facts →
      label fact id = Pair head hypotheses →
      unify k head goal (Frame_new (Some env)) = Some (true, env_head) →
      derivation facts env_head (us ++ [(id, fact)]).









(** The frame of that answer: [?x_1] is bound to [a] by the first use and
    [?x_2] to [b] by the second. *)
Example fact_used_twice :
  let fact := slist [slist [Sym "p"; Sym "?x"]] in
  let env1 := define "?x_1" (Sym "a") (Frame_new (Some (Frame_new None))) in
  let env2 := define "?x_2" (Sym "b") (Frame_new (Some env1)) in
  derivation [fact] env2 [(1, fact); (2, fact)]
  ∧ get_vars (label fact 1) = [Sym "?x_1"]
  ∧ get_vars (label fact 2) = [Sym "?x_2"].
Proof.
  intros fact env1 env2. split; [|done].
  apply (derivation_use [fact] env1 [(1, fact)] fact 2
           (slist [Sym "p"; Sym "?x_2"]) Nil (slist [Sym "p"; Sym "b"]) 4);
    [|by left|done|done].
  apply (derivation_use [fact] (Frame_new None) [] fact 1
           (slist [Sym "p"; Sym "?x_1"]) Nil (slist [Sym "p"; Sym "a"]) 4);
    [|by left|done|done].
  constructor.
Qed.

(** *** Symmetry of unification *)

Lemma py_eq_refl e : py_eq e e = true.
Proof.
  induction e as [[]| | | | |a IHa b IHb]; simpl;
    rewrite ?bool_decide_eq_true, ?IHa, ?IHb; done.
Qed.

Lemma py_eq_sym e f : py_eq e f = py_eq f e.
Proof.
  revert f. induction e as [| | | | |a IHa b IHb]; intros [];
    simpl; try done; try (apply bool_decide_ext; naive_solver).
  by rewrite IHa, IHb.
Qed.

Lemma py_eq_Sym_l s f : py_eq (Sym s) f = true → f = Sym s.
Proof. destruct f; simpl; try done. by intros ->%bool_decide_eq_true. Qed.

Lemma py_eq_Sym_r e s : py_eq e (Sym s) = true → e = Sym s.
Proof. rewrite py_eq_sym. apply py_eq_Sym_l. Qed.

(** [Deep.lookup] gives [u] for [t], with some bound. *)
Definition resolves (env : Frame) (t u : term) : Prop :=
  ∃ n, Deep.lookup n t env = Some u.

Lemma resolves_det env t u u' : resolves env t u → resolves env t u' → u = u'.
Proof.
  intros [n Hn] [m Hm].
  apply (lookup_mono _ (Nat.max n m)) in Hn, Hm; [|lia..]. congruence.
Qed.

Lemma resolves_resolved env t u : resolves env t u → resolved env u.
Proof. intros [n Hn]. by eapply lookup_resolved. Qed.

Lemma resolves_self env u : resolved env u → resolves env u u.
Proof. intros H. exists 1. by apply resolved_lookup. Qed.

Lemma resolves_step env s w u :
  Frame_lookup s env = Some w → resolves env w u → resolves env (Sym s) u.
Proof. intros Hs [n Hn]. exists (S n). simpl. by rewrite Hs. Qed.

(** The substitution that a new binding [x := v] applies to the terms that
    [Deep.lookup] returned before. *)
Definition rebind (x : string) (v u : term) : term :=
  if decide (u = Sym x) then v else u.

Section define.
Context (env : Frame) (x : string) (v : term).
Hypothesis x_unbound : Frame_lookup x env = None.
Hypothesis v_resolved : resolved env v.
Hypothesis v_not_x : v ≠ Sym x.

Lemma resolved_define u :
  resolved env u → u ≠ Sym x → resolved (define x v env) u.
Proof.
  destruct u; try done. unfold resolved. intros Hs Hne.
  rewrite Frame_lookup_define, decide_False; [done|congruence].
Qed.

Lemma resolves_define_1 t u0 :
  resolves env t u0 → resolves (define x v env) t (rebind x v u0).
Proof.
  intros [n Hn]. revert t Hn. induction n as [|n IH]; intros t Hn; [done|].
  simpl in Hn. unfold rebind.
  destruct t as [| | |s| |]; simplify_eq;
    try (rewrite decide_False by done; by apply resolves_self).
  destruct (Frame_lookup s env) as [w|] eqn:Hs.
  - apply IH in Hn. eapply resolves_step; [|exact Hn].
    rewrite Frame_lookup_define, decide_False; [done|congruence].
  - simplify_eq. case_decide as Hx.
    + simplify_eq. eapply resolves_step.
      * by rewrite Frame_lookup_define, decide_True.
      * apply resolves_self. by apply resolved_define.
    + apply resolves_self. by apply resolved_define.
Qed.

Lemma resolves_define_2 t u :
  resolves (define x v env) t u →
  ∃ u0, resolves env t u0 ∧ u = rebind x v u0.
Proof.
  intros [n Hn]. revert t Hn. induction n as [|n IH]; intros t Hn; [done|].
  cbn [Deep.lookup] in Hn.
  assert (∀ t, (∀ s, t ≠ Sym s) → Some t = Some u →
    ∃ u0, resolves env t u0 ∧ u = rebind x v u0) as Hatom.
  { intros t' Ht ?. simplify_eq. exists u. split; [by apply resolves_self;
      destruct u; try done; by destruct (Ht s)|].
    unfold rebind. by rewrite decide_False. }
  destruct t as [| | |s| |]; try (apply Hatom; [done|exact Hn]).
  rewrite Frame_lookup_define in Hn. case_decide as Hx.
  - subst s. exists (Sym x). split; [by apply resolves_self|].
    unfold rebind. rewrite decide_True by done.
    apply (resolves_det (define x v env) v); [by exists n|].
    apply resolves_self. by apply resolved_define.
  - destruct (Frame_lookup s env) as [w|] eqn:Hs.
    + apply IH in Hn as (u0 & H0 & ->). exists u0. split; [|done].
      by eapply resolves_step.
    + simplify_eq. exists (Sym s). split; [by apply resolves_self|].
      unfold rebind. rewrite decide_False; [done|congruence].
Qed.
End define.

(** Two frames are alike when [Deep.lookup] treats every term alike in both:
    it returns in both or in neither; it returns the same term, or a
    variable in both; and two terms that come to one variable in a frame
    come to one variable in the other. *)
Record alike (env1 env2 : Frame) : Prop := mkAlike {
  alike_total t u1 : resolves env1 t u1 → ∃ u2, resolves env2 t u2;
  alike_total' t u2 : resolves env2 t u2 → ∃ u1, resolves env1 t u1;
  alike_value t u1 u2 :
    resolves env1 t u1 → resolves env2 t u2 →
    if isvar u1 then isvar u2 = true else u1 = u2;
  alike_class s t a1 b1 a2 b2 :
    resolves env1 s a1 → resolves env1 t b1 →
    resolves env2 s a2 → resolves env2 t b2 →
    isvar a1 = true → (a1 = b1 ↔ a2 = b2)
}.

Lemma alike_refl env : alike env env.
Proof.
  split; eauto.
  - intros t u1 u2 H1 H2. rewrite (resolves_det _ _ _ _ H1 H2).
    by destruct (isvar u2).
  - intros s t a1 b1 a2 b2 Ha1 Hb1 Ha2 Hb2 _.
    by rewrite (resolves_det _ _ _ _ Ha1 Ha2), (resolves_det _ _ _ _ Hb1 Hb2).
Qed.

Lemma alike_value' env1 env2 t u1 u2 :
  alike env1 env2 → resolves env1 t u1 → resolves env2 t u2 →
  if isvar u2 then isvar u1 = true else u2 = u1.
Proof.
  intros A H1 H2. pose proof (alike_value _ _ A _ _ _ H1 H2) as H.
  destruct (isvar u1) eqn:E1; [by rewrite H|].
  subst u2. by rewrite E1.
Qed.

Lemma alike_sym env1 env2 : alike env1 env2 → alike env2 env1.
Proof.
  intros A. split.
  - apply A.
  - apply A.
  - intros t u2 u1 H2 H1. by eapply alike_value'.
  - intros s t a2 b2 a1 b1 Ha2 Hb2 Ha1 Hb1 Hv.
    pose proof (alike_value' _ _ _ _ _ A Ha1 Ha2) as H. rewrite Hv in H.
    by rewrite (alike_class _ _ A s t a1 b1 a2 b2).
Qed.

(** The test [e == f] of [Deep.unify] comes out the same in two frames that are
    alike, also with the arguments exchanged. *)
Lemma alike_py_eq env1 env2 e f e1 f1 e2 f2 :
  alike env1 env2 →
  resolves env1 e e1 → resolves env1 f f1 →
  resolves env2 e e2 → resolves env2 f f2 →
  py_eq e1 f1 = true → py_eq f2 e2 = true.
Proof.
  intros A He1 Hf1 He2 Hf2 Heq.
  pose proof (alike_value _ _ A _ _ _ He1 He2) as Ve.
  pose proof (alike_value _ _ A _ _ _ Hf1 Hf2) as Vf.
  destruct (isvar e1) eqn:E1.
  - destruct (isvar_Sym _ E1) as [s ->].
    apply py_eq_Sym_l in Heq as ->.
    apply (alike_class _ _ A e f (Sym s) (Sym s) e2 f2) in E1; try done.
    destruct E1 as [E1 _]. rewrite E1 by done. apply py_eq_refl.
  - subst e2. destruct (isvar f1) eqn:F1.
    + destruct (isvar_Sym _ F1) as [s ->].
      apply py_eq_Sym_r in Heq as ->. by rewrite F1 in E1.
    + subst f2. by rewrite py_eq_sym.
Qed.

Section alike_define.
Context (env1 env2 : Frame) (x1 x2 : string) (v1 v2 : term).
Hypothesis A : alike env1 env2.
Hypothesis x1_unbound : Frame_lookup x1 env1 = None.
Hypothesis x2_unbound : Frame_lookup x2 env2 = None.
Hypothesis v1_resolved : resolved env1 v1.
Hypothesis v2_resolved : resolved env2 v2.
Hypothesis v1_not_x1 : v1 ≠ Sym x1.
Hypothesis v2_not_x2 : v2 ≠ Sym x2.

Lemma alike_rebind :
  (∀ t u1 u2, resolves env1 t u1 → resolves env2 t u2 →
     if isvar (rebind x1 v1 u1) then isvar (rebind x2 v2 u2) = true
     else rebind x1 v1 u1 = rebind x2 v2 u2) →
  (∀ s t a1 b1 a2 b2,
     resolves env1 s a1 → resolves env1 t b1 →
     resolves env2 s a2 → resolves env2 t b2 →
     isvar (rebind x1 v1 a1) = true →
     (rebind x1 v1 a1 = rebind x1 v1 b1
      ↔ rebind x2 v2 a2 = rebind x2 v2 b2)) →
  alike (define x1 v1 env1) (define x2 v2 env2).
Proof.
  intros Hval Hcls. split.
  - intros t u1 (u & Hu & _)%resolves_define_2; try done.
    apply (alike_total _ _ A) in Hu as [u2 Hu2].
    eexists. by apply resolves_define_1.
  - intros t u2 (u & Hu & _)%resolves_define_2; try done.
    apply (alike_total' _ _ A) in Hu as [u1 Hu1].
    eexists. by apply resolves_define_1.
  - intros t u1 u2 (a1 & Ha1 & ->)%resolves_define_2
      (a2 & Ha2 & ->)%resolves_define_2; try done.
    by apply (Hval t).
  - intros s t a1 b1 a2 b2 (a1' & Ha1 & ->)%resolves_define_2
      (b1' & Hb1 & ->)%resolves_define_2
      (a2' & Ha2 & ->)%resolves_define_2
      (b2' & Hb2 & ->)%resolves_define_2; try done.
    by apply (Hcls s t).
Qed.
End alike_define.

(** Both sides Deep.bind a variable to a variable, in opposite directions. *)
Lemma alike_define_flip env1 env2 e f x1 v1 x2 v2 :
  alike env1 env2 →
  resolves env1 e (Sym x1) → resolves env1 f v1 →
  resolves env2 e v2 → resolves env2 f (Sym x2) →
  isvar (Sym x1) = true → isvar v1 = true → v1 ≠ Sym x1 →
  alike (define x1 v1 env1) (define x2 v2 env2).
Proof.
  intros A He1 Hf1 He2 Hf2 Vx1 Vv1 Hne.
  pose proof (alike_value _ _ A _ _ _ He1 He2) as Vv2. rewrite Vx1 in Vv2.
  pose proof (alike_value _ _ A _ _ _ Hf1 Hf2) as Vx2. rewrite Vv1 in Vx2.
  pose proof (alike_class _ _ A e f _ _ _ _ He1 Hf1 He2 Hf2 Vx1) as Hef.
  assert (v2 ≠ Sym x2) as Hne2 by (intros ?; apply Hne; symmetry; tauto).
  assert (∀ t u1 u2, resolves env1 t u1 → resolves env2 t u2 →
    (rebind x1 v1 u1 = v1 ∧ rebind x2 v2 u2 = v2) ∨
    (rebind x1 v1 u1 = u1 ∧ rebind x2 v2 u2 = u2 ∧ u1 ≠ v1 ∧ u2 ≠ v2))
    as Hcases.
  { intros t u1 u2 H1 H2.
    pose proof (alike_class _ _ A e t _ _ _ _ He1 H1 He2 H2 Vx1) as Ce.
    pose proof (alike_class _ _ A f t _ _ _ _ Hf1 H1 Hf2 H2 Vv1) as Cf.
    unfold rebind.
    destruct (decide (u1 = Sym x1)) as [->|N1].
    - left. split; [done|].
      assert (u2 = v2) as -> by (symmetry; by apply (proj1 Ce)).
      by rewrite decide_False.
    - destruct (decide (u2 = Sym x2)) as [->|N2].
      + left. split; [|by rewrite ?decide_True]. symmetry.
        by apply (proj2 Cf).
      + right. split; [done|]. split; [done|]. split.
        * intros ->. apply N2. symmetry. by apply (proj1 Cf).
        * intros ->. apply N1. symmetry. by apply (proj2 Ce). }
  apply alike_rebind; try done;
    try (by eapply (resolves_resolved _ _ (Sym _)));
    try (by eapply resolves_resolved).
  - intros t u1 u2 H1 H2.
    destruct (Hcases t u1 u2 H1 H2) as [[-> ->]|(-> & -> & _)].
    + by rewrite Vv1.
    + by apply (alike_value _ _ A t).
  - intros s t a1 b1 a2 b2 Ha1 Hb1 Ha2 Hb2.
    destruct (Hcases s a1 a2 Ha1 Ha2) as [[-> ->]|(-> & -> & Na1 & Na2)];
      destruct (Hcases t b1 b2 Hb1 Hb2) as [[-> ->]|(-> & -> & Nb1 & Nb2)];
      intros Va.
    + done.
    + split; intros; by simplify_eq.
    + split; intros; by simplify_eq.
    + by apply (alike_class _ _ A s t).
Qed.

(** Both sides Deep.bind a variable to the same term, which is not a variable. *)
Lemma alike_define_same env1 env2 e f x1 x2 v :
  alike env1 env2 →
  resolves env1 e (Sym x1) → resolves env2 e (Sym x2) →
  resolves env1 f v → resolves env2 f v →
  isvar (Sym x1) = true → isvar v = false →
  alike (define x1 v env1) (define x2 v env2).
Proof.
  intros A He1 He2 Hf1 Hf2 Vx1 Vv.
  pose proof (alike_value _ _ A _ _ _ He1 He2) as Vx2. rewrite Vx1 in Vx2.
  assert (v ≠ Sym x1) as Hne1 by (intros ->; congruence).
  assert (v ≠ Sym x2) as Hne2 by (intros ->; congruence).
  assert (∀ t u1 u2, resolves env1 t u1 → resolves env2 t u2 →
    (rebind x1 v u1 = v ∧ rebind x2 v u2 = v) ∨
    (rebind x1 v u1 = u1 ∧ rebind x2 v u2 = u2)) as Hcases.
  { intros t u1 u2 H1 H2.
    pose proof (alike_class _ _ A e t _ _ _ _ He1 H1 He2 H2 Vx1) as Ce.
    unfold rebind.
    destruct (decide (u1 = Sym x1)) as [->|N1].
    - left. split; [done|].
      assert (u2 = Sym x2) as -> by (symmetry; by apply (proj1 Ce)).
      by rewrite decide_True.
    - right. split; [done|]. rewrite decide_False; [done|].
      intros ->. apply N1. symmetry. by apply (proj2 Ce). }
  apply alike_rebind; try done;
    try (by eapply (resolves_resolved _ _ (Sym _)));
    try (by eapply resolves_resolved).
  - intros t u1 u2 H1 H2.
    destruct (Hcases t u1 u2 H1 H2) as [[-> ->]|[-> ->]].
    + by rewrite Vv.
    + by apply (alike_value _ _ A t).
  - intros s t a1 b1 a2 b2 Ha1 Hb1 Ha2 Hb2.
    pose proof (alike_value _ _ A _ _ _ Ha1 Ha2) as Vs.
    destruct (Hcases s a1 a2 Ha1 Ha2) as [[-> ->]|[-> ->]];
      destruct (Hcases t b1 b2 Hb1 Hb2) as [[-> ->]|[-> ->]];
      intros Va; try congruence.
    + rewrite Va in Vs. split; intros; subst; congruence.
    + by apply (alike_class _ _ A s t).
Qed.

(** One call of [Deep.unify], given what the two calls of [Deep.lookup] return. *)
Lemma unify_step k e f env e' f' :
  Deep.lookup k e env = Some e' → Deep.lookup k f env = Some f' →
  Deep.unify (S k) e f env =
    if py_eq e' f' then Some (true, env)
    else if isvar e' then
      match e' with Sym s => Some (true, define s f' env) | _ => None end
    else if isvar f' then
      match f' with Sym s => Some (true, define s e' env) | _ => None end
    else if scheme_atomp e' || scheme_atomp f' then Some (false, env)
    else
      match e', f' with
      | Pair e1 e2, Pair f1 f2 =>
          '(r, env1) ← Deep.unify k e1 f1 env;
          if r : bool then Deep.unify k e2 f2 env1 else Some (false, env1)
      | _, _ => None
      end.
Proof. intros He Hf. cbn [Deep.unify]. by rewrite He, Hf. Qed.

(** [Deep.unify e f] in a frame and [Deep.unify f e] in a frame that is alike return
    the same boolean, and leave frames that are alike. *)
Lemma unify_flip n e f env1 env2 r env1' :
  alike env1 env2 →
  Deep.unify n e f env1 = Some (r, env1') →
  ∃ m env2', Deep.unify m f e env2 = Some (r, env2')
             ∧ (r = true → alike env1' env2').
Proof.
  revert e f env1 env2 r env1'.
  induction n as [|n IH]; intros e f env1 env2 r env1' A H; [done|].
  destruct (Deep.lookup n e env1) as [e1|] eqn:He1;
    [|by cbn [Deep.unify] in H; rewrite He1 in H].
  destruct (Deep.lookup n f env1) as [f1|] eqn:Hf1;
    [|by cbn [Deep.unify] in H; rewrite He1, Hf1 in H].
  rewrite (unify_step _ _ _ _ _ _ He1 Hf1) in H.
  assert (resolves env1 e e1) as Re1 by by exists n.
  assert (resolves env1 f f1) as Rf1 by by exists n.
  destruct (alike_total _ _ A _ _ Re1) as [e2 Re2].
  destruct (alike_total _ _ A _ _ Rf1) as [f2 Rf2].
  pose proof (alike_value _ _ A _ _ _ Re1 Re2) as Ve.
  pose proof (alike_value _ _ A _ _ _ Rf1 Rf2) as Vf.
  destruct Re2 as [ke He2], Rf2 as [kf Hf2].
  assert (∀ k, Nat.max ke kf ≤ k →
    Deep.lookup k f env2 = Some f2 ∧ Deep.lookup k e env2 = Some e2) as Hk.
  { intros k Hk. split; eapply lookup_mono; try done; lia. }
  assert (resolves env2 e e2) as Re2 by by exists ke.
  assert (resolves env2 f f2) as Rf2 by by exists kf.
  destruct (py_eq e1 f1) eqn:Heq.
  { simplify_eq. exists (S (Nat.max ke kf)), env2.
    destruct (Hk (Nat.max ke kf)) as [Hf He]; [done|].
    rewrite (unify_step _ _ _ _ _ _ Hf He).
    by rewrite (alike_py_eq _ _ _ _ _ _ _ _ A Re1 Rf1 Re2 Rf2 Heq). }
  assert (py_eq f2 e2 = false) as Heq2.
  { destruct (py_eq f2 e2) eqn:E; [|done].
    by rewrite (alike_py_eq _ _ _ _ _ _ _ _ (alike_sym _ _ A)
                  Rf2 Re2 Rf1 Re1 E) in Heq. }
  destruct (isvar e1) eqn:Ve1.
  { destruct (isvar_Sym _ Ve1) as [s1 ->].
    destruct (isvar_Sym _ Ve) as [s2 ->]. simplify_eq.
    assert (f1 ≠ Sym s1) as Hne by (intros ->; by rewrite py_eq_refl in Heq).
    exists (S (Nat.max ke kf)).
    destruct (Hk (Nat.max ke kf)) as [Hf He]; [done|].
    rewrite (unify_step _ _ _ _ _ _ Hf He), Heq2.
    destruct (isvar f1) eqn:Vf1.
    - rewrite Vf. destruct (isvar_Sym _ Vf) as [t2 ->].
      eexists. split; [done|]. intros _.
      by apply (alike_define_flip _ _ e f).
    - subst f2. rewrite Vf1, Ve. eexists. split; [done|]. intros _.
      by apply (alike_define_same _ _ e f). }
  subst e2.
  destruct (isvar f1) eqn:Vf1.
  { destruct (isvar_Sym _ Vf1) as [t1 ->].
    destruct (isvar_Sym _ Vf) as [t2 ->]. simplify_eq.
    exists (S (Nat.max ke kf)).
    destruct (Hk (Nat.max ke kf)) as [Hf He]; [done|].
    rewrite (unify_step _ _ _ _ _ _ Hf He), Heq2, Vf.
    eexists. split; [done|]. intros _.
    by apply (alike_define_same _ _ f e). }
  subst f2.
  destruct (scheme_atomp e1 || scheme_atomp f1) eqn:Hat.
  { simplify_eq. exists (S (Nat.max ke kf)), env2.
    destruct (Hk (Nat.max ke kf)) as [Hf He]; [done|].
    rewrite (unify_step _ _ _ _ _ _ Hf He), Heq2, Vf1, Ve1.
    by rewrite orb_comm, Hat. }
  destruct e1 as [| | | | |a b]; try done.
  destruct f1 as [| | | | |c d]; try done.
  destruct (Deep.unify n a c env1) as [[r1 envA]|] eqn:H1; [|done].
  destruct (IH _ _ _ _ _ _ A H1) as (m1 & envB & HB & AB).
  cbn in H. destruct r1.
  - destruct (IH _ _ _ _ _ _ (AB eq_refl) H) as (m2 & env2' & H2 & A2).
    exists (S (Nat.max (Nat.max ke kf) (Nat.max m1 m2))), env2'.
    destruct (Hk (Nat.max (Nat.max ke kf) (Nat.max m1 m2))) as [Hf He]; [lia|].
    rewrite (unify_step _ _ _ _ _ _ Hf He), Heq2, Vf1, Ve1.
    rewrite orb_comm, Hat.
    rewrite (unify_mono _ (Nat.max (Nat.max ke kf) (Nat.max m1 m2)) _ _ _ _ HB)
      by lia.
    cbn. split; [|done]. eapply unify_mono; [done|lia].
  - simplify_eq. exists (S (Nat.max (Nat.max ke kf) m1)), envB.
    destruct (Hk (Nat.max (Nat.max ke kf) m1)) as [Hf He]; [lia|].
    rewrite (unify_step _ _ _ _ _ _ Hf He), Heq2, Vf1, Ve1.
    rewrite orb_comm, Hat.
    rewrite (unify_mono _ (Nat.max (Nat.max ke kf) m1) _ _ _ _ HB) by lia.
    done.
Qed.

(** X8.  Where [unify(a, b)] comes to an end without a [lookup] that is
    cut short, with the boolean [r], there is a depth of the stack from
    which on both [unify(a, b)] and [unify(b, a)] return [r] in that frame;
    the frames they leave may differ. *)
Theorem unify_symmetric_deep n a b env r env1 :
  Deep.unify n a b env = Some (r, env1) →
  ∃ N env2, ∀ m, N ≤ m →
    unify m a b env = Some (r, env1) ∧ unify m b a env = Some (r, env2).
Proof.
  intros H.
  destruct (unify_flip _ _ _ _ _ _ _ (alike_refl env) H)
    as (k & env2 & H2 & _).
  exists (Nat.max n k), env2. intros m Hm.
  split; eapply deep_unify; try done; lia.
Qed.

(** Two variables: either order returns [True], and binds one of them to
    the other. *)
Lemma unify_symmetric_deep_witness :
  ∃ N env2, ∀ m, N ≤ m →
    unify m (Sym "?x") (Sym "?y") (Frame_new None)
    = Some (true, define "?x" (Sym "?y") (Frame_new None))
    ∧ unify m (Sym "?y") (Sym "?x") (Frame_new None) = Some (true, env2).
Proof.
  apply (unify_symmetric_deep 2 (Sym "?x") (Sym "?y") (Frame_new None) true).
  vm_compute. reflexivity.
Defined.

(** [t] after [k] elements [p]. *)
Fixpoint padded (k : nat) (t : term) : term :=
  match k with
  | 0 => t
  | S k' => Pair (Sym "p") (padded k' t)
  end.

Lemma py_eq_padded k t t' : py_eq (padded k t) (padded k t') = py_eq t t'.
Proof. induction k as [|k IH]; [done|]. cbn. by rewrite IH. Qed.

(** [unify] goes through two lists that begin with the same [k] symbols
    in [k] calls. *)
Lemma unify_padded k m a b a' b' env :
  Frame_lookup "p" env = None →
  py_eq (Pair a b) (Pair a' b') = false → 1 ≤ m →
  unify (k + m) (padded k (Pair a b)) (padded k (Pair a' b')) env
  = unify m (Pair a b) (Pair a' b') env.
Proof.
  intros Hp Hne Hm. induction k as [|k IH]; [done|].
  cbn [Nat.add padded]. rewrite unify_S.
  rewrite !(lookup_not_Sym (k + m)) by done. cbn zeta.
  assert (py_eq (Pair (Sym "p") (padded k (Pair a b)))
            (Pair (Sym "p") (padded k (Pair a' b'))) = false) as ->.
  { change (py_eq (padded (S k) (Pair a b)) (padded (S k) (Pair a' b'))
            = false). by rewrite py_eq_padded. }
  cbn [isvar scheme_atomp orb].
  assert (unify (k + m) (Sym "p") (Sym "p") env = Some (true, env)) as ->;
    [|done].
  destruct (k + m) as [|j] eqn:Hj; [lia|].
  rewrite unify_S, (lookup_of_resolved j env (Sym "p")) by done.
  cbn zeta. by rewrite py_eq_refl.
Qed.

(** The two lists [(?x ?x p ... p ?y)] and [(?y a p ... p b)], with [k]
    symbols [p] each. *)
Definition left_list (k : nat) : term :=
  Pair (Sym "?x") (Pair (Sym "?x") (padded k (Pair (Sym "?y") Nil))).

Definition right_list (k : nat) : term :=
  Pair (Sym "?y") (Pair (Sym "a") (padded k (Pair (Sym "b") Nil))).

Lemma unify_pairs n a b a' b' env :
  py_eq (Pair a b) (Pair a' b') = false →
  unify (S n) (Pair a b) (Pair a' b') env
  = '(r, env1) ← unify n a a' env;
    if r : bool then unify n b b' env1 else Some (false, env1).
Proof.
  intros H. rewrite unify_S, !(lookup_not_Sym n) by done. cbn zeta.
  by rewrite H.
Qed.

Lemma unify_binds_left n e f env s u :
  lookup n e env = Sym s → lookup n f env = u →
  isvar (Sym s) = true → py_eq (Sym s) u = false →
  unify (S n) e f env = Some (true, define s u env).
Proof. intros He Hf Hv Hne. rewrite unify_S, He, Hf. cbn zeta. by rewrite Hne, Hv. Qed.

Lemma unify_binds_right n e f env s u :
  lookup n e env = u → lookup n f env = Sym s →
  isvar u = false → isvar (Sym s) = true → py_eq u (Sym s) = false →
  unify (S n) e f env = Some (true, define s u env).
Proof.
  intros He Hf Hu Hv Hne. rewrite unify_S, He, Hf. cbn zeta.
  by rewrite Hne, Hu, Hv.
Qed.

(** C6.  The order of the arguments decides whether [unify] succeeds,
    where a [lookup] is cut short.  With [k + 5] levels of the stack left,
    [unify] on the two lists above returns [False] in the empty frame, and
    [True] with the arguments exchanged.  Both calls bind [?x] and [?y] to
    one another and to [a] on the first two elements, and come to the last
    elements with one level left for [lookup]: from [?y] that is enough to
    reach [a] in one order, and in the other it stops at [?x], which
    [unify] then binds to [b]. *)
Theorem unify_order_matters k :
  unify (k + 5) (left_list k) (right_list k) (Frame_new None)
  = Some (false, define "?y" (Sym "a")
                   (define "?x" (Sym "?y") (Frame_new None)))
  ∧ unify (k + 5) (right_list k) (left_list k) (Frame_new None)
    = Some (true, define "?x" (Sym "b")
                    (define "?x" (Sym "a")
                       (define "?y" (Sym "?x") (Frame_new None)))).
Proof.
  replace (k + 5) with (S (S (S (S (S k))))) by lia.
  unfold left_list, right_list. split.
  - rewrite unify_pairs by done.
    rewrite (unify_binds_left _ _ _ _ "?x" (Sym "?y")) by done.
    cbn [mbind option_bind]. rewrite unify_pairs by done.
    rewrite (unify_binds_left _ _ _ _ "?y" (Sym "a")) by done.
    cbn [mbind option_bind].
    replace (S (S (S k))) with (k + 3) by lia.
    by rewrite unify_padded by first [done|lia].
  - rewrite unify_pairs by done.
    rewrite (unify_binds_left _ _ _ _ "?y" (Sym "?x")) by done.
    cbn [mbind option_bind]. rewrite unify_pairs by done.
    rewrite (unify_binds_right _ _ _ _ "?x" (Sym "a")) by done.
    cbn [mbind option_bind].
    replace (S (S (S k))) with (k + 3) by lia.
    by rewrite unify_padded by first [done|lia].
Qed.

(** *** What [Deep.bind] returns *)

(** [Deep.bind] gives [u] for [t], with some bound. *)
Definition binds (env : Frame) (t u : term) : Prop :=
  ∃ n, Deep.bind n t env = Some u.

Lemma bind_Sym n s env :
  Deep.bind (S n) (Sym s) env
  = match Deep.lookup n (Sym s) env with
    | Some r => if py_eq (Sym s) r then Some (Sym s) else Deep.bind n r env
    | None => None
    end.
Proof.
  cbn [Deep.bind scheme_symbolp]. destruct (Deep.lookup n (Sym s) env) as [r|]; [|done].
  cbn [mbind option_bind]. by destruct (py_eq (Sym s) r).
Qed.

Lemma binds_det env t u u' : binds env t u → binds env t u' → u = u'.
Proof.
  intros [n Hn] [m Hm].
  apply (bind_mono _ (Nat.max n m)) in Hn, Hm; [|lia..]. congruence.
Qed.

Lemma resolves_atom env t u :
  (∀ s, t ≠ Sym s) → resolves env t u → u = t.
Proof.
  intros Ht [[|n] Hn]; [done|]. simpl in Hn.
  destruct t as [| | |s| |]; simplify_eq; try done. by destruct (Ht s).
Qed.

Lemma binds_resolves env t u : binds env t u → ∃ r, resolves env t r.
Proof.
  intros [[|n] Hn]; [done|].
  destruct t as [| | |s| |]; try (eexists; by exists 1).
  rewrite bind_Sym in Hn.
  destruct (Deep.lookup n (Sym s) env) as [r|] eqn:Hr; [|done].
  exists r. by exists n.
Qed.

(** [Deep.bind] goes through [Deep.lookup]. *)
Lemma binds_lookup env t r u :
  resolves env t r → binds env t u ↔ binds env r u.
Proof.
  intros Hr. destruct t as [| | |s| |];
    try (apply resolves_atom in Hr as ->; done).
  split.
  - intros [[|n] Hn]; [done|]. rewrite bind_Sym in Hn.
    destruct (Deep.lookup n (Sym s) env) as [r'|] eqn:Hr'; [|done].
    assert (r' = r) as -> by (eapply resolves_det; [by exists n|done]).
    destruct (py_eq (Sym s) r) eqn:Heq.
    + apply py_eq_Sym_l in Heq as ->. simplify_eq. exists (S n).
      by rewrite bind_Sym, Hr', py_eq_refl.
    + by exists n.
  - intros [m Hm]. destruct Hr as [k Hk].
    destruct (py_eq (Sym s) r) eqn:Heq.
    + apply py_eq_Sym_l in Heq as ->. by exists m.
    + exists (S (Nat.max m k)). rewrite bind_Sym.
      rewrite (lookup_mono _ (Nat.max m k) _ _ _ Hk) by lia.
      rewrite Heq. eapply bind_mono; [done|lia].
Qed.

Lemma binds_pair env a b u :
  binds env (Pair a b) u
  ↔ ∃ a' b', u = Pair a' b' ∧ binds env a a' ∧ binds env b b'.
Proof.
  split.
  - intros [[|n] Hn]; [done|]. simpl in Hn.
    destruct (Deep.bind n a env) as [a'|] eqn:Ha; [|done].
    destruct (Deep.bind n b env) as [b'|] eqn:Hb; [|done].
    simplify_eq/=. exists a', b'. split; [done|]. split; by exists n.
  - intros (a' & b' & -> & [n Hn] & [m Hm]).
    exists (S (Nat.max n m)). simpl.
    rewrite (bind_mono _ (Nat.max n m) _ _ _ Hn) by lia.
    rewrite (bind_mono _ (Nat.max n m) _ _ _ Hm) by lia. done.
Qed.

Lemma binds_atom env t u :
  (∀ s, t ≠ Sym s) → (∀ a b, t ≠ Pair a b) → binds env t u ↔ u = t.
Proof.
  intros Hs Hp. split.
  - intros [[|n] Hn]; [done|]. simpl in Hn.
    destruct t as [| | |s| |a b]; simplify_eq/=; try done.
    + by destruct (Hs s).
    + by destruct (Hp a b).
  - intros ->. exists 1. destruct t as [| | |s| |a b]; try done.
    + by destruct (Hs s).
    + by destruct (Hp a b).
Qed.

Lemma binds_unbound env s u :
  Frame_lookup s env = None → binds env (Sym s) u ↔ u = Sym s.
Proof.
  intros Hs. split.
  - intros [[|[|n]] Hn]; [done..|]. rewrite bind_Sym in Hn.
    cbn [Deep.lookup] in Hn. rewrite Hs, py_eq_refl in Hn. by simplify_eq.
  - intros ->. exists 2. rewrite bind_Sym. cbn [Deep.lookup].
    by rewrite Hs, py_eq_refl.
Qed.

(** *** Frames that extend a frame *)

(** Every symbol that [Frame.lookup] finds in [env], it finds in [env'],
    with the same value. *)
Definition extends (env env' : Frame) : Prop :=
  ∀ s v, Frame_lookup s env = Some v → Frame_lookup s env' = Some v.

Lemma extends_refl env : extends env env.
Proof. by intros s v. Qed.

Lemma extends_trans env1 env2 env3 :
  extends env1 env2 → extends env2 env3 → extends env1 env3.
Proof. intros H1 H2 s v Hs. by apply H2, H1. Qed.

Lemma extends_define env s v :
  Frame_lookup s env = None → extends env (define s v env).
Proof.
  intros Hs s' w Hs'. rewrite Frame_lookup_define, decide_False; [done|].
  intros ->. congruence.
Qed.

Lemma unify_extends n e f env r env' :
  Deep.unify n e f env = Some (r, env') → extends env env'.
Proof.
  revert e f env r env'.
  induction n as [|n IH]; intros e f env r env' H; [done|].
  destruct (Deep.lookup n e env) as [e1|] eqn:He;
    [|by cbn [Deep.unify] in H; rewrite He in H].
  destruct (Deep.lookup n f env) as [f1|] eqn:Hf;
    [|by cbn [Deep.unify] in H; rewrite He, Hf in H].
  rewrite (unify_step _ _ _ _ _ _ He Hf) in H.
  apply lookup_resolved in He, Hf.
  destruct (py_eq e1 f1); [simplify_eq; apply extends_refl|].
  destruct (isvar e1) eqn:Ve.
  { apply isvar_Sym in Ve as [s ->]. simplify_eq. by apply extends_define. }
  destruct (isvar f1) eqn:Vf.
  { apply isvar_Sym in Vf as [s ->]. simplify_eq. by apply extends_define. }
  destruct (scheme_atomp e1 || scheme_atomp f1);
    [simplify_eq; apply extends_refl|].
  destruct e1 as [| | | | |a b]; try done.
  destruct f1 as [| | | | |c d]; try done.
  destruct (Deep.unify n a c env) as [[r1 env1]|] eqn:H1; [|done].
  cbn in H. apply IH in H1.
  destruct r1; [|by simplify_eq].
  apply IH in H. by eapply extends_trans.
Qed.

(** What [Deep.lookup] returns in a frame is on the way of [Deep.lookup] in a frame
    that extends it. *)
Lemma extends_resolves env env' t r r' :
  extends env env' → resolves env t r → resolves env' r r' →
  resolves env' t r'.
Proof.
  intros Hext [n Hn] Hr'. revert t Hn.
  induction n as [|n IH]; intros t Hn; [done|].
  cbn [Deep.lookup] in Hn. destruct t as [| | |s| |]; simplify_eq; try done.
  destruct (Frame_lookup s env) as [w|] eqn:Hs; [|by simplify_eq].
  eapply resolves_step; [by apply Hext|by apply IH].
Qed.

Lemma extends_resolves_inv env env' t r' :
  extends env env' → resolves env' t r' →
  ∃ r, resolves env t r ∧ resolves env' r r'.
Proof.
  intros Hext [n Hn]. revert t Hn.
  induction n as [|n IH]; intros t Hn; [done|].
  assert (∀ t, (∀ s, t ≠ Sym s) → resolves env' t r' →
    ∃ r, resolves env t r ∧ resolves env' r r') as Hatom.
  { intros t' Ht H. exists t'. split; [|done]. exists 1.
    destruct t' as [| | |s| |]; try done. by destruct (Ht s). }
  destruct t as [| | |s| |]; try (apply Hatom; [done|by exists (S n)]).
  destruct (Frame_lookup s env) as [w|] eqn:Hs.
  - cbn [Deep.lookup] in Hn. rewrite (Hext _ _ Hs) in Hn.
    destruct (IH _ Hn) as (r & Hr & Hr'). exists r. split; [|done].
    by eapply resolves_step.
  - exists (Sym s). split; [by apply resolves_self|]. by exists (S n).
Qed.

(** [Deep.bind] in a frame that extends [env] goes through [Deep.bind] in [env]. *)
Lemma binds_extends env env' t u t' :
  extends env env' → binds env t u → binds env' t t' → binds env' u t'.
Proof.
  intros Hext [n Hn]. revert t u t' Hn.
  induction n as [|n IH]; intros t u t' Hn Ht'; [done|].
  destruct t as [| | |s| |a b]; try (cbn in Hn; by simplify_eq).
  - rewrite bind_Sym in Hn.
    destruct (Deep.lookup n (Sym s) env) as [r|] eqn:Hr; [|done].
    destruct (py_eq (Sym s) r) eqn:Heq; [by simplify_eq|].
    destruct (binds_resolves _ _ _ Ht') as [r'' Hr''].
    destruct (extends_resolves_inv _ _ _ _ Hext Hr'') as (r0 & Hr0 & Hr0').
    assert (r0 = r) as -> by (eapply resolves_det; [done|by exists n]).
    apply (IH r); [done|].
    apply (binds_lookup _ _ _ _ Hr0'). by apply (binds_lookup _ _ _ _ Hr'').
  - cbn [Deep.bind scheme_symbolp] in Hn.
    destruct (Deep.bind n a env) as [a1|] eqn:Ha; [|done].
    destruct (Deep.bind n b env) as [b1|] eqn:Hb; [|done].
    cbn in Hn. simplify_eq.
    apply binds_pair in Ht' as (a' & b' & -> & Ha' & Hb').
    apply binds_pair. exists a', b'. split; [done|].
    split; [by apply (IH a)|by apply (IH b)].
Qed.

(** Where [Deep.bind] returns in a frame that extends [env], it returns in
    [env]. *)
Lemma binds_extends_returns env env' t t' :
  extends env env' → binds env' t t' → ∃ u, binds env t u.
Proof.
  intros Hext [n Hn]. revert t t' Hn.
  induction n as [|n IH]; intros t t' Hn; [done|].
  destruct t as [| | |s| |a b];
    try (eexists; by exists 1).
  - rewrite bind_Sym in Hn.
    destruct (Deep.lookup n (Sym s) env') as [r'|] eqn:Hr'; [|done].
    destruct (extends_resolves_inv _ _ _ _ Hext (ex_intro _ n Hr'))
      as (r & Hr & Hrr').
    assert ((∃ x, r = Sym x) ∨ ¬ ∃ x, r = Sym x) as [[x ->]|Hns].
    { destruct r; eauto; right; by intros [? ?]. }
    + exists (Sym x). apply (binds_lookup _ _ _ _ Hr).
      apply binds_unbound; [|done].
      by apply (resolves_resolved _ _ _ Hr).
    + assert (r' = r) as ->.
      { eapply resolves_atom; [|done]. intros x ->. apply Hns. by exists x. }
      destruct (py_eq (Sym s) r) eqn:Heq.
      { apply py_eq_Sym_l in Heq as ->. destruct Hns. by exists s. }
      destruct (IH _ _ Hn) as [u Hu]. exists u.
      by apply (binds_lookup _ _ _ _ Hr).
  - cbn [Deep.bind scheme_symbolp] in Hn.
    destruct (Deep.bind n a env') as [a1|] eqn:Ha; [|done].
    destruct (Deep.bind n b env') as [b1|] eqn:Hb; [|done].
    destruct (IH _ _ Ha) as [a' Ha'], (IH _ _ Hb) as [b' Hb'].
    exists (Pair a' b'). apply binds_pair. by exists a', b'.
Qed.

(** [Deep.bind] takes terms that are equal to terms that are equal. *)
Lemma binds_py_eq env u v u' v' :
  py_eq u v = true → binds env u u' → binds env v v' → py_eq u' v' = true.
Proof.
  revert v u' v'. induction u as [| | |s| |a IHa b IHb];
    intros v u' v' Heq Hu Hv.
  - destruct v; try done;
      apply binds_atom in Hu as ->, Hv as ->; done.
  - destruct v; try done;
      apply binds_atom in Hu as ->, Hv as ->; done.
  - destruct v; try done;
      apply binds_atom in Hu as ->, Hv as ->; done.
  - apply py_eq_Sym_l in Heq as ->.
    rewrite (binds_det _ _ _ _ Hu Hv). apply py_eq_refl.
  - destruct v; try done;
      apply binds_atom in Hu as ->, Hv as ->; done.
  - destruct v as [| | | | |c d]; try done. cbn [py_eq] in Heq.
    apply andb_true_iff in Heq as [Hac Hbd].
    apply binds_pair in Hu as (a' & b' & -> & Ha & Hb).
    apply binds_pair in Hv as (c' & d' & -> & Hc & Hd).
    cbn [py_eq]. by rewrite (IHa _ _ _ Hac Ha Hc), (IHb _ _ _ Hbd Hb Hd).
Qed.

Lemma rebind_eq x v : rebind x v (Sym x) = v.
Proof. unfold rebind. by rewrite decide_True. Qed.

Lemma rebind_ne x v u : u ≠ Sym x → rebind x v u = u.
Proof. intros. unfold rebind. by rewrite decide_False. Qed.

(** [Deep.unify] that returns [True] has made the two terms equal. *)
Lemma unify_binds n e f env env' e' f' :
  Deep.unify n e f env = Some (true, env') →
  binds env' e e' → binds env' f f' → py_eq e' f' = true.
Proof.
  revert e f env env' e' f'.
  induction n as [|n IH]; intros e f env env' e' f' H He' Hf'; [done|].
  destruct (Deep.lookup n e env) as [e1|] eqn:He;
    [|by cbn [Deep.unify] in H; rewrite He in H].
  destruct (Deep.lookup n f env) as [f1|] eqn:Hf;
    [|by cbn [Deep.unify] in H; rewrite He, Hf in H].
  rewrite (unify_step _ _ _ _ _ _ He Hf) in H.
  assert (resolves env e e1) as Re by by exists n.
  assert (resolves env f f1) as Rf by by exists n.
  pose proof (resolves_resolved _ _ _ Re) as Re1.
  pose proof (resolves_resolved _ _ _ Rf) as Rf1.
  destruct (py_eq e1 f1) eqn:Heq.
  { simplify_eq. apply (binds_lookup _ _ _ _ Re) in He'.
    apply (binds_lookup _ _ _ _ Rf) in Hf'. by eapply binds_py_eq. }
  assert (∀ s v t u, Frame_lookup s env = None → resolved env v → v ≠ Sym s →
    resolves env t (Sym s) → resolves env u v →
    ∀ t' u', binds (define s v env) t t' → binds (define s v env) u u' →
    t' = u') as Hvar.
  { intros s v t u Hs Hv Hne Ht Hu t' u' Ht' Hu'.
    apply (resolves_define_1 _ _ _ Hs Hv Hne) in Ht, Hu.
    rewrite rebind_eq in Ht. rewrite rebind_ne in Hu by done.
    apply (binds_lookup _ _ _ _ Ht) in Ht'.
    apply (binds_lookup _ _ _ _ Hu) in Hu'. by eapply binds_det. }
  destruct (isvar e1) eqn:Ve.
  { destruct (isvar_Sym _ Ve) as [s ->]. simplify_eq.
    rewrite (Hvar s f1 e f Re1 Rf1 ltac:(intros ->; by rewrite py_eq_refl in Heq)
               Re Rf _ _ He' Hf').
    apply py_eq_refl. }
  destruct (isvar f1) eqn:Vf.
  { destruct (isvar_Sym _ Vf) as [s ->]. simplify_eq.
    rewrite (Hvar s e1 f e Rf1 Re1 ltac:(intros ->; by rewrite py_eq_refl in Heq)
               Rf Re _ _ Hf' He').
    apply py_eq_refl. }
  destruct (scheme_atomp e1 || scheme_atomp f1); [by simplify_eq|].
  destruct e1 as [| | | | |a b]; try done.
  destruct f1 as [| | | | |c d]; try done.
  destruct (Deep.unify n a c env) as [[r1 env1]|] eqn:H1; [|done].
  cbn in H. destruct r1; [|by simplify_eq].
  pose proof (unify_extends _ _ _ _ _ _ H1) as X1.
  pose proof (unify_extends _ _ _ _ _ _ H) as X2.
  assert (∀ t a b, resolves env t (Pair a b) → resolves env' t (Pair a b))
    as Hpair.
  { intros t x y Ht. eapply (extends_resolves env env'); [|done|].
    - by eapply extends_trans.
    - by exists 1. }
  apply (binds_lookup _ _ _ _ (Hpair _ _ _ Re)) in He'.
  apply (binds_lookup _ _ _ _ (Hpair _ _ _ Rf)) in Hf'.
  apply binds_pair in He' as (a' & b' & -> & Ha' & Hb').
  apply binds_pair in Hf' as (c' & d' & -> & Hc' & Hd').
  cbn [py_eq]. rewrite (IH _ _ _ _ _ _ H Hb' Hd'), andb_true_r.
  destruct (binds_extends_returns _ _ _ _ X2 Ha') as [a1 Ha1].
  destruct (binds_extends_returns _ _ _ _ X2 Hc') as [c1 Hc1].
  pose proof (IH _ _ _ _ _ _ H1 Ha1 Hc1) as Hac.
  eapply (binds_py_eq env'); [exact Hac| |].
  - by eapply binds_extends.
  - by eapply binds_extends.
Qed.

(** X1.  Soundness of [unify].  Where [unify(e, f, env)] returns [True]
    and [bind] then returns for [e] and for [f] in the frame as the call
    has left it, all without a [lookup] that is cut short (the functions
    of [Deep] have these results), the program returns the same, and the
    two terms that [bind] gives are equal. *)
Theorem unify_makes_equal n e f env env' m e' k f' :
  Deep.unify n e f env = Some (true, env') →
  Deep.bind m e env' = Some e' →
  Deep.bind k f env' = Some f' →
  unify n e f env = Some (true, env')
  ∧ bind m e env' = Some e'
  ∧ bind k f env' = Some f'
  ∧ py_eq e' f' = true.
Proof.
  intros H He Hf.
  split; [by apply (deep_unify n)|]. split; [by apply (deep_bind m)|].
  split; [by apply (deep_bind k)|].
  eapply unify_binds; [done|by exists m|by exists k].
Qed.

(** [(p ?x b)] and [(p a ?y)] *)
Lemma unify_makes_equal_witness :
  unify 6 (slist [Sym "p"; Sym "?x"; Sym "b"])
    (slist [Sym "p"; Sym "a"; Sym "?y"]) (Frame_new None)
  = Some (true,
          define "?y" (Sym "b") (define "?x" (Sym "a") (Frame_new None)))
  ∧ bind 8 (slist [Sym "p"; Sym "?x"; Sym "b"])
      (define "?y" (Sym "b") (define "?x" (Sym "a") (Frame_new None)))
    = Some (slist [Sym "p"; Sym "a"; Sym "b"])
  ∧ bind 8 (slist [Sym "p"; Sym "a"; Sym "?y"])
      (define "?y" (Sym "b") (define "?x" (Sym "a") (Frame_new None)))
    = Some (slist [Sym "p"; Sym "a"; Sym "b"])
  ∧ py_eq (slist [Sym "p"; Sym "a"; Sym "b"])
      (slist [Sym "p"; Sym "a"; Sym "b"]) = true.
Proof.
  apply (unify_makes_equal 6
           (slist [Sym "p"; Sym "?x"; Sym "b"])
           (slist [Sym "p"; Sym "a"; Sym "?y"])
           (Frame_new None)
           (define "?y" (Sym "b") (define "?x" (Sym "a") (Frame_new None)))
           8 _ 8 _).
  - vm_compute. reflexivity.
  - vm_compute. reflexivity.
  - vm_compute. reflexivity.
Defined.



(** X3.  [bind] substitutes fully where no [lookup] is cut short
    ([Deep.bind] has a result): [bind] returns that result, no symbol
    that occurs in it is bound in a frame of the chain, and [bind] on it
    returns it as it is. *)
Theorem bind_fully_substituted n expr env u :
  Deep.bind n expr env = Some u →
  bind n expr env = Some u
  ∧ (∀ s, occurs (Sym s) u = true → Frame_lookup s env = None)
  ∧ ∃ m, bind m u env = Some u.
Proof.
  intros H. split; [by apply (deep_bind n)|].
  assert ((∀ s, occurs (Sym s) u = true → Frame_lookup s env = None)
          ∧ ∃ m, Deep.bind m u env = Some u) as [Ho [m Hm]].
  { clear -H. revert expr u H.
    induction n as [|n IH]; intros expr u H; [done|].
    destruct expr as [| | |s| |a b];
      try (cbn in H; simplify_eq; split; [|by exists 1];
           intros x Hx; cbn in Hx; rewrite orb_false_r in Hx;
           by apply bool_decide_eq_true in Hx).
    - rewrite bind_Sym in H.
      destruct (Deep.lookup n (Sym s) env) as [r|] eqn:Hr; [|done].
      destruct (py_eq (Sym s) r) eqn:Heq; [|by eapply IH].
      apply py_eq_Sym_l in Heq as ->. simplify_eq.
      apply lookup_resolved in Hr. split.
      + intros x Hx. cbn in Hx. rewrite orb_false_r in Hx.
        apply bool_decide_eq_true in Hx. by simplify_eq.
      + by apply binds_unbound.
    - cbn [Deep.bind scheme_symbolp] in H.
      destruct (Deep.bind n a env) as [a1|] eqn:Ha; [|done].
      destruct (Deep.bind n b env) as [b1|] eqn:Hb; [|done].
      cbn in H. simplify_eq.
      destruct (IH _ _ Ha) as [Oa Ba], (IH _ _ Hb) as [Ob Bb]. split.
      + intros x Hx. cbn [occurs] in Hx.
        rewrite bool_decide_false in Hx by done. cbn [orb] in Hx.
        apply orb_true_iff in Hx as [Hx|Hx]; [by apply Oa|by apply Ob].
      + apply binds_pair. by exists a1, b1. }
  split; [done|]. exists m. by apply (deep_bind m).
Qed.

Lemma bind_fully_substituted_witness :
  bind 6 (Sym "?x")
    (mkFrame {["?x" := slist [Sym "f"; Sym "?y"]; "?y" := Sym "b"]} None)
  = Some (slist [Sym "f"; Sym "b"])
  ∧ (∀ s, occurs (Sym s) (slist [Sym "f"; Sym "b"]) = true →
       Frame_lookup s
         (mkFrame {["?x" := slist [Sym "f"; Sym "?y"]; "?y" := Sym "b"]} None)
       = None)
  ∧ ∃ m, bind m (slist [Sym "f"; Sym "b"])
           (mkFrame {["?x" := slist [Sym "f"; Sym "?y"]; "?y" := Sym "b"]} None)
         = Some (slist [Sym "f"; Sym "b"]).
Proof.
  apply (bind_fully_substituted 6 (Sym "?x")). vm_compute. reflexivity.
Defined.

(** *** The variables of a term *)

(** The step of the loop of [get_vars]. *)
Definition add_var (vs : list term) (v : term) : list term :=
  if py_in v vs then vs else vs ++ [v].

Lemma py_in_var v vs : isvar v = true → py_in v vs = true ↔ v ∈ vs.
Proof.
  intros [s ->]%isvar_Sym. unfold py_in. rewrite existsb_exists. split.
  - intros (w & Hw & ->%py_eq_Sym_l). by apply list_elem_of_In.
  - intros Hin. exists (Sym s). split; [by apply list_elem_of_In|].
    apply py_eq_refl.
Qed.

Lemma add_vars_elem v vs ws :
  Forall (λ w, isvar w = true) ws →
  v ∈ foldl add_var vs ws ↔ v ∈ vs ∨ v ∈ ws.
Proof.
  intros Hws. revert vs. induction Hws as [|w ws Hw _ IH]; intros vs.
  - simpl. rewrite elem_of_nil. tauto.
  - simpl. rewrite IH, elem_of_cons. unfold add_var.
    destruct (py_in w vs) eqn:Hin.
    + apply (py_in_var _ _ Hw) in Hin. split; [tauto|].
      intros [?|[->|?]]; tauto.
    + rewrite elem_of_app, list_elem_of_singleton. tauto.
Qed.

Lemma add_vars_NoDup vs ws :
  Forall (λ w, isvar w = true) ws → NoDup vs → NoDup (foldl add_var vs ws).
Proof.
  intros Hws. revert vs. induction Hws as [|w ws Hw _ IH]; intros vs Hvs;
    [done|].
  simpl. apply IH. unfold add_var.
  destruct (py_in w vs) eqn:Hin; [done|].
  apply NoDup_app. split; [done|]. split; [|apply NoDup_singleton].
  intros x Hx ->%list_elem_of_singleton.
  apply (py_in_var _ _ Hw) in Hx. congruence.
Qed.

Lemma get_vars_Pair a b :
  get_vars (Pair a b) = foldl add_var (get_vars a) (get_vars b).
Proof. reflexivity. Qed.

Lemma get_vars_isvar expr : Forall (λ v, isvar v = true) (get_vars expr).
Proof.
  induction expr as [| | |s| |a IHa b IHb]; try by constructor.
  - cbn. destruct (startswith_qmark s) eqn:Hs; [|by constructor].
    by repeat constructor.
  - rewrite get_vars_Pair. apply Forall_forall. intros v Hv.
    apply add_vars_elem in Hv as [Hv|Hv]; [| |done].
    + by eapply Forall_forall in IHa.
    + by eapply Forall_forall in IHb.
Qed.

(** X4.  [get_vars] lists the variables that occur in a term, and each of
    them once. *)
Theorem get_vars_variables expr :
  NoDup (get_vars expr)
  ∧ ∀ v, v ∈ get_vars expr ↔ isvar v = true ∧ occurs v expr = true.
Proof.
  induction expr as [| | |s| |a [Na Ea] b [Nb Eb]].
  1-3, 5: split; [apply NoDup_nil_2|]; intros v; cbn;
    rewrite elem_of_nil, orb_false_r, bool_decide_eq_true;
    split; [done|]; by intros [Hv <-].
  - cbn. destruct (startswith_qmark s) eqn:Hs.
    + split; [apply NoDup_singleton|]. intros v.
      rewrite list_elem_of_singleton, orb_false_r, bool_decide_eq_true.
      split; [by intros ->|]. by intros [_ <-].
    + split; [apply NoDup_nil_2|]. intros v.
      rewrite elem_of_nil, orb_false_r, bool_decide_eq_true.
      split; [done|]. intros [Hv <-]. cbn in Hv. congruence.
  - rewrite get_vars_Pair. split.
    + apply add_vars_NoDup; [apply get_vars_isvar|done].
    + intros v. rewrite add_vars_elem by apply get_vars_isvar.
      rewrite Ea, Eb. cbn [occurs].
      destruct (isvar v) eqn:Hv.
      * rewrite bool_decide_false by (intros <-; done). cbn [orb].
        rewrite orb_true_iff. tauto.
      * split; [intros [[? _]|[? _]]; done|by intros [? _]].
Qed.

(** *** Relabelling *)

Lemma string_app_length (s t : string) :
  String.length (s +:+ t) = String.length s + String.length t.
Proof. induction s as [|c s IH]; simpl; [done|]. by rewrite IH. Qed.

Lemma string_app_inj_l (s1 s2 t : string) : s1 +:+ t = s2 +:+ t → s1 = s2.
Proof.
  revert s2. induction s1 as [|c1 s1 IH]; intros [|c2 s2] H; simpl in H.
  - done.
  - apply (f_equal String.length) in H.
    rewrite !string_app_length in H. simpl in H. lia.
  - apply (f_equal String.length) in H.
    rewrite !string_app_length in H. simpl in H. lia.
  - simplify_eq. f_equal. by apply IH.
Qed.

Lemma label_var n v :
  isvar v = true → ∃ s, v = Sym s ∧ label v n = Sym (s +:+ "_" +:+ str n).
Proof.
  intros Hv. destruct (isvar_Sym _ Hv) as [s ->]. exists s. split; [done|].
  cbn in *. by rewrite Hv.
Qed.

Lemma isvar_label_var n v : isvar v = true → isvar (label v n) = true.
Proof.
  intros Hv. destruct (label_var n _ Hv) as (s & -> & ->).
  cbn in *. by apply startswith_qmark_app.
Qed.

Lemma label_var_inj n v w :
  isvar v = true → isvar w = true → label v n = label w n → v = w.
Proof.
  intros Hv Hw H.
  destruct (label_var n _ Hv) as (s & -> & Hs).
  destruct (label_var n _ Hw) as (t & -> & Ht).
  rewrite Hs, Ht in H. simplify_eq. f_equal. by eapply string_app_inj_l.
Qed.

Lemma py_in_label n v vs :
  isvar v = true → Forall (λ w, isvar w = true) vs →
  py_in (label v n) ((λ w, label w n) <$> vs) = py_in v vs.
Proof.
  intros Hv Hvs. apply eq_true_iff_eq.
  rewrite !py_in_var by auto using isvar_label_var.
  rewrite list_elem_of_fmap. split.
  - intros (w & Hw & Hin).
    eapply Forall_forall in Hvs as Hwv; [|done].
    by rewrite (label_var_inj _ _ _ Hv Hwv Hw).
  - intros Hin. by exists v.
Qed.

Lemma add_vars_isvar vs ws :
  Forall (λ w, isvar w = true) vs → Forall (λ w, isvar w = true) ws →
  Forall (λ w, isvar w = true) (foldl add_var vs ws).
Proof.
  intros Hvs Hws. apply Forall_forall. intros v Hv.
  apply add_vars_elem in Hv as [Hv|Hv]; [| |done].
  - by eapply Forall_forall in Hvs.
  - by eapply Forall_forall in Hws.
Qed.

Lemma add_vars_label n vs ws :
  Forall (λ w, isvar w = true) vs → Forall (λ w, isvar w = true) ws →
  foldl add_var ((λ w, label w n) <$> vs) ((λ w, label w n) <$> ws)
  = (λ w, label w n) <$> foldl add_var vs ws.
Proof.
  intros Hvs Hws. revert vs Hvs.
  induction Hws as [|w ws Hw Hws IH]; intros vs Hvs; [done|].
  cbn [fmap list_fmap foldl].
  assert (add_var ((λ w, label w n) <$> vs) (label w n)
          = (λ w, label w n) <$> add_var vs w) as ->.
  { unfold add_var. rewrite py_in_label by done.
    destruct (py_in w vs); [done|]. by rewrite fmap_app. }
  apply IH. apply (add_vars_isvar vs [w]); [done|by constructor].
Qed.

(** X5.  [label] renames the variables of a term one to one: the variables
    of the relabelled term are the relabelled variables of the term, in
    the same order. *)
Theorem get_vars_of_label expr n :
  get_vars (label expr n) = (λ v, label v n) <$> get_vars expr.
Proof.
  induction expr as [| | |s| |a IHa b IHb]; try done.
  - cbn. destruct (startswith_qmark s) eqn:Hs; cbn.
    + by rewrite (startswith_qmark_app _ _ Hs), Hs.
    + by rewrite Hs.
  - change (label (Pair a b) n) with (Pair (label a n) (label b n)).
    rewrite !get_vars_Pair, IHa, IHb.
    apply add_vars_label; apply get_vars_isvar.
Qed.

Lemma add_vars_nil vs ws : foldl add_var vs ws = [] → vs = [] ∧ ws = [].
Proof.
  revert vs. induction ws as [|w ws IH]; intros vs H; [done|].
  simpl in H. apply IH in H as [H _]. unfold add_var in H.
  destruct (py_in w vs) eqn:Hin.
  - subst vs. done.
  - by destruct vs.
Qed.

(** [label] leaves a term without variables as it is. *)
Lemma label_ground expr n : get_vars expr = [] → label expr n = expr.
Proof.
  induction expr as [| | |s| |a IHa b IHb]; try done.
  - cbn. by destruct (startswith_qmark s).
  - rewrite get_vars_Pair. intros [Ha Hb]%add_vars_nil.
    change (label (Pair a b) n) with (Pair (label a n) (label b n)).
    by rewrite IHa, IHb.
Qed.


(** *** The search *)

Lemma for_each_ext {A} (xs : list A) (b1 b2 : A → M unit) st :
  (∀ x st, b1 x st = b2 x st) → for_each xs b1 st = for_each xs b2 st.
Proof.
  intros Hb. revert st. induction xs as [|x xs IH]; intros st; [done|].
  simpl. unfold mbind, M_bind, bnd. rewrite Hb.
  destruct (b2 x st) as [[[] st1]| |]; [apply IH|done..].
Qed.

(** A search depends on its consumer only through what the consumer does on
    the frames with the property [P], when the search starts from such a
    frame and [P] goes from a frame to the frames that [unify] makes of its
    children. *)
Lemma query_ext (P : Frame → Prop) n facts clauses env depth y1 y2 st :
  (∀ env k e f r env', P env →
     unify k e f (Frame_new (Some env)) = Some (r, env') → P env') →
  (∀ env st, P env → y1 env st = y2 env st) →
  P env →
  query n facts clauses env depth y1 st
  = query n facts clauses env depth y2 st.
Proof.
  intros HP. revert clauses env depth y1 y2 st.
  induction n as [|n IH]; intros clauses env depth y1 y2 st Hy Henv; [done|].
  cbn [query]. destruct (is_nil clauses); [by apply Hy|].
  destruct (match DEPTH_LIMIT with
            | Some limit => depth <=? limit | None => true end); [|done].
  apply for_each_ext. intros fact st0.
  unfold mbind, M_bind, bnd.
  destruct (get_unique_id st0) as [[i st1]| |]; [|done..].
  destruct (first (label fact i) st1) as [[hd st2]| |]; [|done..].
  destruct (first clauses st2) as [[goal st3]| |]; [|done..].
  destruct (need (unify n hd goal (Frame_new (Some env))) st3)
    as [[[u eh] st4]| |] eqn:Hu; [|done..].
  destruct u; [|done].
  destruct (second (label fact i) st4) as [[hy st5]| |]; [|done..].
  assert (P eh) as Heh.
  { unfold need in Hu. destruct (unify n hd goal _) as [[u' eh']|] eqn:Hu';
      [|done]. unfold ret in Hu. simplify_eq. by eapply HP. }
  apply IH; [|done]. intros env1 st6 Henv1.
  destruct (second clauses st6) as [[rest st7]| |]; [|done..].
  by apply IH.
Qed.

(** What has been yielded keeps a property that the consumer keeps. *)
Lemma for_each_keeps {A} (Q : list (list (term * term)) → Prop)
    (xs : list A) (body : A → M unit) st st' :
  (∀ x st st', Q (yielded st) → body x st = Ok (tt, st') → Q (yielded st')) →
  Q (yielded st) →
  for_each xs body st = Ok (tt, st') → Q (yielded st').
Proof.
  intros Hb. revert st. induction xs as [|x xs IH]; intros st HQ H; simpl in H.
  - unfold ret in H. by simplify_eq.
  - unfold mbind, M_bind, bnd in H.
    destruct (body x st) as [[[] st1]| |] eqn:H1; [|done..].
    eapply IH; [|done]. by eapply Hb.
Qed.

Lemma query_keeps (Q : list (list (term * term)) → Prop)
    n facts clauses env depth yield st st' :
  (∀ env st st', Q (yielded st) → yield env st = Ok (tt, st') →
     Q (yielded st')) →
  Q (yielded st) →
  query n facts clauses env depth yield st = Ok (tt, st') →
  Q (yielded st').
Proof.
  revert clauses env depth yield st st'.
  induction n as [|n IH]; intros clauses env depth yield st st' Hy HQ H;
    [done|].
  simpl in H. destruct (is_nil clauses); [by eapply Hy|].
  destruct (depth <=? 20); [|unfold ret in H; by simplify_eq].
  revert HQ H. apply for_each_keeps. intros fact st0 st0' HQ.
  unfold mbind, M_bind, bnd, get_unique_id.
  destruct (first (label _ _) _) as [[hd st1]| |] eqn:E1; [|done..].
  destruct (first clauses st1) as [[goal st2]| |] eqn:E2; [|done..].
  assert (yielded st2 = yielded st0) as Heq.
  { unfold first, ret, raise in E1, E2.
    repeat case_match; by simplify_eq. }
  unfold need. destruct (unify n _ _ _) as [[u eh]|]; [|done].
  unfold ret at 1.
  destruct u; [|unfold ret; intros; simplify_eq; by rewrite Heq].
  destruct (second _ _) as [[hy st3]| |] eqn:E3; [|done..].
  assert (st3 = st2) as ->.
  { unfold second, ret, raise in E3. by repeat case_match; simplify_eq. }
  apply IH; [|by rewrite Heq].
  intros env1 st4 st4' HQ4.
  destruct (second clauses st4) as [[rest st5]| |] eqn:E4; [|done..].
  assert (st5 = st4) as ->.
  { unfold second, ret, raise in E4. by repeat case_match; simplify_eq. }
  by apply IH.
Qed.

(** Every clause of a query is taken up one level deeper than the clause
    before it: with more clauses than there are levels left, the search
    never comes to its consumer. *)
Lemma query_too_long n facts cs env depth y1 y2 st :
  cs ≠ [] → 21 < depth + List.length cs →
  query n facts (slist cs) env depth y1 st
  = query n facts (slist cs) env depth y2 st.
Proof.
  revert cs env depth st.
  induction n as [|n IH]; intros cs env depth st Hcs Hlen; [done|].
  destruct cs as [|c cs]; [done|].
  cbn [query slist is_nil DEPTH_LIMIT].
  destruct (depth <=? 20) eqn:Hd; [|done].
  apply Nat.leb_le in Hd.
  apply for_each_ext. intros fact st0.
  unfold mbind, M_bind, bnd.
  destruct (get_unique_id st0) as [[i st1]| |]; [|done..].
  destruct (first (label fact i) st1) as [[hd st2]| |]; [|done..].
  destruct (first (Pair c (slist cs)) st2) as [[goal st3]| |]; [|done..].
  destruct (need (unify n hd goal (Frame_new (Some env))) st3)
    as [[[u eh] st4]| |]; [|done..].
  destruct u; [|done].
  destruct (second (label fact i) st4) as [[hy st5]| |]; [|done..].
  apply (query_ext (λ _, True)); [done| |done].
  intros env1 st6 _. cbn [second]. unfold ret.
  apply IH.
  - intros ->. simpl in Hlen. lia.
  - simpl in Hlen. lia.
Qed.

(** X7.  A query of more than 21 clauses has no answer, whatever the facts:
    the clause after the depth limit is never taken up. *)
Theorem long_query_no_answer n facts cs id r :
  21 < List.length cs →
  answers n facts (slist cs) id = Ok r →
  r = [].
Proof.
  intros Hlen. unfold answers, do_query.
  rewrite (query_too_long _ _ _ _ _ _ (λ _, ret tt)) by first [lia | intros ->; simpl in Hlen; lia].
  destruct (query n _ _ _ _ _ _) as [[[] st]| |] eqn:Hq; [|done..].
  apply (query_keeps (λ ys, ys = [])) in Hq;
    [|by intros ??? ? [= <-]|done].
  intros [= <-]. done.
Qed.

(** The fact [(p)], and the query of 22 clauses [(p)]. *)
Lemma long_query_no_answer_witness :
  answers 30 [slist [slist [Sym "p"]]]
    (slist (replicate 22 (slist [Sym "p"]))) 0 = Ok []
  ∧ @nil (list (term * term)) = [].
Proof.
  split; [vm_compute; reflexivity|].
  apply (long_query_no_answer 30 [slist [slist [Sym "p"]]]
           (replicate 22 (slist [Sym "p"])) 0).
  - simpl. lia.
  - vm_compute. reflexivity.
Defined.

(** The bound is sharp: a query of 21 clauses can have an answer. *)
Example query_of_21_clauses :
  answers 30 [slist [slist [Sym "p"]]]
    (slist (replicate 21 (slist [Sym "p"]))) 0 = Ok [[]].
Proof. vm_compute. reflexivity. Qed.

(** *** Facts and queries at the prompt *)

Section process_input_theory.
Context {E : Type}.
Context (scheme_load : term → E → world → result input_exn world).

Lemma do_query_ground_fact n fact id :
  get_vars fact = [] →
  do_query (S (S (S n))) [slist [fact]] (slist [fact]) (mkSession id [])
  = Ok (tt, mkSession (S id) [[]]).
Proof.
  intros Hg.
  assert (get_vars (slist [fact]) = []) as Hg1.
  { cbn [slist]. rewrite get_vars_Pair. by rewrite Hg. }
  unfold do_query. rewrite Hg1.
  cbn [query slist is_nil DEPTH_LIMIT Nat.leb for_each].
  unfold mbind at 1, M_bind at 1, bnd at 1.
  unfold mbind at 1, M_bind at 1, bnd at 1. cbn [get_unique_id].
  change (Pair fact Nil) with (slist [fact]).
  rewrite (label_ground _ _ Hg1). cbn [slist first].
  unfold mbind at 1, M_bind at 1, bnd at 1. cbn [ret].
  unfold mbind at 1, M_bind at 1, bnd at 1. cbn [ret].
  rewrite unify_S. cbn zeta. by rewrite py_eq_refl.
Qed.

(** X9.  A fact without variables, asserted when there is no fact yet, is
    found by the query that repeats it: [process_input] prints "Success!"
    and the line of an answer that binds nothing, and the fact is the one
    fact of the module. *)
Theorem fact_then_query n m fact env w :
  get_vars fact = [] → facts w = [] →
  let w1 := mkWorld [slist [fact]] (counter w) (printed w) in
  process_input scheme_load n (slist [Sym "fact"; fact]) env w = Ok w1
  ∧ process_input scheme_load (S (S (S m))) (slist [Sym "query"; fact]) env w1
    = Ok (mkWorld [slist [fact]] (S (counter w))
            (printed w ++ [Success; Answer []])).
Proof.
  intros Hg Hw w1. split.
  - unfold process_input. cbn. by rewrite Hw.
  - unfold process_input.
    cbn [slist scheme_listp negb is_str facts counter printed w1].
    replace (bool_decide ("query" = "fact") || bool_decide ("query" = "!"))
      with false by done.
    replace (bool_decide ("query" = "query") || bool_decide ("query" = "?"))
      with true by done.
    change (Pair fact Nil) with (slist [fact]).
    by rewrite do_query_ground_fact.
Qed.

End process_input_theory.

Lemma fact_then_query_witness :
  let fact := slist [Sym "parent"; Sym "abe"; Sym "homer"] in
  let load := λ (_ : term) (_ : unit) (w : world), Ok w in
  let w1 := mkWorld [slist [fact]] 0 [] in
  process_input load 0 (slist [Sym "fact"; fact]) tt (mkWorld [] 0 [])
    = Ok w1
  ∧ process_input load 3 (slist [Sym "query"; fact]) tt w1
    = Ok (mkWorld [slist [fact]] 1 ([] ++ [Success; Answer []])).
Proof.
  apply (fact_then_query (λ _ _ w, Ok w) 0 0
           (slist [Sym "parent"; Sym "abe"; Sym "homer"]) tt
           (mkWorld [] 0 [])); reflexivity.
Defined.

End LogicTheory.

(** ** Properties of the interpreter *)

Module SchemeTheory.
Import Scheme.

Section interpreter.
Context {Prim : Type}.
Context (call : Prim → list (value Prim) → option Frame → M Prim (value Prim)).

#[local] Abbreviation scheme_eval := (scheme_eval call).
#[local] Abbreviation scheme_optimized_eval := (scheme_optimized_eval call).

(** Decide the tests [x == "name"] on a symbol that is known. *)
Ltac compute_is_str :=
  repeat match goal with
  | |- context [@is_str ?P ?a (Sym ?b)] =>
      let v := eval vm_compute in (@is_str P a (Sym b)) in
      change (@is_str P a (Sym b)) with v
  end;
  cbv iota.

Lemma scheme_eval_S n expr env :
  scheme_eval (S n) expr env = eval_body call (scheme_eval n) expr env.
Proof. reflexivity. Qed.

Lemma scheme_optimized_eval_S n expr env :
  scheme_optimized_eval (S n) expr env
  = optimized_eval_body call (scheme_optimized_eval n)
      (scheme_optimized_eval n) expr env.
Proof. reflexivity. Qed.

(** *** Sequencing *)

Lemma bind_ok {A B} (m : M Prim A) (k : A → M Prim B) h a h' :
  m h = (Ok a, h') → (m ≫= k) h = k a h'.
Proof. intros H. unfold mbind, M_bind, bnd. by rewrite H. Qed.

Lemma bind_raise {A B} (m : M Prim A) (k : A → M Prim B) h e h' :
  m h = (Raise e, h') → (m ≫= k) h = (Raise e, h').
Proof. intros H. unfold mbind, M_bind, bnd. by rewrite H. Qed.

Lemma bind_ret {A B} (a : A) (k : A → M Prim B) h : (ret a ≫= k) h = k a h.
Proof. reflexivity. Qed.

Lemma bind_assoc {A B C} (m : M Prim A) (f : A → M Prim B)
    (g : B → M Prim C) h :
  ((m ≫= f) ≫= g) h = (m ≫= λ a, f a ≫= g) h.
Proof. unfold mbind, M_bind, bnd. by destruct (m h) as [[]]. Qed.

Lemma bind_cong_l {A B} (m1 m2 : M Prim A) (k : A → M Prim B) h :
  m1 h = m2 h → (m1 ≫= k) h = (m2 ≫= k) h.
Proof. intros H. unfold mbind, M_bind, bnd. by rewrite H. Qed.

Lemma bind_cong {A B} (m1 m2 : M Prim A) (k1 k2 : A → M Prim B) h :
  m1 h = m2 h → (∀ a h', k1 a h' = k2 a h') →
  (m1 ≫= k1) h = (m2 ≫= k2) h.
Proof.
  intros H Hk. unfold mbind, M_bind, bnd. rewrite H.
  by destruct (m2 h) as [[]].
Qed.

Lemma bind_ext_ok {A B} (m : M Prim A) (k1 k2 : A → M Prim B) h :
  (∀ a h', m h = (Ok a, h') → k1 a h' = k2 a h') →
  (m ≫= k1) h = (m ≫= k2) h.
Proof.
  intros Hk. unfold mbind, M_bind, bnd.
  destruct (m h) as [[]]; auto.
Qed.

(** *** The two evaluators agree *)

(** The special forms do the same with two evaluators that do the same. *)
Section same_evaluator.
Context (ev1 ev2 : value Prim → Frame → M Prim (value Prim)).
Hypothesis ev_same : ∀ e env h, ev1 e env h = ev2 e env h.

Ltac same_step :=
  first
    [ reflexivity
    | apply ev_same
    | apply bind_cong; [|intros]
    | match goal with
      | |- (if ?b then _ else _) _ = _ => destruct b
      | |- (match ?v with _ => _ end) _ = _ => destruct v
      | |- (let (_, _) := ?v in _) _ = _ => destruct v
      end ].

Lemma for_each_same {A} (xs : list A) (b1 b2 : A → M Prim ()) h :
  (∀ x h, b1 x h = b2 x h) → for_each xs b1 h = for_each xs b2 h.
Proof.
  intros Hb. revert h. induction xs as [|x xs IH]; intros h; [done|].
  cbn [for_each]. apply bind_cong; [apply Hb|]. intros. apply IH.
Qed.

Lemma do_define_form_same vals env h :
  do_define_form ev1 vals env h = do_define_form ev2 vals env h.
Proof. unfold do_define_form. repeat same_step. Qed.

Lemma let_bindings_same bindings names values env h :
  let_bindings ev1 bindings names values env h
  = let_bindings ev2 bindings names values env h.
Proof.
  revert names values h.
  induction bindings as [| | | | | |k _ rest IH| | |]; intros names values h;
    try done.
  cbn [let_bindings]. repeat first [apply IH | same_step].
Qed.

Lemma do_let_form_same vals env h :
  do_let_form ev1 vals env h = do_let_form ev2 vals env h.
Proof.
  unfold do_let_form.
  repeat first
    [ apply let_bindings_same
    | apply for_each_same; intros
    | same_step ].
Qed.

Lemma do_if_form_same vals env h :
  do_if_form ev1 vals env h = do_if_form ev2 vals env h.
Proof. unfold do_if_form. repeat same_step. Qed.

Lemma and_loop_same vals env h :
  and_loop ev1 vals env h = and_loop ev2 vals env h.
Proof.
  revert h. induction vals as [| | | | | |a _ rest IH| | |]; intros h;
    try done.
  cbn [and_loop]. repeat first [apply IH | same_step].
Qed.

Lemma do_and_form_same vals env h :
  do_and_form ev1 vals env h = do_and_form ev2 vals env h.
Proof. unfold do_and_form. repeat first [apply and_loop_same | same_step]. Qed.

Lemma or_loop_same vals env h :
  or_loop ev1 vals env h = or_loop ev2 vals env h.
Proof.
  revert h. induction vals as [| | | | | |a _ rest IH| | |]; intros h;
    try done.
  cbn [or_loop]. repeat first [apply IH | same_step].
Qed.

Lemma do_or_form_same vals env h :
  do_or_form ev1 vals env h = do_or_form ev2 vals env h.
Proof. unfold do_or_form. repeat first [apply or_loop_same | same_step]. Qed.

Lemma cond_clause_same num_clauses i clause env h :
  cond_clause ev1 num_clauses i clause env h
  = cond_clause ev2 num_clauses i clause env h.
Proof. unfold cond_clause. repeat same_step. Qed.

Lemma cond_loop_same vals num_clauses indices env h :
  cond_loop ev1 vals num_clauses indices env h
  = cond_loop ev2 vals num_clauses indices env h.
Proof.
  revert h. induction indices as [|i indices IH]; intros h; [done|].
  cbn [cond_loop].
  repeat first [apply IH | apply cond_clause_same | same_step].
Qed.

Lemma do_cond_form_same vals env h :
  do_cond_form ev1 vals env h = do_cond_form ev2 vals env h.
Proof. unfold do_cond_form. repeat first [apply cond_loop_same | same_step]. Qed.

Lemma do_begin_form_same vals env h :
  do_begin_form ev1 vals env h = do_begin_form ev2 vals env h.
Proof.
  revert h. induction vals as [| | | | | |a _ rest IH| | |]; intros h;
    try done.
  cbn [do_begin_form]. repeat first [apply IH | same_step].
Qed.

Lemma map_eval_same rest env h :
  map_eval ev1 rest env h = map_eval ev2 rest env h.
Proof.
  revert h. induction rest as [| | | | | |a _ rest IH| | |]; intros h;
    try done.
  cbn [map_eval]. repeat first [apply IH | same_step].
Qed.

Lemma LOGIC_FORMS_same name :
  match LOGIC_FORMS ev1 name, LOGIC_FORMS ev2 name with
  | Some form1, Some form2 =>
      ∀ rest env h, form1 rest env h = form2 rest env h
  | None, None => True
  | _, _ => False
  end.
Proof.
  unfold LOGIC_FORMS.
  repeat match goal with
  | |- context [if ?b then _ else _] => destruct b
  end;
  auto using do_and_form_same, do_or_form_same, do_if_form_same,
    do_cond_form_same, do_begin_form_same.
Qed.

(** One turn of the trampoline is one call of the recursive evaluator. *)
Lemma eval_body_same expr env h :
  eval_body call ev1 expr env h
  = optimized_eval_body call ev2 ev2 expr env h.
Proof.
  unfold eval_body, optimized_eval_body, scheme_apply.
  destruct expr; try done;
    (destruct (scheme_atomp _); [done|]);
    (destruct (negb _); [done|]);
    (apply bind_cong; [done|]; intros first h1);
    (apply bind_cong; [done|]; intros rest h2);
    (pose proof (LOGIC_FORMS_same first) as Hforms;
     destruct (LOGIC_FORMS ev1 first), (LOGIC_FORMS ev2 first); try done;
     [apply bind_cong; [apply Hforms|intros; apply ev_same]|]);
    repeat first
      [ apply do_define_form_same
      | apply do_let_form_same
      | apply map_eval_same
      | same_step ].
Qed.

End same_evaluator.

(** *** Scheme lists *)

Lemma list_length_slist (l : list (value Prim)) :
  list_length (slist l) = Some (List.length l).
Proof. induction l as [|x l IH]; simpl; [done|]. by rewrite IH. Qed.

Lemma len_slist (l : list (value Prim)) h :
  len (slist l) h = (Ok (List.length l), h).
Proof.
  unfold len. pose proof (list_length_slist l) as H.
  destruct l; simpl in *; [done|].
  by destruct (list_length (slist l)); simplify_eq/=.
Qed.

Lemma scheme_listp_slist (l : list (value Prim)) :
  scheme_listp (slist l) = true.
Proof. by induction l. Qed.

Lemma getitem_slist (l : list (value Prim)) i x h :
  l !! i = Some x → getitem (slist l) i h = (Ok x, h).
Proof.
  revert i. induction l as [|y l IH]; intros i H; [done|].
  destruct i as [|i]; simpl in *; [by simplify_eq|].
  destruct l as [|z l]; [done|]. simpl. by apply (IH i).
Qed.

(** *** [cond] without a clause that holds *)

Section cond.
Context (ev : value Prim → Frame → M Prim (value Prim)) (env : Frame).

(** Every clause is a list [(test body...)] whose test is not [else] and
    evaluates to [False], one clause after the other, from heap [h] to
    heap [h']. *)
Inductive tests_false : list (value Prim) → heap Prim → heap Prim → Prop :=
  | tests_false_nil h : tests_false [] h h
  | tests_false_cons test body clauses h h1 h2 :
      scheme_listp body = true →
      is_str "else" test = false →
      ev test env h = (Ok (Bool false), h1) →
      tests_false clauses h1 h2 →
      tests_false (Pair test body :: clauses) h h2.

Lemma cond_clause_false num_clauses i test body h h1 :
  scheme_listp body = true →
  is_str "else" test = false →
  ev test env h = (Ok (Bool false), h1) →
  cond_clause ev num_clauses i (Pair test body) env h = (Ok None, h1).
Proof.
  intros Hbody Helse Hev. unfold cond_clause, check_form.
  cbn [scheme_listp]. rewrite Hbody. cbn [negb].
  assert (∃ k, list_length body = Some k) as [k Hk].
  { clear -Hbody. induction body; try done; [by eexists|].
    destruct IHbody2 as [k Hk]; [done|]. exists (S k). simpl. by rewrite Hk. }
  assert (len (Pair test body) h = (Ok (S k), h)) as Hlen.
  { unfold len. simpl. by rewrite Hk. }
  rewrite (bind_ok _ _ _ _ _
    (bind_ok _ (λ length, if length <? 1 then _ else _) _ _ _ Hlen)).
  cbn [first]. rewrite bind_ret.
  rewrite Helse. rewrite (bind_ok _ _ _ _ _ Hev). reflexivity.
Qed.

Lemma cond_loop_no_match pre clauses num_clauses h h' :
  tests_false clauses h h' →
  cond_loop ev (slist (pre ++ clauses)) num_clauses
    (seq (List.length pre) (List.length clauses)) env h
  = (Ok PyNone, h').
Proof.
  intros H. revert pre. induction H as [|test body clauses h h1 h2 Hb He Hev _ IH];
    intros pre; [done|].
  cbn [List.length seq cond_loop].
  rewrite (bind_ok _ _ _ _ _ (getitem_slist _ _ (Pair test body) h
    (list_lookup_middle pre _ _ _ eq_refl))).
  rewrite (bind_ok _ _ _ _ _ (cond_clause_false _ _ _ _ _ _ Hb He Hev)).
  specialize (IH (pre ++ [Pair test body])).
  rewrite <-app_assoc, length_app in IH. simpl in IH.
  by rewrite Nat.add_1_r in IH.
Qed.

Lemma do_cond_form_no_match clauses h h' :
  tests_false clauses h h' →
  do_cond_form ev (slist clauses) env h = (Ok PyNone, h').
Proof.
  intros H. unfold do_cond_form.
  rewrite (bind_ok _ _ _ _ _ (len_slist clauses h)).
  by apply (cond_loop_no_match []).
Qed.

End cond.

(** C4, as the code has it.  When every clause of a [cond] form has a test
    other than [else] that evaluates to [False], [do_cond_form] returns
    [None] and raises nothing; the evaluator then takes [None] for the
    expression to evaluate next and raises "Cannot evaluate an undefined
    expression.": evaluating the form is an error. *)
Theorem cond_no_match_raises n clauses env h h' :
  tests_false (scheme_optimized_eval (S n)) env clauses h h' →
  do_cond_form (scheme_optimized_eval (S n)) (slist clauses) env h
    = (Ok PyNone, h')
  ∧ scheme_optimized_eval (S (S n)) (Pair (Sym "cond") (slist clauses)) env h
    = (Raise (SchemeError "Cannot evaluate an undefined expression."), h').
Proof.
  intros H. pose proof (do_cond_form_no_match _ _ _ _ _ H) as Hc.
  split; [done|].
  rewrite scheme_optimized_eval_S. unfold optimized_eval_body.
  cbn [scheme_atomp scheme_listp].
  rewrite scheme_listp_slist. cbn [negb first second].
  rewrite !bind_ret. unfold LOGIC_FORMS. compute_is_str.
  by rewrite (bind_ok _ _ _ _ _ Hc).
Qed.

(** *** Calling a procedure with the wrong number of arguments *)

(** The dictionary that [make_call_frame] fills: the names are bound in
    order, as far as there are values. *)
Definition call_bindings (names : list string) (args : list (value Prim))
    : gmap string (value Prim) :=
  foldl (λ b p, <[p.1 := p.2]> b) ∅ (zip names args).

Lemma bind_formals_slist frame names args h d :
  h !! id frame = Some d →
  bind_formals frame (slist (@Sym Prim <$> names)) (slist args) h
  = (if List.length names <=? List.length args then Ok tt
     else Raise AttributeError,
     <[id frame := foldl (λ b p, <[p.1 := p.2]> b) d (zip names args)]> h).
Proof.
  revert args h d. induction names as [|x names IH]; intros args h d Hd.
  - simpl. by rewrite list_insert_id.
  - cbn [fmap list_fmap slist bind_formals].
    pose proof (len_slist (Sym x :: (@Sym Prim <$> names)) h) as Hlen.
    cbn [slist List.length] in Hlen.
    rewrite (bind_ok _ _ _ _ _ Hlen). cbn [List.length Nat.eqb].
    destruct args as [|a args].
    + simpl. by rewrite list_insert_id.
    + cbn [slist first second]. rewrite bind_ret.
      assert (setitem frame (Sym x) a h
              = (Ok tt, <[id frame := <[x := a]> d]> h)) as Hset.
      { unfold setitem, bindings. by rewrite Hd. }
      rewrite (bind_ok _ _ _ _ _ Hset), bind_ret.
      rewrite (IH args _ (<[x := a]> d)).
      * by rewrite list_insert_insert_eq.
      * apply list_lookup_insert_eq. by eapply lookup_lt_Some.
Qed.

Lemma make_call_frame_slist self names args h :
  make_call_frame self (slist (@Sym Prim <$> names)) (slist args) h
  = (if List.length names <=? List.length args
     then Ok (mkFrame (List.length h) (Some self))
     else Raise AttributeError,
     h ++ [call_bindings names args]).
Proof.
  unfold make_call_frame.
  rewrite (bind_ok _ _ h (mkFrame (List.length h) (Some self)) (h ++ [∅])
             eq_refl).
  assert ((h ++ [∅ : gmap string (value Prim)])
            !! id (mkFrame (List.length h) (Some self)) = Some ∅) as Hd.
  { simpl. by rewrite lookup_app_r, Nat.sub_diag. }
  pose proof (bind_formals_slist _ names args _ _ Hd) as Hb.
  assert (<[id (mkFrame (List.length h) (Some self))
            := call_bindings names args]> (h ++ [∅])
          = h ++ [call_bindings names args]) as Hh.
  { simpl. rewrite insert_app_r_alt, Nat.sub_diag by done. done. }
  unfold call_bindings in *. rewrite Hh in Hb.
  destruct (List.length names <=? List.length args).
  - by rewrite (bind_ok _ _ _ _ _ Hb).
  - by rewrite (bind_raise _ _ _ _ _ Hb).
Qed.

(** Where the names are distinct, each is bound to the value at its
    position, whatever follows in the list of values. *)
Lemma call_bindings_lookup names args i x :
  NoDup names → names !! i = Some x → i < List.length args →
  call_bindings names args !! x = args !! i.
Proof.
  unfold call_bindings.
  assert (∀ d, x ∉ names →
    foldl (λ (b : gmap string (value Prim)) p, <[p.1 := p.2]> b) d
      (zip names args) !! x = d !! x) as Hout.
  { clear. intros d Hx. revert args d.
    induction names as [|y names IH]; intros [|a args] d; try done.
    simpl. rewrite IH by set_solver. apply lookup_insert_ne. set_solver. }
  clear Hout.
  generalize (∅ : gmap string (value Prim)) as d.
  revert args i. induction names as [|y names IH]; intros args i d Hnd Hi Hlt;
    [done|].
  destruct args as [|a args]; [simpl in Hlt; lia|].
  inversion Hnd as [|? ? Hy Hnd']; subst.
  destruct i as [|i]; simpl in *.
  - simplify_eq.
    assert (∀ (l : list string) (args : list (value Prim)) d, x ∉ l →
      foldl (λ (b : gmap string (value Prim)) p, <[p.1 := p.2]> b) d
        (zip l args) !! x = d !! x) as Hout.
    { clear. intros l. induction l as [|y l IH]; intros [|a args] d Hx;
        try done.
      simpl. rewrite IH by set_solver. apply lookup_insert_ne. set_solver. }
    rewrite Hout by done. apply lookup_insert_eq.
  - apply IH; [done..|lia].
Qed.

(** C5, as the code has it.  When a lambda procedure is applied, the number
    of arguments is checked nowhere.  [make_call_frame] binds the formal
    parameters in order; with fewer arguments than parameters it raises
    [AttributeError] itself, at the first parameter left without a value;
    with as many or more it returns the frame, the arguments beyond the
    parameters are left out, and the body is evaluated in that frame. *)
Theorem apply_lambda_arity ev names args body penv env h :
  let formals := slist (@Sym Prim <$> names) in
  let new := mkFrame (List.length h) (Some penv) in
  let h' := h ++ [call_bindings names args] in
  make_call_frame penv formals (slist args) h
    = (if List.length names <=? List.length args then Ok new
       else Raise AttributeError, h')
  ∧ scheme_apply call ev (LambdaProcedure formals body penv) (slist args)
      env h
    = if List.length names <=? List.length args then ev body new h'
      else (Raise AttributeError, h').
Proof.
  intros formals new h'. split; [apply make_call_frame_slist|].
  unfold scheme_apply.
  pose proof (make_call_frame_slist penv names args h) as Hm.
  destruct (List.length names <=? List.length args).
  - by rewrite (bind_ok _ _ _ _ _ Hm).
  - by rewrite (bind_raise _ _ _ _ _ Hm).
Qed.

(** *** [let] *)

Section let_form.
Context (ev : value Prim → Frame → M Prim (value Prim)).

(** The binding [(x e)], and the form
    [(let ((x1 e1) ... (xk ek)) b1 ... bm)]. *)
Definition binding (b : string * value Prim) : value Prim :=
  slist [Sym b.1; b.2].

Definition let_form (bs : list (string * value Prim))
    (body : list (value Prim)) : value Prim :=
  Pair (Sym "let") (Pair (slist (binding <$> bs)) (slist body)).

(** The expressions [es], evaluated in [env] one after the other. *)
Fixpoint eval_all (es : list (value Prim)) (env : Frame)
    : M Prim (list (value Prim)) :=
  match es with
  | [] => ret []
  | e :: es' => v ← ev e env; vs ← eval_all es' env; ret (v :: vs)
  end.

(** A new frame under [parent] that holds the dictionary [d] from the
    start. *)
Definition new_frame (parent : Frame) (d : gmap string (value Prim))
    : M Prim Frame :=
  λ h, (Ok (mkFrame (List.length h) (Some parent)), h ++ [d]).

(** What the specification says of [let]: every value expression is
    evaluated in the outer frame [env]; then one new frame binds all the
    names at once; all but the last expression of the body are evaluated
    in the new frame; the last one is evaluated in the new frame, for the
    result. *)
Definition let_spec (bs : list (string * value Prim))
    (body : list (value Prim)) (env : Frame) : M Prim (value Prim) :=
  vs ← eval_all (bs.*2) env;
  new ← new_frame env (list_to_map (zip (bs.*1) vs));
  _ ← for_each (removelast body) (λ b, _ ← ev b new; ret tt);
  ev (List.last body PyNone) new.

Lemma eval_all_length es env h vs h' :
  eval_all es env h = (Ok vs, h') → List.length vs = List.length es.
Proof.
  revert h vs. induction es as [|e es IH]; intros h vs H; simpl in H.
  - unfold ret in H. by simplify_eq.
  - unfold mbind, M_bind, bnd, ret in H.
    destruct (ev e env h) as [[v| |] h1]; try done.
    destruct (eval_all es env h1) as [[vs'| |] h2] eqn:E; try done.
    simplify_eq. simpl. by rewrite (IH _ _ E).
Qed.

Lemma let_bindings_slist bs ns vs0 env h :
  let_bindings ev (slist (binding <$> bs))
    (slist ns) (slist vs0) env h
  = (vs ← eval_all (bs.*2) env;
     ret (slist (reverse (@Sym Prim <$> bs.*1) ++ ns),
          slist (reverse vs ++ vs0))) h.
Proof.
  revert ns vs0 h. induction bs as [|[x e] bs IH]; intros ns vs0 h; [done|].
  cbn [fmap list_fmap slist let_bindings fst snd eval_all].
  change (binding (x, e)) with (Pair (@Sym Prim x) (Pair e Nil)).
  cbn [first second]. rewrite bind_ret, bind_assoc, bind_ret.
  cbn [getitem Pair_getitem]. rewrite bind_ret.
  unfold mbind, M_bind, bnd.
  destruct (ev e env h) as [[v| |] h1]; try done.
  change (Pair (Sym x) (slist ns)) with (slist (Sym x :: ns)).
  change (Pair v (slist vs0)) with (slist (v :: vs0)).
  rewrite IH. unfold mbind, M_bind, bnd.
  destruct (eval_all _ env h1) as [[vs| |] h2]; try done.
  unfold ret. by rewrite !reverse_cons, <-!app_assoc.
Qed.


Lemma call_bindings_reverse names (vs : list (value Prim)) :
  List.length names = List.length vs →
  call_bindings (reverse names) (reverse vs) = list_to_map (zip names vs).
Proof.
  unfold call_bindings. revert vs.
  induction names as [|x names IH]; intros [|v vs] Hlen; try done.
  simpl in Hlen. rewrite !reverse_cons.
  rewrite zip_with_app by (rewrite !length_reverse; lia).
  rewrite foldl_app. simpl. rewrite IH by lia. done.
Qed.

Lemma for_each_getitem pre l rest (f : value Prim → M Prim ()) h :
  for_each (seq (List.length pre) (List.length l))
    (λ i, e ← getitem (slist (pre ++ l ++ rest)) i; f e) h
  = for_each l f h.
Proof.
  revert pre h. induction l as [|x l IH]; intros pre h; [done|].
  cbn [List.length seq for_each app].
  unfold mbind at 1, M_bind at 1, bnd at 1.
  unfold mbind at 1, M_bind at 1, bnd at 1.
  rewrite (getitem_slist _ _ x h (list_lookup_middle pre _ _ _ eq_refl)).
  unfold mbind, M_bind, bnd.
  destruct (f x h) as [[[]| |] h1]; try done.
  specialize (IH (pre ++ [x]) h1).
  rewrite <-app_assoc, length_app in IH. simpl in IH.
  by rewrite Nat.add_1_r in IH.
Qed.

Lemma do_let_form_slist bs body env h :
  body ≠ [] →
  do_let_form ev (Pair (slist (binding <$> bs)) (slist body)) env h
  = (vs ← eval_all (bs.*2) env;
     new ← new_frame env (list_to_map (zip (bs.*1) vs));
     _ ← for_each (removelast body) (λ b, _ ← ev b new; ret tt);
     ret (List.last body PyNone, new)) h.
Proof.
  intros Hbody.
  pose proof (app_removelast_last PyNone Hbody) as Hsplit.
  set (init := removelast body) in *. set (lst := List.last body PyNone) in *.
  clearbody init lst. subst body. clear Hbody.
  unfold do_let_form, check_form.
  set (bindings := slist (binding <$> bs)).
  change (Pair bindings (slist (init ++ [lst])))
    with (slist (bindings :: init ++ [lst])).
  rewrite scheme_listp_slist. cbn [negb].
  pose proof (len_slist (bindings :: init ++ [lst]) h) as Hlen.
  cbn [List.length] in Hlen. rewrite length_app, Nat.add_1_r in Hlen.
  rewrite (bind_ok _ _ _ _ _ (bind_ok _
    (λ length, if length <? 2 then _ else _) _ _ _ Hlen)).
  rewrite (bind_ok _ _ _ _ _
    (getitem_slist (bindings :: init ++ [lst]) 0 bindings h eq_refl)).
  cbn [slist second]. rewrite bind_ret.
  subst bindings. rewrite scheme_listp_slist. cbn [negb].
  change (@Nil Prim) with (@slist Prim []).
  rewrite (bind_cong_l _ _ _ _ (let_bindings_slist bs [] [] env h)).
  rewrite bind_assoc. apply bind_ext_ok. intros vs h1 Hvs.
  apply eval_all_length in Hvs. rewrite length_fmap in Hvs.
  rewrite bind_ret, !app_nil_r, <-fmap_reverse.
  pose proof (make_call_frame_slist env (reverse (bs.*1)) (reverse vs) h1)
    as Hm.
  rewrite !length_reverse, length_fmap, Hvs, Nat.leb_refl in Hm.
  rewrite call_bindings_reverse in Hm by (by rewrite length_fmap).
  rewrite (bind_ok _ _ _ _ _ Hm).
  set (d := list_to_map (zip (bs.*1) vs)).
  rewrite (bind_ok (new_frame env d) _ h1
             (mkFrame (List.length h1) (Some env)) (h1 ++ [d]) eq_refl).
  set (new := mkFrame (List.length h1) (Some env)).
  pose proof (len_slist (init ++ [lst]) (h1 ++ [d])) as Hlen'.
  rewrite length_app, Nat.add_1_r in Hlen'.
  rewrite (bind_ok _ _ _ _ _ Hlen'). cbv zeta.
  replace (S (List.length init) - 1) with (List.length init) by lia.
  apply (bind_cong _ _ _ _ _ (for_each_getitem [] init [lst] _ _)).
  intros [] h3.
  assert ((init ++ [lst]) !! List.length init = Some lst) as Hlst.
  { by rewrite lookup_app_r, Nat.sub_diag. }
  by rewrite (bind_ok _ _ _ _ _ (getitem_slist _ _ _ h3 Hlst)).
Qed.

End let_form.

(** C7.  The evaluator on a [let] form that has a body does what the
    specification says: it evaluates the value expressions in the outer
    frame, in order; makes one new frame under the outer one, which holds
    all the names; evaluates all but the last expression of the body in
    the new frame; and evaluates the last one in the new frame for the
    result. *)
Theorem let_evaluation n bs body env h :
  body ≠ [] →
  scheme_optimized_eval (S n) (let_form bs body) env h
  = let_spec (scheme_optimized_eval n) bs body env h.
Proof.
  intros Hbody. rewrite scheme_optimized_eval_S.
  unfold optimized_eval_body, let_form.
  cbn [scheme_atomp scheme_listp]. rewrite scheme_listp_slist.
  cbn [negb first second]. rewrite !bind_ret.
  unfold LOGIC_FORMS. compute_is_str.
  rewrite (bind_cong_l _ _ _ _ (do_let_form_slist _ _ _ _ _ Hbody)).
  unfold let_spec. rewrite bind_assoc.
  apply bind_ext_ok. intros vs h1 _. rewrite bind_assoc.
  apply bind_ext_ok. intros new h2 _. rewrite bind_assoc.
  apply bind_ext_ok. intros [] h3 _. by rewrite bind_ret.
Qed.

End interpreter.

(** *** Runs of the interpreter without primitives *)

(** No native function, a global frame with an empty dictionary. *)
Definition no_primitives
    : Empty_set → list (value Empty_set) → option Frame
      → M Empty_set (value Empty_set) :=
  λ fn, match fn with end.

Definition the_global_frame : Frame := mkFrame 0 None.

Definition empty_heap : heap Empty_set := [∅].

(** [(cond (#f 1))] *)
Definition cond_false_1 : value Empty_set :=
  slist [Sym "cond"; slist [Bool false; Num 1]].

(** [((lambda (x) x) 1 2)] *)
Definition identity_of_1_and_2 : value Empty_set :=
  slist [slist [Sym "lambda"; slist [Sym "x"]; Sym "x"]; Num 1; Num 2].

(** C4 does not hold as stated: [(cond (#f 1))] has one clause, whose test
    evaluates to [False], and evaluating it raises. *)
Lemma cond_false_1_raises :
  tests_false (scheme_optimized_eval no_primitives 2) the_global_frame
    [slist [Bool false; Num 1]] empty_heap empty_heap
  ∧ scheme_optimized_eval no_primitives 3 cond_false_1 the_global_frame
      empty_heap
    = (Raise (SchemeError "Cannot evaluate an undefined expression."),
       empty_heap).
Proof.
  split; [|reflexivity].
  eapply tests_false_cons; [done..|apply tests_false_nil].
Qed.

Lemma cond_no_match_raises_witness :
  do_cond_form (scheme_optimized_eval no_primitives 2)
    (slist [slist [Bool false; Num 1]]) the_global_frame empty_heap
    = (Ok PyNone, empty_heap)
  ∧ scheme_optimized_eval no_primitives 3 cond_false_1 the_global_frame
      empty_heap
    = (Raise (SchemeError "Cannot evaluate an undefined expression."),
       empty_heap).
Proof.
  apply (cond_no_match_raises no_primitives 1 [slist [Bool false; Num 1]]).
  eapply tests_false_cons; [reflexivity..|apply tests_false_nil].
Defined.

(** C5 does not hold as stated: the procedure [(lambda (x) x)] has one
    parameter, it is applied to two arguments, and the call returns 1. *)
Lemma identity_of_1_and_2_returns :
  scheme_optimized_eval no_primitives 3 identity_of_1_and_2 the_global_frame
    empty_heap
  = (Ok (Num 1), [∅; {["x" := Num 1]}]).
Proof. vm_compute. reflexivity. Qed.

(** [(let ((x 1) (y 2)) (quote y) x)] *)
Definition let_x_y : list (string * value Empty_set) * list (value Empty_set) :=
  ([("x", Num 1); ("y", Num 2)], [slist [Sym "quote"; Sym "y"]; Sym "x"]).

Lemma let_evaluation_witness :
  scheme_optimized_eval no_primitives 3 (let_form let_x_y.1 let_x_y.2)
    the_global_frame empty_heap
  = let_spec (scheme_optimized_eval no_primitives 2) let_x_y.1 let_x_y.2
      the_global_frame empty_heap.
Proof. apply (let_evaluation no_primitives 2). discriminate. Defined.

Example let_x_y_returns :
  scheme_optimized_eval no_primitives 3 (let_form let_x_y.1 let_x_y.2)
    the_global_frame empty_heap
  = (Ok (Num 1), [∅; {["x" := Num 1; "y" := Num 2]}]).
Proof. vm_compute. reflexivity. Qed.

(** *** More of the interpreter *)

Section properties.
Context {Prim : Type}.
Context (call : Prim → list (value Prim) → option Frame → M Prim (value Prim)).

#[local] Abbreviation scheme_eval := (scheme_eval call).
#[local] Abbreviation scheme_optimized_eval := (scheme_optimized_eval call).
#[local] Abbreviation scheme_optimized_eval_on_stack :=
  (scheme_optimized_eval_on_stack call).

Ltac compute_is_str :=
  repeat match goal with
  | |- context [@is_str ?P ?a (Sym ?b)] =>
      let v := eval vm_compute in (@is_str P a (Sym b)) in
      change (@is_str P a (Sym b)) with v
  end;
  cbv iota.

(** **** Proper lists *)

Lemma scheme_listp_inv (x : value Prim) :
  scheme_listp x = true → ∃ l, x = slist l.
Proof.
  induction x as [| | | | | |a _ b IH| | |]; try done.
  - by exists [].
  - intros [l ->]%IH. by exists (a :: l).
Qed.

(** **** Formal parameters *)

Lemma check_formals_from_accepts seen (formals : value Prim) h :
  check_formals_from seen formals h = (Ok tt, h)
  ↔ ∃ names, formals = slist (Sym <$> names) ∧ NoDup names
             ∧ ∀ x, x ∈ names → x ∉ seen.
Proof.
  revert seen. induction formals as [| | | | | |a _ b IH| | |]; intros seen;
    try (split; [done|]; by intros ([|??] & ? & _)).
  - split; [|done]. intros _. exists []. split; [done|].
    split; [constructor|]. by intros x ?%elem_of_nil.
  - cbn [check_formals_from]. destruct a as [| | | |s| | | | |];
      try (split; [done|]; by intros ([|??] & ? & _)).
    case_bool_decide as Hs.
    + split; [done|]. intros ([|x names] & Heq & _ & Hseen); [done|].
      cbn in Heq. simplify_eq. destruct (Hseen x); [by left|done].
    + rewrite IH. split.
      * intros (names & -> & Hnd & Hseen). exists (s :: names).
        split; [done|]. split.
        -- constructor; [|done]. intros Hin. apply (Hseen _ Hin).
           apply elem_of_app. right. by left.
        -- intros x [->|Hx]%elem_of_cons; [done|].
           intros Hx'. apply (Hseen _ Hx). apply elem_of_app. by left.
      * intros ([|x names] & Heq & Hnd & Hseen); [done|].
        cbn in Heq. simplify_eq. exists names. split; [done|].
        apply NoDup_cons in Hnd as [Hx Hnd]. split; [done|].
        intros y Hy [Hin| ->%list_elem_of_singleton]%elem_of_app; [|done].
        apply (Hseen y); [by right|done].
Qed.

Lemma check_formals_from_raises seen (formals : value Prim) h :
  check_formals_from seen formals h = (Ok tt, h)
  ∨ check_formals_from seen formals h
    = (Raise (SchemeError "bad formed formals"), h).
Proof.
  revert seen. induction formals as [| | | | | |a _ b IH| | |]; intros seen;
    try (by right); try (by left).
  cbn [check_formals_from]. destruct a; try (by right).
  case_bool_decide; [by right|apply IH].
Qed.

(** X10.  [check_formals] returns for the proper lists of symbols that are
    distinct, and raises the [SchemeError] "bad formed formals" for
    everything else. *)
Theorem check_formals_accepts (formals : value Prim) h :
  (check_formals formals h = (Ok tt, h)
   ↔ ∃ names, formals = slist (Sym <$> names) ∧ NoDup names)
  ∧ (check_formals formals h = (Ok tt, h)
     ∨ check_formals formals h
       = (Raise (SchemeError "bad formed formals"), h)).
Proof.
  split; [|apply check_formals_from_raises].
  unfold check_formals. rewrite check_formals_from_accepts.
  split.
  - intros (names & ? & ? & _). by exists names.
  - intros (names & ? & ?). exists names. split; [done|]. split; [done|].
    by intros x _ ?%elem_of_nil.
Qed.


(** **** Frames *)

Lemma Frame_chain_ind (P : Frame → Prop) :
  (∀ i, P (mkFrame i None)) →
  (∀ i up, P up → P (mkFrame i (Some up))) →
  ∀ env, P env.
Proof.
  intros H0 HS. fix IH 1. intros [i [up|]]; [apply HS, IH|apply H0].
Qed.

(** Every frame of the chain of [env] is in the heap. *)
Fixpoint allocated (h : heap Prim) (env : Frame) : Prop :=
  match env with
  | mkFrame i p =>
      i < List.length h
      ∧ match p with Some up => allocated h up | None => True end
  end.

Lemma Frame_lookup_insert_eq (h : heap Prim) env s v d :
  id env < List.length h →
  Frame_lookup (<[id env := <[s := v]> d]> h) s env = Some v.
Proof.
  intros Hlt. destruct env as [i p]. cbn [Frame_lookup id] in *.
  rewrite list_lookup_insert_eq by done. cbn [default from_option Datatypes.id].
  by rewrite lookup_insert_eq.
Qed.

Lemma Frame_lookup_insert_ne (h : heap Prim) i s s' v env :
  s' ≠ s →
  Frame_lookup (<[i := <[s := v]> (default ∅ (h !! i))]> h) s' env
  = Frame_lookup h s' env.
Proof.
  intros Hne.
  assert (∀ j, default ∅ (<[i := <[s := v]> (default ∅ (h !! i))]> h !! j)
               !! s' = default ∅ (h !! j) !! s') as Hj.
  { intros j. destruct (decide (i = j)) as [<-|Hij].
    - destruct (decide (i < List.length h)) as [Hlt|Hge].
      + rewrite list_lookup_insert_eq by done. cbn [default from_option Datatypes.id].
        by rewrite lookup_insert_ne.
      + by rewrite list_insert_ge by lia.
    - by rewrite list_lookup_insert_ne by done. }
  induction env as [j|j up IH] using Frame_chain_ind;
    cbn [Frame_lookup]; rewrite Hj; [done|]. by rewrite IH.
Qed.

Lemma Frame_lookup_app (h : heap Prim) d s env :
  allocated h env → Frame_lookup (h ++ d) s env = Frame_lookup h s env.
Proof.
  induction env as [j|j up IH] using Frame_chain_ind;
    cbn [Frame_lookup allocated]; intros [Hj Hup];
    rewrite lookup_app_l by done; [done|]. by rewrite IH.
Qed.

(** A frame whose chain is below [k] in the heap. *)
Fixpoint below (k : nat) (env : Frame) : Prop :=
  match env with
  | mkFrame i p =>
      i < k ∧ match p with Some up => below k up | None => True end
  end.

Lemma Frame_lookup_insert_above (h : heap Prim) k d s env :
  below k env →
  Frame_lookup (<[k := d]> h) s env = Frame_lookup h s env.
Proof.
  induction env as [j|j up IH] using Frame_chain_ind;
    cbn [Frame_lookup below]; intros [Hj Hup];
    rewrite list_lookup_insert_ne by lia; [done|]. by rewrite IH.
Qed.

Lemma allocated_below (h : heap Prim) env :
  allocated h env ↔ below (List.length h) env.
Proof.
  induction env as [j|j up IH] using Frame_chain_ind;
    cbn [allocated below]; [done|]. by rewrite IH.
Qed.

(** X11.  A definition in a new frame is seen in that frame only: the frames
    of the chain of its parent look every symbol up as before; the new
    frame has the new binding, and looks every other symbol up in its
    parent. *)
Theorem define_in_new_frame parent sym val (h : heap Prim) :
  allocated h parent →
  ∃ new h', (new ← Frame_new (Some parent); _ ← define new sym val; ret new) h
            = (Ok new, h')
    ∧ (∀ s, Frame_lookup h' s parent = Frame_lookup h s parent)
    ∧ Frame_lookup h' sym new = Some val
    ∧ ∀ s, s ≠ sym → Frame_lookup h' s new = Frame_lookup h s parent.
Proof.
  intros Ha. eexists _, _. split; [reflexivity|].
  cbn [id]. unfold bindings. cbn [id].
  assert (∀ s d, Frame_lookup (<[List.length h := d]> (h ++ [∅])) s parent
                 = Frame_lookup h s parent) as Hparent.
  { intros s d. apply allocated_below in Ha.
    rewrite Frame_lookup_insert_above by done.
    apply Frame_lookup_app. by apply allocated_below. }
  split; [by intros s|]. split.
  - cbn [Frame_lookup].
    rewrite list_lookup_insert_eq by (rewrite length_app; simpl; lia).
    cbn [default from_option Datatypes.id]. by rewrite lookup_insert_eq.
  - intros s Hs. cbn [Frame_lookup].
    rewrite list_lookup_insert_eq by (rewrite length_app; simpl; lia).
    cbn [default from_option Datatypes.id]. rewrite lookup_insert_ne by done.
    rewrite lookup_app_r, Nat.sub_diag by done.
    change ([∅] !! 0) with (Some (∅ : gmap string (value Prim))).
    cbn [default from_option Datatypes.id].
    rewrite lookup_empty. apply Hparent.
Qed.

Lemma call_bindings_notin names (args : list (value Prim)) s :
  s ∉ names → call_bindings names args !! s = None.
Proof.
  unfold call_bindings.
  assert (∀ d : gmap string (value Prim), s ∉ names →
    foldl (λ b p, <[p.1 := p.2]> b) d (zip names args) !! s = d !! s) as H.
  { revert args. induction names as [|y names IH]; intros [|a args] d Hs;
      try done.
    simpl. rewrite IH by set_solver. apply lookup_insert_ne. set_solver. }
  intros Hs. by rewrite H.
Qed.

Lemma make_call_frame_lookups self names args (h : heap Prim) :
  NoDup names → List.length names ≤ List.length args → allocated h self →
  ∃ new h',
    make_call_frame self (slist (Sym <$> names)) (slist args) h
      = (Ok new, h')
    ∧ (∀ i x, names !! i = Some x → Frame_lookup h' x new = args !! i)
    ∧ (∀ s, s ∉ names → Frame_lookup h' s new = Frame_lookup h s self)
    ∧ ∀ s, Frame_lookup h' s self = Frame_lookup h s self.
Proof.
  intros Hnd Hlen Ha. eexists _, _. split.
  { rewrite make_call_frame_slist.
    apply Nat.leb_le in Hlen. by rewrite Hlen. }
  assert (∀ s, Frame_lookup (h ++ [call_bindings names args]) s
                 (mkFrame (List.length h) (Some self))
               = match call_bindings names args !! s with
                 | Some v => Some v
                 | None => Frame_lookup h s self
                 end) as Hnew.
  { intros s. cbn [Frame_lookup].
    rewrite lookup_app_r, Nat.sub_diag by done.
    change ([call_bindings names args] !! 0)
      with (Some (call_bindings names args)).
    cbn [default from_option Datatypes.id].
    by rewrite Frame_lookup_app. }
  split; [|split].
  - intros i x Hx. rewrite Hnew.
    rewrite (call_bindings_lookup names args i x Hnd Hx).
    + destruct (args !! i) eqn:Hi; [done|].
      apply lookup_ge_None in Hi. apply lookup_lt_Some in Hx. lia.
    + apply lookup_lt_Some in Hx. lia.
  - intros s Hs. by rewrite Hnew, call_bindings_notin.
  - intros s. by apply Frame_lookup_app.
Qed.

(** X12.  [make_call_frame], on formal parameters that are distinct and at
    least as many values: in the frame it returns, every parameter is
    looked up with the value at its position, and every other symbol as in
    the frame it was called on, which looks everything up as before. *)
Theorem make_call_frame_binds self names args (h : heap Prim) :
  NoDup names → List.length names ≤ List.length args → allocated h self →
  ∃ new h',
    make_call_frame self (slist (Sym <$> names)) (slist args) h
      = (Ok new, h')
    ∧ (∀ i x, names !! i = Some x → Frame_lookup h' x new = args !! i)
    ∧ (∀ s, s ∉ names → Frame_lookup h' s new = Frame_lookup h s self)
    ∧ ∀ s, Frame_lookup h' s self = Frame_lookup h s self.
Proof. apply make_call_frame_lookups. Qed.

(** **** Special forms *)

(** The evaluator on a list whose first element is the symbol [name]. *)
Ltac eval_form :=
  rewrite !scheme_optimized_eval_S; unfold optimized_eval_body;
  cbn [scheme_atomp scheme_listp]; rewrite ?scheme_listp_slist;
  cbn [negb first second]; rewrite !bind_ret;
  unfold LOGIC_FORMS; compute_is_str.

Ltac monad_simpl := repeat first [rewrite bind_assoc | rewrite bind_ret].

Lemma bind_eq {A B} (m : M Prim A) (k : A → M Prim B) h r :
  m h = r →
  (m ≫= k) h = match r with
               | (Ok a, h') => k a h'
               | (Raise e, h') => (Raise e, h')
               | (Timeout, h') => (Timeout, h')
               end.
Proof. intros <-. reflexivity. Qed.

Lemma bind_cong_heap {A B} (m1 m2 : M Prim A) (k : A → M Prim B) h h' :
  m1 h = m2 h' → (m1 ≫= k) h = (m2 ≫= k) h'.
Proof. intros H. unfold mbind, M_bind, bnd. by rewrite H. Qed.

Lemma check_form_slist (l : list (value Prim)) min max h :
  check_form (slist l) min max h
  = (if List.length l <? min
     then Raise (SchemeError "too few operands in form")
     else match max with
          | Some m =>
              if m <? List.length l
              then Raise (SchemeError "too many operands in form")
              else Ok tt
          | None => Ok tt
          end, h).
Proof.
  unfold check_form. rewrite scheme_listp_slist. cbn [negb].
  rewrite (bind_ok _ _ _ _ _ (len_slist l h)).
  destruct (List.length l <? min); [done|].
  destruct max as [m|]; [|done]. by destruct (m <? List.length l).
Qed.

(** X13.  [(quote x)] evaluates to [x] as it stands, and the heap is left as
    it is; [quote] with no operand or with more than one is an error. *)
Theorem quote_evaluation n xs env h :
  scheme_optimized_eval (S n) (Pair (Sym "quote") (slist xs)) env h
  = (match xs with
     | [] => Raise (SchemeError "too few operands in form")
     | [x] => Ok x
     | _ => Raise (SchemeError "too many operands in form")
     end, h).
Proof.
  eval_form. unfold do_quote_form.
  rewrite (bind_eq _ _ _ _ (check_form_slist xs 1 (Some 1) h)).
  by destruct xs as [|x [|y xs]].
Qed.

(** X14.  [(if c a b)]: the test [c] is evaluated, and then [a] when its
    value is anything but [False], [b] when it is [False]; the chosen
    expression is evaluated in the same frame, for the result.  [if] with
    other than three operands is an error. *)
Theorem if_evaluation n xs env h :
  scheme_optimized_eval (S n) (Pair (Sym "if") (slist xs)) env h
  = match xs with
    | [c; a; b] =>
        (v ← scheme_optimized_eval n c env;
         scheme_optimized_eval n (if scheme_true v then a else b) env) h
    | _ =>
        (Raise (SchemeError (if List.length xs <? 3
                             then "too few operands in form"
                             else "too many operands in form")), h)
    end.
Proof.
  eval_form. unfold do_if_form. rewrite bind_assoc.
  rewrite (bind_eq _ _ _ _ (check_form_slist xs 3 (Some 3) h)).
  destruct xs as [|c [|a [|b [|d xs]]]]; try done.
  cbn [slist List.length Nat.ltb Nat.leb getitem Pair_getitem].
  monad_simpl. apply bind_ext_ok. intros v h1 _.
  destruct (scheme_true v); by rewrite bind_ret.
Qed.

Lemma do_begin_form_slist ev (es : list (value Prim)) env h :
  es ≠ [] →
  do_begin_form ev (slist es) env h
  = (_ ← for_each (removelast es) (λ b, _ ← ev b env; ret tt);
     ret (List.last es PyNone)) h.
Proof.
  revert h. induction es as [|e es IH]; intros h Hes; [done|].
  cbn [slist do_begin_form].
  change (Pair e (slist es)) with (slist (e :: es)).
  rewrite (bind_eq _ _ _ _ (check_form_slist (e :: es) 1 None h)).
  cbn [List.length Nat.ltb Nat.leb].
  rewrite (bind_ok _ _ _ _ _ (len_slist (e :: es) h)).
  destruct es as [|e' es]; [done|].
  cbn [List.length Nat.eqb slist removelast List.last for_each].
  monad_simpl. apply bind_ext_ok. intros v h1 _. monad_simpl.
  by apply IH.
Qed.

Lemma eval_begin_form n es env h :
  scheme_optimized_eval (S n) (Pair (Sym "begin") (slist es)) env h
  = match es with
    | [] => (Raise (SchemeError "too few operands in form"), h)
    | _ =>
        (_ ← for_each (removelast es)
               (λ b, _ ← scheme_optimized_eval n b env; ret tt);
         scheme_optimized_eval n (List.last es PyNone) env) h
    end.
Proof.
  eval_form. destruct es as [|e es]; [done|].
  rewrite (bind_cong_l _ _ _ _ (do_begin_form_slist _ (e :: es) env h
                                  ltac:(done))).
  monad_simpl. apply bind_ext_ok. intros [] h1 _. by rewrite bind_ret.
Qed.

(** X15.  [(begin e1 ... ek)]: the expressions but the last are evaluated in
    order, in the same frame, and their values are dropped; then the last
    one is evaluated in that frame, for the result.  [(begin)] is an
    error. *)
Theorem begin_evaluation n es env h :
  scheme_optimized_eval (S n) (Pair (Sym "begin") (slist es)) env h
  = match es with
    | [] => (Raise (SchemeError "too few operands in form"), h)
    | _ =>
        (_ ← for_each (removelast es)
               (λ b, _ ← scheme_optimized_eval n b env; ret tt);
         scheme_optimized_eval n (List.last es PyNone) env) h
    end.
Proof. apply eval_begin_form. Qed.

Lemma check_formals_names names h :
  NoDup names →
  check_formals (slist (@Sym Prim <$> names)) h = (Ok tt, h).
Proof.
  intros Hnd. apply check_formals_from_accepts. exists names.
  split; [done|]. split; [done|]. by intros x _ ?%elem_of_nil.
Qed.

(** The body of a procedure: the one expression, or [begin] before more
    than one. *)
Definition procedure_body (body : list (value Prim)) : value Prim :=
  match body with
  | [b] => b
  | _ => Pair (Sym "begin") (slist body)
  end.

Lemma eval_lambda_form n names body env h :
  NoDup names → body ≠ [] →
  scheme_optimized_eval (S n)
    (Pair (Sym "lambda") (slist (slist (Sym <$> names) :: body))) env h
  = (Ok (LambdaProcedure (slist (Sym <$> names)) (procedure_body body) env), h)
  ∧ scheme_optimized_eval (S n)
      (Pair (Sym "mu") (slist (slist (Sym <$> names) :: body))) env h
    = (Ok (MuProcedure (slist (Sym <$> names)) (procedure_body body)), h).
Proof.
  intros Hnd Hbody. destruct body as [|b body]; [done|]. clear Hbody.
  split; eval_form.
  - unfold do_lambda_form.
    rewrite (bind_eq _ _ _ _ (check_form_slist (_ :: b :: body) 2 None h)).
    cbn [List.length Nat.ltb Nat.leb slist getitem Pair_getitem second].
    monad_simpl. rewrite (bind_ok _ _ _ _ _ (check_formals_names _ h Hnd)).
    monad_simpl.
    change (Pair b (slist body)) with (slist (b :: body)).
    rewrite (bind_ok _ _ _ _ _ (len_slist (b :: body) h)).
    by destruct body.
  - unfold do_mu_form.
    rewrite (bind_eq _ _ _ _ (check_form_slist (_ :: b :: body) 2 None h)).
    cbn [List.length Nat.ltb Nat.leb slist getitem Pair_getitem second].
    monad_simpl. rewrite (bind_ok _ _ _ _ _ (check_formals_names _ h Hnd)).
    monad_simpl.
    change (Pair b (slist body)) with (slist (b :: body)).
    rewrite (bind_ok _ _ _ _ _ (len_slist (b :: body) h)).
    by destruct body.
Qed.

(** X16.  [(define (f x ...) b ...)] is [(define f (lambda (x ...) b ...))]:
    the two forms evaluate alike. *)
Theorem define_procedure_form n f formals body env h :
  body ≠ [] →
  scheme_optimized_eval (S n)
    (Pair (Sym "define") (Pair (Pair (Sym f) formals) (slist body))) env h
  = scheme_optimized_eval (S n)
      (slist [Sym "define"; Sym f;
              Pair (Sym "lambda") (Pair formals (slist body))]) env h.
Proof.
  intros Hbody. destruct body as [|b body]; [done|]. clear Hbody.
  set (lam := Pair (Sym "lambda") (Pair formals (slist (b :: body)))).
  change (Pair (Pair (Sym f) formals) (slist (b :: body)))
    with (slist (Pair (Sym f) formals :: b :: body)).
  change (slist [Sym "define"; Sym f; lam])
    with (Pair (Sym "define") (slist [Sym f; lam])).
  eval_form. unfold do_define_form.
  rewrite (bind_eq _ _ _ _ (check_form_slist (_ :: b :: body) 2 None h)).
  rewrite (bind_eq _ _ _ _ (check_form_slist [Sym f; lam] 2 None h)).
  cbn [List.length Nat.ltb Nat.leb slist getitem Pair_getitem].
  monad_simpl.
  cbn [scheme_symbolp is_pair negb getitem Pair_getitem second].
  monad_simpl. cbn [scheme_symbolp negb]. monad_simpl.
  change (Pair (Sym f) (Pair lam Nil)) with (slist [Sym f; lam]).
  rewrite (bind_eq _ _ _ _ (check_form_slist [Sym f; lam] 2 (Some 2) h)).
  cbn [List.length Nat.ltb Nat.leb slist getitem Pair_getitem].
  by monad_simpl.
Qed.

(** X17.  [(define x e)] evaluates [e], binds [x] to its value in the frame
    of the evaluation, and returns [None]; the symbol [x] then evaluates
    to that value in this frame. *)
Theorem define_then_evaluate n m x e env h v h1 :
  scheme_optimized_eval n e env h = (Ok v, h1) →
  id env < List.length h1 →
  ∃ h2,
    scheme_optimized_eval (S n) (slist [Sym "define"; Sym x; e]) env h
      = (Ok PyNone, h2)
    ∧ scheme_optimized_eval (S m) (Sym x) env h2 = (Ok v, h2).
Proof.
  intros He Hlt. eexists. split.
  - change (slist [Sym "define"; Sym x; e])
      with (Pair (Sym "define") (slist [Sym x; e])).
    eval_form. unfold do_define_form.
    rewrite (bind_eq _ _ _ _ (check_form_slist [Sym x; e] 2 None h)).
    cbn [List.length Nat.ltb Nat.leb slist getitem Pair_getitem].
    monad_simpl. cbn [scheme_symbolp].
    change (Pair (Sym x) (Pair e Nil)) with (slist [Sym x; e]).
    rewrite (bind_eq _ _ _ _ (check_form_slist [Sym x; e] 2 (Some 2) h)).
    cbn [List.length Nat.ltb Nat.leb slist getitem Pair_getitem].
    monad_simpl. rewrite (bind_ok _ _ _ _ _ He).
    reflexivity.
  - rewrite scheme_optimized_eval_S. cbn [optimized_eval_body].
    unfold lookup, bindings. by rewrite Frame_lookup_insert_eq.
Qed.

(** **** [cond] *)

Section cond_clauses.
Context (ev : value Prim → Frame → M Prim (value Prim)) (env : Frame).

(** The loop of [do_cond_form] goes past the clauses whose tests evaluate
    to [False]. *)
Lemma cond_loop_skip pre0 pre rest num_clauses k h h1 :
  tests_false ev env pre h h1 →
  cond_loop ev (slist (pre0 ++ pre ++ rest)) num_clauses
    (seq (List.length pre0) (List.length pre + k)) env h
  = cond_loop ev (slist (pre0 ++ pre ++ rest)) num_clauses
      (seq (List.length pre0 + List.length pre) k) env h1.
Proof.
  intros H. revert pre0.
  induction H as [|test body clauses h h1 h2 Hb He Hev _ IH]; intros pre0.
  - cbn [List.length]. by rewrite Nat.add_0_r.
  - cbn [List.length Nat.add seq cond_loop].
    change ((Pair test body :: clauses) ++ rest)
      with (Pair test body :: clauses ++ rest).
    rewrite (bind_ok _ _ _ _ _ (getitem_slist _ _ (Pair test body) h
      (list_lookup_middle pre0 _ _ _ eq_refl))).
    rewrite (bind_ok _ _ _ _ _ (cond_clause_false _ _ _ _ _ _ _ _ Hb He Hev)).
    specialize (IH (pre0 ++ [Pair test body])).
    rewrite <-!app_assoc, length_app in IH. cbn [app List.length] in IH.
    rewrite Nat.add_1_r in IH. rewrite IH. f_equal. f_equal. lia.
Qed.

Lemma do_cond_form_skip pre c post h h1 :
  tests_false ev env pre h h1 →
  do_cond_form ev (slist (pre ++ c :: post)) env h
  = (r ← cond_clause ev (List.length (pre ++ c :: post)) (List.length pre)
           c env;
     match r with
     | Some expr => ret expr
     | None =>
         cond_loop ev (slist (pre ++ c :: post))
           (List.length (pre ++ c :: post))
           (seq (S (List.length pre)) (List.length post)) env
     end) h1.
Proof.
  intros H. unfold do_cond_form.
  rewrite (bind_ok _ _ _ _ _ (len_slist _ h)).
  rewrite length_app. cbn [List.length].
  pose proof (cond_loop_skip [] pre (c :: post)
                (List.length pre + S (List.length post))
                (S (List.length post)) h h1 H) as Hs.
  cbn [app List.length Nat.add] in Hs. rewrite Hs.
  cbn [seq cond_loop].
  rewrite (bind_ok _ _ _ _ _ (getitem_slist _ _ c h1
    (list_lookup_middle pre _ _ _ eq_refl))).
  reflexivity.
Qed.

Lemma check_form_clause (test body : value Prim) h :
  scheme_listp body = true →
  check_form (Pair test body) 1 None h = (Ok tt, h).
Proof.
  intros [l ->]%scheme_listp_inv.
  change (Pair test (slist l)) with (slist (test :: l)).
  by rewrite check_form_slist.
Qed.

End cond_clauses.

(** X18.  [cond] takes the first clause whose test has a value that is true
    for Python: the clauses before it have tests that evaluate to
    [False]; its body is evaluated under [begin], in the same frame, for
    the result; where it has no body, its test is evaluated once more, for
    the result.  The clauses after it are not looked at. *)
Theorem cond_first_true n pre test body post env h h1 v h2 :
  tests_false (scheme_optimized_eval n) env pre h h1 →
  is_str "else" test = false →
  scheme_listp body = true →
  scheme_optimized_eval n test env h1 = (Ok v, h2) →
  truth v h2 = (Ok true, h2) →
  scheme_optimized_eval (S n)
    (Pair (Sym "cond") (slist (pre ++ Pair test body :: post))) env h
  = scheme_optimized_eval n
      (if is_nil body then test else Pair (Sym "begin") body) env h2.
Proof.
  intros Hpre Helse Hbody Htest Htruth. eval_form.
  rewrite (bind_cong_heap _ _ _ _ _ (do_cond_form_skip _ _ _ _ _ _ _ Hpre)).
  unfold cond_clause. monad_simpl.
  rewrite (bind_ok _ _ _ _ _ (check_form_clause test body h1 Hbody)).
  cbn [first]. monad_simpl. rewrite Helse.
  rewrite (bind_ok _ _ _ _ _ Htest). monad_simpl.
  rewrite (bind_ok _ _ _ _ _ Htruth).
  cbn [second]. monad_simpl. destruct (is_nil body); by monad_simpl.
Qed.

(** X19.  The clause [(else b ...)] of [cond], after clauses whose tests
    evaluate to [False]: where it is the last clause, its body is
    evaluated under [begin] for the result, and an [else] without a body
    is an error; where a clause follows it, that is an error. *)
Theorem cond_else_clause n pre body post env h h1 :
  tests_false (scheme_optimized_eval n) env pre h h1 →
  scheme_optimized_eval (S n)
    (Pair (Sym "cond")
       (slist (pre ++ Pair (Sym "else") (slist body) :: post))) env h
  = match post, body with
    | _ :: _, _ => (Raise (SchemeError "else must be last"), h1)
    | [], [] => (Raise (SchemeError "badly formed else clause"), h1)
    | [], _ :: _ =>
        scheme_optimized_eval n (Pair (Sym "begin") (slist body)) env h1
    end.
Proof.
  intros Hpre. eval_form.
  rewrite (bind_cong_heap _ _ _ _ _ (do_cond_form_skip _ _ _ _ _ _ _ Hpre)).
  unfold cond_clause. monad_simpl.
  rewrite (bind_ok _ _ _ _ _
    (check_form_clause _ _ h1 (scheme_listp_slist body))).
  cbn [first]. monad_simpl. compute_is_str.
  rewrite length_app. cbn [List.length].
  destruct post as [|c post].
  - cbn [List.length].
    replace (List.length pre <? List.length pre + 1 - 1) with false
      by (symmetry; apply Nat.ltb_ge; lia).
    cbn [second]. monad_simpl.
    destruct body as [|b body]; [done|].
    cbn [slist is_nil]. monad_simpl. cbn [truth]. monad_simpl.
    cbn [second is_nil]. by monad_simpl.
  - replace (List.length pre <? List.length pre + S (List.length (c :: post)) - 1)
      with true by (symmetry; apply Nat.ltb_lt; simpl; lia).
    done.
Qed.

(** X20.  A clause of [cond] that is not a proper list, after clauses whose
    tests evaluate to [False], raises the plain [Exception] of
    [check_form]: it is not a [SchemeError]. *)
Theorem cond_clause_not_a_list n pre c post env h h1 :
  tests_false (scheme_optimized_eval n) env pre h h1 →
  scheme_listp c = false →
  scheme_optimized_eval (S n)
    (Pair (Sym "cond") (slist (pre ++ c :: post))) env h
  = (Raise (Exception "badly formed expression: %s" c), h1).
Proof.
  intros Hpre Hc. eval_form.
  rewrite (bind_cong_heap _ _ _ _ _ (do_cond_form_skip _ _ _ _ _ _ _ Hpre)).
  unfold cond_clause, check_form. rewrite Hc. reflexivity.
Qed.

(** X21.  [if] and [cond] do not test alike.  [if] takes for false the value
    [False] only; [cond] tests with Python's [if], which takes for false
    also zero, the empty list and the empty string.  On a test with such a
    value, [if] takes its first branch, and a [cond] whose only clause has
    this test takes no clause: evaluating it is an error. *)
Theorem cond_tests_as_python n test body a b env h v h1 :
  scheme_optimized_eval n test env h = (Ok v, h1) →
  scheme_true v = true →
  truth v h1 = (Ok false, h1) →
  is_str "else" test = false →
  scheme_listp body = true →
  scheme_optimized_eval (S n) (slist [Sym "if"; test; a; b]) env h
    = scheme_optimized_eval n a env h1
  ∧ scheme_optimized_eval (S n) (slist [Sym "cond"; Pair test body]) env h
    = (Raise (SchemeError "Cannot evaluate an undefined expression."), h1).
Proof.
  intros Htest Htrue Htruth Helse Hbody. split.
  - change (slist [Sym "if"; test; a; b])
      with (Pair (Sym "if") (slist [test; a; b])).
    eval_form. unfold do_if_form. monad_simpl.
    rewrite (bind_eq _ _ _ _ (check_form_slist [test; a; b] 3 (Some 3) h)).
    cbn [slist List.length Nat.ltb Nat.leb getitem Pair_getitem].
    monad_simpl. rewrite (bind_ok _ _ _ _ _ Htest). monad_simpl.
    rewrite Htrue. by monad_simpl.
  - change (slist [Sym "cond"; Pair test body])
      with (Pair (Sym "cond") (slist ([] ++ Pair test body :: []))).
    eval_form.
    rewrite (bind_cong_heap _ _ _ _ _
      (do_cond_form_skip _ _ [] _ [] _ _ (tests_false_nil _ _ h))).
    unfold cond_clause. monad_simpl.
    rewrite (bind_ok _ _ _ _ _ (check_form_clause test body h Hbody)).
    cbn [first]. monad_simpl. rewrite Helse.
    rewrite (bind_ok _ _ _ _ _ Htest). monad_simpl.
    rewrite (bind_ok _ _ _ _ _ Htruth). monad_simpl.
    cbn [List.length seq cond_loop]. monad_simpl.
    destruct n as [|n]; [done|]. reflexivity.
Qed.

(** **** [and], [or] *)

Section operands.
Context (ev : value Prim → Frame → M Prim (value Prim)) (env : Frame).
Context (P : value Prim → bool).

(** The expressions [es] are evaluated in [env] one after the other, from
    heap [h] to heap [h'], and the value of each satisfies [P]. *)
Inductive evaluate_all : list (value Prim) → heap Prim → heap Prim → Prop :=
  | evaluate_nil h : evaluate_all [] h h
  | evaluate_cons e es v h h1 h2 :
      ev e env h = (Ok v, h1) →
      P v = true →
      evaluate_all es h1 h2 →
      evaluate_all (e :: es) h h2.

Lemma evaluate_all_snoc es e h h2 :
  evaluate_all (es ++ [e]) h h2 →
  ∃ h1 v, evaluate_all es h h1 ∧ ev e env h1 = (Ok v, h2) ∧ P v = true.
Proof.
  revert h. induction es as [|x es IH]; intros h H.
  - inversion H as [|? ? v ? h1 ? He Hv Hnil]; subst.
    inversion Hnil; subst. exists h, v. split; [constructor|done].
  - inversion H as [|? ? v ? h1 ? He Hv Hes]; subst.
    destruct (IH _ Hes) as (h1' & v' & Hes' & He' & Hv').
    exists h1', v'. split; [by econstructor|done].
Qed.

End operands.

Lemma is_nil_slist (l : list (value Prim)) :
  is_nil (slist l) = match l with [] => true | _ => false end.
Proof. by destruct l. Qed.

Section and_or.
Context (ev : value Prim → Frame → M Prim (value Prim)) (env : Frame).

Lemma and_loop_cons e es h :
  and_loop ev (slist (e :: es)) env h
  = (v ← ev e env;
     if scheme_false v then ret e
     else match es with
          | [] => ret (Bool true)
          | [l] => ret l
          | _ => and_loop ev (slist es) env
          end) h.
Proof.
  cbn [slist and_loop].
  change (Pair e (slist es)) with (slist (e :: es)).
  rewrite (bind_ok _ _ _ _ _ (len_slist (e :: es) h)).
  cbn [List.length Nat.eqb]. apply bind_ext_ok. intros v h1 _.
  destruct (scheme_false v); [done|].
  rewrite (bind_ok _ _ _ _ _ (len_slist es h1)).
  by destruct es as [|l [|l' es]].
Qed.

Lemma or_loop_cons e es h :
  or_loop ev (slist (e :: es)) env h
  = (v ← ev e env;
     if scheme_true v then ret e
     else match es with
          | [] => ret (Bool false)
          | [l] => ret l
          | _ => or_loop ev (slist es) env
          end) h.
Proof.
  cbn [slist or_loop].
  change (Pair e (slist es)) with (slist (e :: es)).
  rewrite (bind_ok _ _ _ _ _ (len_slist (e :: es) h)).
  cbn [List.length Nat.eqb]. apply bind_ext_ok. intros v h1 _.
  destruct (scheme_true v); [done|].
  rewrite (bind_ok _ _ _ _ _ (len_slist es h1)).
  by destruct es as [|l [|l' es]].
Qed.

Lemma do_and_form_cons e es h :
  do_and_form ev (slist (e :: es)) env h
  = and_loop ev (slist (e :: es)) env h.
Proof.
  unfold do_and_form. by rewrite (bind_ok _ _ _ _ _ (len_slist (e :: es) h)).
Qed.

Lemma do_or_form_cons e es h :
  do_or_form ev (slist (e :: es)) env h
  = or_loop ev (slist (e :: es)) env h.
Proof.
  unfold do_or_form. by rewrite (bind_ok _ _ _ _ _ (len_slist (e :: es) h)).
Qed.

(** The loop goes past the operands that do not decide, as long as two or
    more operands are left. *)
Lemma and_loop_skip pre rest h h1 :
  evaluate_all ev env scheme_true pre h h1 →
  2 ≤ List.length rest →
  and_loop ev (slist (pre ++ rest)) env h = and_loop ev (slist rest) env h1.
Proof.
  intros H Hrest. induction H as [|e es v h h1 h2 He Hv _ IH]; [done|].
  cbn [app]. rewrite and_loop_cons, (bind_ok _ _ _ _ _ He).
  unfold scheme_true in Hv. apply negb_true_iff in Hv. rewrite Hv.
  destruct (es ++ rest) as [|x [|y l]] eqn:E.
  - apply (f_equal List.length) in E. rewrite length_app in E. simpl in E. lia.
  - apply (f_equal List.length) in E. rewrite length_app in E. simpl in E. lia.
  - apply IH.
Qed.

Lemma or_loop_skip pre rest h h1 :
  evaluate_all ev env scheme_false pre h h1 →
  2 ≤ List.length rest →
  or_loop ev (slist (pre ++ rest)) env h = or_loop ev (slist rest) env h1.
Proof.
  intros H Hrest. induction H as [|e es v h h1 h2 He Hv _ IH]; [done|].
  cbn [app]. rewrite or_loop_cons, (bind_ok _ _ _ _ _ He).
  unfold scheme_true. rewrite Hv. cbn [negb].
  destruct (es ++ rest) as [|x [|y l]] eqn:E.
  - apply (f_equal List.length) in E. rewrite length_app in E. simpl in E. lia.
  - apply (f_equal List.length) in E. rewrite length_app in E. simpl in E. lia.
  - apply IH.
Qed.

Lemma do_and_form_false pre e post h h1 v h2 :
  evaluate_all ev env scheme_true pre h h1 →
  ev e env h1 = (Ok v, h2) → scheme_true v = false →
  pre = [] ∨ post ≠ [] →
  do_and_form ev (slist (pre ++ e :: post)) env h = (Ok e, h2).
Proof.
  intros Hpre He Hv Hpos.
  unfold scheme_true in Hv. apply negb_false_iff in Hv.
  destruct (pre ++ e :: post) as [|x l] eqn:E; [by destruct pre|].
  rewrite do_and_form_cons, <-E. clear E.
  destruct post as [|p post].
  - destruct Hpos as [->|?]; [|done]. inversion Hpre; subst.
    cbn [app]. by rewrite and_loop_cons, (bind_ok _ _ _ _ _ He), Hv.
  - rewrite (and_loop_skip _ _ _ _ Hpre) by (simpl; lia).
    by rewrite and_loop_cons, (bind_ok _ _ _ _ _ He), Hv.
Qed.

Lemma do_or_form_true pre e post h h1 v h2 :
  evaluate_all ev env scheme_false pre h h1 →
  ev e env h1 = (Ok v, h2) → scheme_false v = false →
  pre = [] ∨ post ≠ [] →
  do_or_form ev (slist (pre ++ e :: post)) env h = (Ok e, h2).
Proof.
  intros Hpre He Hv Hpos.
  assert (scheme_true v = true) as Hv' by (unfold scheme_true; by rewrite Hv).
  clear Hv. rename Hv' into Hv.
  destruct (pre ++ e :: post) as [|x l] eqn:E; [by destruct pre|].
  rewrite do_or_form_cons, <-E. clear E.
  destruct post as [|p post].
  - destruct Hpos as [->|?]; [|done]. inversion Hpre; subst.
    cbn [app]. by rewrite or_loop_cons, (bind_ok _ _ _ _ _ He), Hv.
  - rewrite (or_loop_skip _ _ _ _ Hpre) by (simpl; lia).
    by rewrite or_loop_cons, (bind_ok _ _ _ _ _ He), Hv.
Qed.

Lemma do_and_form_last pre l h h1 :
  evaluate_all ev env scheme_true pre h h1 → pre ≠ [] →
  do_and_form ev (slist (pre ++ [l])) env h = (Ok l, h1).
Proof.
  intros Hpre Hne.
  destruct (pre ++ [l]) as [|x xs] eqn:E; [by destruct pre|].
  rewrite do_and_form_cons, <-E. clear E.
  destruct (exists_last Hne) as (pre' & p & ->).
  apply evaluate_all_snoc in Hpre as (h' & v & Hpre' & Hp & Hv).
  rewrite <-app_assoc. cbn [app].
  rewrite (and_loop_skip _ _ _ _ Hpre') by (simpl; lia).
  rewrite and_loop_cons, (bind_ok _ _ _ _ _ Hp).
  unfold scheme_true in Hv. apply negb_true_iff in Hv. by rewrite Hv.
Qed.

Lemma do_or_form_last pre l h h1 :
  evaluate_all ev env scheme_false pre h h1 → pre ≠ [] →
  do_or_form ev (slist (pre ++ [l])) env h = (Ok l, h1).
Proof.
  intros Hpre Hne.
  destruct (pre ++ [l]) as [|x xs] eqn:E; [by destruct pre|].
  rewrite do_or_form_cons, <-E. clear E.
  destruct (exists_last Hne) as (pre' & p & ->).
  apply evaluate_all_snoc in Hpre as (h' & v & Hpre' & Hp & Hv).
  rewrite <-app_assoc. cbn [app].
  rewrite (or_loop_skip _ _ _ _ Hpre') by (simpl; lia).
  rewrite or_loop_cons, (bind_ok _ _ _ _ _ Hp).
  unfold scheme_true. by rewrite Hv.
Qed.

End and_or.

(** [and] and [or], each with the test for going on to the next operand:
    [and] goes on from a value that is not [False], [or] from [False]. *)
Definition connective (name : string) (go_on : value Prim → bool) : Prop :=
  (name = "and" ∧ go_on = scheme_true)
  ∨ (name = "or" ∧ go_on = scheme_false).

(** X22.  The operand that decides an [and] or an [or] is evaluated twice.
    The operands before it are evaluated and let the form go on; it is
    evaluated and stops the form ([False] for [and], anything else for
    [or]); the value of the form is what it evaluates to the second time,
    in the heap as its first evaluation left it.  (This is for an operand
    that is not the last of two or more.) *)
Theorem deciding_operand_twice n name go_on pre e post env h h1 v h2 :
  connective name go_on →
  evaluate_all (scheme_optimized_eval n) env go_on pre h h1 →
  scheme_optimized_eval n e env h1 = (Ok v, h2) →
  go_on v = false →
  pre = [] ∨ post ≠ [] →
  scheme_optimized_eval (S n) (Pair (Sym name) (slist (pre ++ e :: post)))
    env h
  = scheme_optimized_eval n e env h2.
Proof.
  intros [[-> ->]|[-> ->]] Hpre He Hv Hpos; eval_form.
  - by rewrite (bind_ok _ _ _ _ _
      (do_and_form_false _ _ _ _ _ _ _ _ _ Hpre He Hv Hpos)).
  - by rewrite (bind_ok _ _ _ _ _
      (do_or_form_true _ _ _ _ _ _ _ _ _ Hpre He Hv Hpos)).
Qed.

(** X23.  The last of two or more operands of [and] and of [or] is evaluated
    once, for the value of the form, when the operands before it have
    been evaluated and let the form go on. *)
Theorem last_operand_once n name go_on pre l env h h1 :
  connective name go_on →
  evaluate_all (scheme_optimized_eval n) env go_on pre h h1 →
  pre ≠ [] →
  scheme_optimized_eval (S n) (Pair (Sym name) (slist (pre ++ [l]))) env h
  = scheme_optimized_eval n l env h1.
Proof.
  intros [[-> ->]|[-> ->]] Hpre Hne; eval_form.
  - by rewrite (bind_ok _ _ _ _ _ (do_and_form_last _ _ _ _ _ _ Hpre Hne)).
  - by rewrite (bind_ok _ _ _ _ _ (do_or_form_last _ _ _ _ _ _ Hpre Hne)).
Qed.

(** X24.  [and] with one operand whose value is not [False] evaluates to
    [True], not to that value; [(and)] evaluates to [True]. *)
Theorem and_one_operand n e env h v h1 :
  scheme_optimized_eval n e env h = (Ok v, h1) →
  scheme_true v = true →
  scheme_optimized_eval (S n) (slist [Sym "and"; e]) env h
    = (Ok (Bool true), h1)
  ∧ scheme_optimized_eval (S n) (slist [Sym "and"]) env h
    = (Ok (Bool true), h).
Proof.
  intros He Hv.
  assert (∃ m, n = S m) as [m ->] by (destruct n; [done|by eexists]).
  split.
  - change (slist [Sym "and"; e]) with (Pair (Sym "and") (slist [e])).
    eval_form. change (Pair e Nil) with (slist [e]).
    rewrite (bind_cong_l _ _ _ _ (do_and_form_cons _ _ e [] h)).
    rewrite (bind_cong_l _ _ _ _ (and_loop_cons _ _ e [] h)).
    monad_simpl. rewrite (bind_ok _ _ _ _ _ He).
    unfold scheme_true in Hv. apply negb_true_iff in Hv. by rewrite Hv.
  - change (slist [Sym "and"]) with (Pair (Sym "and") (@slist Prim [])).
    by eval_form.
Qed.

(** **** Calls *)

(** The names that the evaluator takes for a special form. *)
Definition special_form (x : value Prim) : bool :=
  existsb (λ s, is_str s x)
    ["and"; "or"; "if"; "cond"; "begin";
     "lambda"; "mu"; "define"; "quote"; "let"].

Definition is_procedure (x : value Prim) : bool :=
  match x with
  | PrimitiveProcedure _ _ | LambdaProcedure _ _ _ | MuProcedure _ _ => true
  | _ => false
  end.

Lemma map_eval_slist ev (es : list (value Prim)) env h :
  map_eval ev (slist es) env h
  = (vs ← eval_all ev es env; ret (slist vs)) h.
Proof.
  revert h. induction es as [|e es IH]; intros h; [done|].
  cbn [slist map_eval eval_all]. monad_simpl.
  apply bind_ext_ok. intros v h1 _.
  replace (is_nil (slist es) || is_pair (slist es)) with true
    by (by destruct es).
  rewrite (bind_cong_l _ _ _ _ (IH h1)). by monad_simpl.
Qed.

Lemma py_list_slist (args : list (value Prim)) h :
  py_list (slist args) h = (Ok args, h).
Proof.
  revert h. induction args as [|a args IH]; intros h; [done|].
  cbn [slist py_list]. by rewrite (bind_ok _ _ _ _ _ (IH h)).
Qed.

(** The evaluator on a combination that is not a special form: the
    operator is evaluated, then the operands from left to right. *)
Lemma eval_combination n f es env h :
  special_form f = false →
  scheme_optimized_eval (S n) (Pair f (slist es)) env h
  = (procedure ← scheme_optimized_eval n f env;
     args ← eval_all (scheme_optimized_eval n) es env;
     match procedure with
     | PrimitiveProcedure fn use_env =>
         try_call call fn args (if use_env then Some env else None)
     | LambdaProcedure formals body penv =>
         env ← make_call_frame penv formals (slist args);
         scheme_optimized_eval n body env
     | MuProcedure formals body =>
         env ← make_call_frame env formals (slist args);
         scheme_optimized_eval n body env
     | _ => raise (SchemeErrorOn "Cannot call " procedure)
     end) h.
Proof.
  intros Hf. rewrite scheme_optimized_eval_S.
  unfold optimized_eval_body. cbn [scheme_atomp scheme_listp].
  rewrite scheme_listp_slist. cbn [negb first second]. monad_simpl.
  unfold special_form in Hf. cbn [existsb] in Hf.
  repeat (apply orb_false_elim in Hf as [? Hf]).
  unfold LOGIC_FORMS.
  repeat match goal with H : is_str _ f = false |- _ => rewrite H; clear H end.
  apply bind_ext_ok. intros procedure h1 _.
  rewrite (bind_cong_l _ _ _ _ (map_eval_slist _ es env h1)). monad_simpl.
  apply bind_ext_ok. intros args h2 _. monad_simpl.
  destruct procedure; try done.
  unfold apply_primitive. by rewrite (bind_ok _ _ _ _ _ (py_list_slist args h2)).
Qed.

(** X25.  A [lambda] expression whose parameters are distinct symbols, with a
    body, evaluates to the procedure with these parameters, this body
    (under [begin] when it has more than one expression) and the frame of
    the evaluation; a [mu] expression to the procedure without a frame.
    Nothing of the body is evaluated, and the heap is left as it is. *)
Theorem lambda_evaluation n names body env h :
  NoDup names → body ≠ [] →
  scheme_optimized_eval (S n)
    (Pair (Sym "lambda") (slist (slist (Sym <$> names) :: body))) env h
  = (Ok (LambdaProcedure (slist (Sym <$> names)) (procedure_body body) env), h)
  ∧ scheme_optimized_eval (S n)
      (Pair (Sym "mu") (slist (slist (Sym <$> names) :: body))) env h
    = (Ok (MuProcedure (slist (Sym <$> names)) (procedure_body body)), h).
Proof. apply eval_lambda_form. Qed.

(** X26.  A combination whose operator evaluates to something that is not a
    procedure is an error, "Cannot call", which is raised after the
    operands have been evaluated. *)
Theorem call_non_procedure n f es env h v h1 args h2 :
  special_form f = false →
  scheme_optimized_eval n f env h = (Ok v, h1) →
  eval_all (scheme_optimized_eval n) es env h1 = (Ok args, h2) →
  is_procedure v = false →
  scheme_optimized_eval (S n) (Pair f (slist es)) env h
  = (Raise (SchemeErrorOn "Cannot call " v), h2).
Proof.
  intros Hf Hv Hargs Hp. rewrite eval_combination by done.
  rewrite (bind_ok _ _ _ _ _ Hv), (bind_ok _ _ _ _ _ Hargs).
  by destruct v.
Qed.

Lemma eval_symbol n x env h :
  scheme_optimized_eval (S n) (Sym x) env h
  = (match Frame_lookup h x env with
     | Some v => Ok v
     | None => Raise (SchemeErrorOn "unknown identifier: " (Sym x))
     end, h).
Proof.
  rewrite scheme_optimized_eval_S. cbn [optimized_eval_body].
  unfold lookup. by destruct (Frame_lookup h x env).
Qed.

Lemma call_with_symbol_body n frame names args y (h : heap Prim) :
  NoDup names → List.length names ≤ List.length args → y ∉ names →
  allocated h frame →
  (new ← make_call_frame frame (slist (Sym <$> names)) (slist args);
   scheme_optimized_eval (S n) (Sym y) new) h
  = (match Frame_lookup h y frame with
     | Some v => Ok v
     | None => Raise (SchemeErrorOn "unknown identifier: " (Sym y))
     end, h ++ [call_bindings names args]).
Proof.
  intros Hnd Hlen Hy Ha.
  destruct (make_call_frame_lookups frame names args h Hnd Hlen Ha)
    as (new & h' & Hm & _ & Hother & _).
  pose proof Hm as Hm'. rewrite make_call_frame_slist in Hm'.
  apply Nat.leb_le in Hlen. rewrite Hlen in Hm'. simplify_eq.
  rewrite (bind_ok _ _ _ _ _ Hm), eval_symbol. by rewrite Hother.
Qed.

(** X27.  Static and dynamic scope.  In the body of a procedure, a symbol
    that is not a parameter is looked up, for a [lambda] procedure, in the
    frame where the procedure was made, whatever the frame of the call, and
    for a [mu] procedure, in the frame of the call. *)
Theorem scope_of_free_symbol n f es env h procedure frame names y h1 args h2 :
  special_form f = false →
  scheme_optimized_eval (S n) f env h = (Ok procedure, h1) →
  eval_all (scheme_optimized_eval (S n)) es env h1 = (Ok args, h2) →
  procedure = LambdaProcedure (slist (Sym <$> names)) (Sym y) frame
  ∨ (procedure = MuProcedure (slist (Sym <$> names)) (Sym y) ∧ frame = env) →
  NoDup names → List.length names ≤ List.length args → y ∉ names →
  allocated h2 frame →
  scheme_optimized_eval (S (S n)) (Pair f (slist es)) env h
  = (match Frame_lookup h2 y frame with
     | Some v => Ok v
     | None => Raise (SchemeErrorOn "unknown identifier: " (Sym y))
     end, h2 ++ [call_bindings names args]).
Proof.
  intros Hf Hp Hargs Hproc Hnd Hlen Hy Ha. rewrite eval_combination by done.
  rewrite (bind_ok _ _ _ _ _ Hp), (bind_ok _ _ _ _ _ Hargs).
  destruct Hproc as [->|[-> ->]]; by apply call_with_symbol_body.
Qed.

(** **** The global frame *)

(** X28.  [global_frame] returns the frame at the root of the chain, which
    has no parent; what is bound there is bound for every frame of the
    chain, to that value or to one that a frame on the way gives it. *)
Theorem global_frame_root env :
  (∃ i, global_frame env = mkFrame i None)
  ∧ ∀ (h : heap Prim) s v,
      Frame_lookup h s (global_frame env) = Some v →
      is_Some (Frame_lookup h s env).
Proof.
  induction env as [i|i up [[j Hj] IH]] using Frame_chain_ind.
  - split; [by exists i|]. intros h s v H. by exists v.
  - split; [by exists j|]. intros h s v H. cbn [global_frame] in H.
    cbn [Frame_lookup].
    destruct (default ∅ (h !! i) !! s) as [w|]; [by exists w|].
    by eapply IH.
Qed.

(** **** Runs that come to the same

    [m2] returns or raises what [m1] does, unless what [m1] comes to is
    one of the results [stuck]: the ones of a run that was stopped, by its
    bound or by the stack. *)
Definition carries_over_unless (stuck : ∀ A, result (exn Prim) A → Prop)
    {A} (m1 m2 : M Prim A) : Prop :=
  ∀ h r h', m1 h = (r, h') → ¬ stuck A r → m2 h = (r, h').

Section carries_over.
Context (stuck : ∀ A, result (exn Prim) A → Prop).
Hypothesis stuck_Ok : ∀ A (a : A), ¬ stuck A (Ok a).
Hypothesis stuck_Raise : ∀ A B e, stuck B (Raise e) → stuck A (Raise e).
Hypothesis stuck_Timeout : ∀ A B, stuck B Timeout → stuck A Timeout.

#[local] Abbreviation carries_over := (carries_over_unless stuck).

Lemma carries_over_unless_refl {A} (m : M Prim A) : carries_over m m.
Proof. by intros h r h' H _. Qed.

Lemma carries_over_unless_bind {A B} (m1 m2 : M Prim A)
    (k1 k2 : A → M Prim B) :
  carries_over m1 m2 → (∀ a, carries_over (k1 a) (k2 a)) →
  carries_over (m1 ≫= k1) (m2 ≫= k2).
Proof.
  intros Hm Hk h r h' H Hr. unfold mbind, M_bind, bnd in *.
  destruct (m1 h) as [[a|e|] h1] eqn:E.
  - rewrite (Hm _ _ _ E) by apply stuck_Ok. by apply Hk.
  - simplify_eq. rewrite (Hm _ _ _ E); [done|].
    intros ?. by eapply Hr, stuck_Raise.
  - simplify_eq. rewrite (Hm _ _ _ E); [done|].
    intros ?. by eapply Hr, stuck_Timeout.
Qed.

#[local] Abbreviation carries_over_refl := carries_over_unless_refl.
#[local] Abbreviation carries_over_bind := carries_over_unless_bind.

Context (ev1 ev2 : value Prim → Frame → M Prim (value Prim)).
Hypothesis ev_carries_over : ∀ e env, carries_over (ev1 e env) (ev2 e env).

Ltac carries_over_step :=
  first
    [ apply carries_over_refl
    | apply ev_carries_over
    | apply carries_over_bind; [|intros]
    | match goal with
      | |- carries_over (if ?b then _ else _) _ => destruct b
      | |- carries_over (match ?v with _ => _ end) _ => destruct v
      | |- carries_over (let (_, _) := ?v in _) _ => destruct v
      end ].

Lemma for_each_carries_over {A} (xs : list A) (b1 b2 : A → M Prim ()) :
  (∀ x, carries_over (b1 x) (b2 x)) → carries_over (for_each xs b1) (for_each xs b2).
Proof.
  intros Hb. induction xs as [|x xs IH]; [apply carries_over_refl|].
  cbn [for_each]. apply carries_over_bind; [apply Hb|]. intros. apply IH.
Qed.

Lemma eval_all_carries_over es env :
  carries_over (eval_all ev1 es env) (eval_all ev2 es env).
Proof.
  induction es as [|e es IH]; [apply carries_over_refl|].
  cbn [eval_all]. repeat first [apply IH | carries_over_step].
Qed.

Lemma do_define_form_carries_over vals env :
  carries_over (do_define_form ev1 vals env) (do_define_form ev2 vals env).
Proof. unfold do_define_form. repeat carries_over_step. Qed.

Lemma let_bindings_carries_over bindings names values env :
  carries_over (let_bindings ev1 bindings names values env)
          (let_bindings ev2 bindings names values env).
Proof.
  revert names values.
  induction bindings as [| | | | | |k _ rest IH| | |]; intros names values;
    try apply carries_over_refl.
  cbn [let_bindings]. repeat first [apply IH | carries_over_step].
Qed.

Lemma do_let_form_carries_over vals env :
  carries_over (do_let_form ev1 vals env) (do_let_form ev2 vals env).
Proof.
  unfold do_let_form.
  repeat first
    [ apply let_bindings_carries_over
    | apply for_each_carries_over; intros
    | carries_over_step ].
Qed.

Lemma do_if_form_carries_over vals env :
  carries_over (do_if_form ev1 vals env) (do_if_form ev2 vals env).
Proof. unfold do_if_form. repeat carries_over_step. Qed.

Lemma and_loop_carries_over vals env :
  carries_over (and_loop ev1 vals env) (and_loop ev2 vals env).
Proof.
  induction vals as [| | | | | |a _ rest IH| | |]; try apply carries_over_refl.
  cbn [and_loop]. repeat first [apply IH | carries_over_step].
Qed.

Lemma do_and_form_carries_over vals env :
  carries_over (do_and_form ev1 vals env) (do_and_form ev2 vals env).
Proof.
  unfold do_and_form. repeat first [apply and_loop_carries_over | carries_over_step].
Qed.

Lemma or_loop_carries_over vals env :
  carries_over (or_loop ev1 vals env) (or_loop ev2 vals env).
Proof.
  induction vals as [| | | | | |a _ rest IH| | |]; try apply carries_over_refl.
  cbn [or_loop]. repeat first [apply IH | carries_over_step].
Qed.

Lemma do_or_form_carries_over vals env :
  carries_over (do_or_form ev1 vals env) (do_or_form ev2 vals env).
Proof.
  unfold do_or_form. repeat first [apply or_loop_carries_over | carries_over_step].
Qed.

Lemma cond_clause_carries_over num_clauses i clause env :
  carries_over (cond_clause ev1 num_clauses i clause env)
          (cond_clause ev2 num_clauses i clause env).
Proof. unfold cond_clause. repeat carries_over_step. Qed.

Lemma cond_loop_carries_over vals num_clauses indices env :
  carries_over (cond_loop ev1 vals num_clauses indices env)
          (cond_loop ev2 vals num_clauses indices env).
Proof.
  induction indices as [|i indices IH]; [apply carries_over_refl|].
  cbn [cond_loop].
  repeat first [apply IH | apply cond_clause_carries_over | carries_over_step].
Qed.

Lemma do_cond_form_carries_over vals env :
  carries_over (do_cond_form ev1 vals env) (do_cond_form ev2 vals env).
Proof.
  unfold do_cond_form. repeat first [apply cond_loop_carries_over | carries_over_step].
Qed.

Lemma do_begin_form_carries_over vals env :
  carries_over (do_begin_form ev1 vals env) (do_begin_form ev2 vals env).
Proof.
  induction vals as [| | | | | |a _ rest IH| | |]; try apply carries_over_refl.
  cbn [do_begin_form]. repeat first [apply IH | carries_over_step].
Qed.

Lemma map_eval_carries_over rest env :
  carries_over (map_eval ev1 rest env) (map_eval ev2 rest env).
Proof.
  induction rest as [| | | | | |a _ rest IH| | |]; try apply carries_over_refl.
  cbn [map_eval]. repeat first [apply IH | carries_over_step].
Qed.

Lemma LOGIC_FORMS_carries_over name :
  match LOGIC_FORMS ev1 name, LOGIC_FORMS ev2 name with
  | Some form1, Some form2 =>
      ∀ rest env, carries_over (form1 rest env) (form2 rest env)
  | None, None => True
  | _, _ => False
  end.
Proof.
  unfold LOGIC_FORMS.
  repeat match goal with
  | |- context [if ?b then _ else _] => destruct b
  end;
  auto using do_and_form_carries_over, do_or_form_carries_over, do_if_form_carries_over,
    do_cond_form_carries_over, do_begin_form_carries_over.
Qed.

(** One turn of the loop: [ev1] and [ev2] are what a call comes to,
    [go_on1] and [go_on2] what the next turn comes to. *)
Lemma optimized_eval_body_carries_over go_on1 go_on2 expr env :
  (∀ e env, carries_over (go_on1 e env) (go_on2 e env)) →
  carries_over (optimized_eval_body call ev1 go_on1 expr env)
          (optimized_eval_body call ev2 go_on2 expr env).
Proof.
  intros go_on_carries_over. unfold optimized_eval_body.
  destruct expr; try apply carries_over_refl;
    (destruct (scheme_atomp _); [apply carries_over_refl|]);
    (destruct (negb _); [apply carries_over_refl|]);
    (apply carries_over_bind; [apply carries_over_refl|]; intros first);
    (apply carries_over_bind; [apply carries_over_refl|]; intros rest);
    (pose proof (LOGIC_FORMS_carries_over first) as Hforms;
     destruct (LOGIC_FORMS ev1 first), (LOGIC_FORMS ev2 first); try done;
     [apply carries_over_bind; [apply Hforms|intros; apply go_on_carries_over]|]);
    repeat first
      [ apply do_define_form_carries_over
      | apply do_let_form_carries_over
      | apply map_eval_carries_over
      | apply go_on_carries_over
      | carries_over_step ].
Qed.

End carries_over.

(** **** A larger bound does not change a result *)

(** The result of a run that its bound [n] has stopped. *)
Definition out_of_bound (A : Type) (r : result (exn Prim) A) : Prop :=
  r = Timeout.

(** [m2] returns or raises what [m1] does, whenever [m1] returns or
    raises. *)
Definition carries_over {A} (m1 m2 : M Prim A) : Prop :=
  carries_over_unless out_of_bound m1 m2.

Lemma out_of_bound_Ok A (a : A) : ¬ out_of_bound A (Ok a).
Proof. done. Qed.

Lemma out_of_bound_Raise A B e :
  out_of_bound B (Raise e) → out_of_bound A (Raise e).
Proof. done. Qed.

Lemma out_of_bound_Timeout A B :
  out_of_bound B Timeout → out_of_bound A Timeout.
Proof. done. Qed.

Ltac stopped_by_bound :=
  first [ exact out_of_bound_Ok | exact out_of_bound_Raise
        | exact out_of_bound_Timeout | assumption ].

Lemma carries_over_refl {A} (m : M Prim A) : carries_over m m.
Proof. apply carries_over_unless_refl. Qed.

Lemma carries_over_bind {A B} (m1 m2 : M Prim A) (k1 k2 : A → M Prim B) :
  carries_over m1 m2 → (∀ a, carries_over (k1 a) (k2 a)) →
  carries_over (m1 ≫= k1) (m2 ≫= k2).
Proof.
  intros. apply carries_over_unless_bind; stopped_by_bound.
Qed.

Lemma for_each_larger_bound {A} (xs : list A) (b1 b2 : A → M Prim ()) :
  (∀ x, carries_over (b1 x) (b2 x)) →
  carries_over (for_each xs b1) (for_each xs b2).
Proof.
  intros. apply for_each_carries_over; stopped_by_bound.
Qed.

Lemma eval_all_larger_bound ev1 ev2 es env :
  (∀ e env, carries_over (ev1 e env) (ev2 e env)) →
  carries_over (eval_all ev1 es env) (eval_all ev2 es env).
Proof.
  intros. apply eval_all_carries_over; stopped_by_bound.
Qed.

Lemma scheme_optimized_eval_S_carries_over n expr env :
  carries_over (scheme_optimized_eval n expr env)
          (scheme_optimized_eval (S n) expr env).
Proof.
  revert expr env. induction n as [|n IH]; intros expr env.
  - by intros h r h' [= <- _] ?.
  - rewrite (scheme_optimized_eval_S call n).
    rewrite (scheme_optimized_eval_S call (S n)).
    apply optimized_eval_body_carries_over; stopped_by_bound.
Qed.

Lemma scheme_optimized_eval_mono n m expr env h r h' :
  scheme_optimized_eval n expr env h = (r, h') → r ≠ Timeout → n ≤ m →
  scheme_optimized_eval m expr env h = (r, h').
Proof.
  intros H Hr Hle. induction Hle as [|m _ IH]; [done|].
  by apply scheme_optimized_eval_S_carries_over.
Qed.

(** **** The recursive evaluator and the trampolined one *)

(** The result of a run that the stack has stopped, and of one that the
    stack or its bound has stopped. *)
Definition out_of_stack (A : Type) (r : result (exn Prim) A) : Prop :=
  r = Raise RecursionError.

Definition stopped (A : Type) (r : result (exn Prim) A) : Prop :=
  r = Timeout ∨ r = Raise RecursionError.

Lemma scheme_optimized_eval_on_stack_S d n expr env :
  scheme_optimized_eval_on_stack (S d) (S n) expr env
  = optimized_eval_body call (scheme_optimized_eval_on_stack d n)
      (scheme_optimized_eval_on_stack (S d) n) expr env.
Proof. reflexivity. Qed.

(** What the recursive evaluator comes to on a stack that it does not use
    up, the trampolined one comes to on every stack that is as deep. *)
Lemma scheme_eval_on_stack d d' n expr env :
  d ≤ d' → d ≤ n →
  carries_over_unless out_of_stack (scheme_eval d expr env)
    (scheme_optimized_eval_on_stack d' n expr env).
Proof.
  revert d' n expr env. induction d as [|d IH]; intros d' n expr env Hd Hn.
  - intros h r h' [= <- <-] Hr. by destruct Hr.
  - destruct d' as [|d'], n as [|n]; try lia.
    intros h r h' H.
    rewrite (scheme_eval_S call),
      (eval_body_same call (scheme_eval d) (scheme_eval d)) in H by done.
    revert h r h' H. rewrite scheme_optimized_eval_on_stack_S.
    apply optimized_eval_body_carries_over; try done.
    + by intros A B e [= ->].
    + intros e env'. apply IH; lia.
    + intros e env'. apply IH; lia.
Qed.

(** What the trampolined evaluator comes to within [n] turns and calls,
    without using up its stack, the recursive one comes to on every stack
    of [n] levels or more. *)
Lemma scheme_eval_deep_stack n d d' expr env :
  n ≤ d' →
  carries_over_unless stopped (scheme_optimized_eval_on_stack d n expr env)
    (scheme_eval d' expr env).
Proof.
  revert d d' expr env. induction n as [|n IH]; intros d d' expr env Hd'.
  - intros h r h' H Hr. destruct Hr.
    destruct d; cbn in H; unfold raise, timeout in H; simplify_eq;
      [by right|by left].
  - destruct d as [|d].
    { intros h r h' [= <- <-] Hr. destruct Hr. by right. }
    destruct d' as [|d']; [lia|].
    intros h r h' H Hr.
    rewrite (scheme_eval_S call),
      (eval_body_same call (scheme_eval d') (scheme_eval d')) by done.
    revert h r h' H Hr. rewrite scheme_optimized_eval_on_stack_S.
    apply optimized_eval_body_carries_over.
    + by intros A a [|].
    + intros A B e [|[= ->]]; [done|by right].
    + intros A B _. by left.
    + intros e env'. apply IH; lia.
    + intros e env'. apply IH; lia.
Qed.

(** C10.  The two evaluators come to the same thing, the same value or
    the same exception and the same heap, as far as the stack of the host
    lets them.  What the recursive evaluator returns or raises on a stack
    of [d] levels, the trampolined one returns or raises on that stack too,
    with any bound from [d] on; and what the trampolined evaluator returns
    or raises within [n] turns and calls, on any stack, the recursive one
    returns or raises on every stack of [n] levels or more.  A
    [RecursionError] is not among these results: the recursive evaluator
    raises it where the trampolined one goes on. *)
Theorem scheme_eval_optimized expr env h r h' :
  r ≠ Timeout → r ≠ Raise RecursionError →
  (∀ d, scheme_eval d expr env h = (r, h') →
     ∀ n, d ≤ n → scheme_optimized_eval_on_stack d n expr env h = (r, h'))
  ∧ (∀ d n, scheme_optimized_eval_on_stack d n expr env h = (r, h') →
       ∀ d', n ≤ d' → scheme_eval d' expr env h = (r, h')).
Proof.
  intros Ht Hs. split.
  - intros d H n Hn. by eapply (scheme_eval_on_stack d d n).
  - intros d n H d' Hd'. eapply (scheme_eval_deep_stack n d d'); [done..|].
    by intros [|].
Qed.

(** A stack that is deeper than the bound is as deep as needed. *)
Lemma scheme_optimized_eval_deep_stack n d expr env h :
  n ≤ d →
  scheme_optimized_eval_on_stack (S d) n expr env h
  = scheme_optimized_eval n expr env h.
Proof.
  revert d expr env h. induction n as [|n IH]; intros d expr env h Hd; [done|].
  destruct d as [|d]; [lia|].
  rewrite scheme_optimized_eval_on_stack_S, scheme_optimized_eval_S.
  destruct (optimized_eval_body call (scheme_optimized_eval_on_stack (S d) n)
              (scheme_optimized_eval_on_stack (S (S d)) n) expr env h)
    as [r h'] eqn:H.
  symmetry. revert H.
  assert (carries_over_unless (λ _ _, False)
            (optimized_eval_body call
               (scheme_optimized_eval_on_stack (S d) n)
               (scheme_optimized_eval_on_stack (S (S d)) n) expr env)
            (optimized_eval_body call (scheme_optimized_eval n)
               (scheme_optimized_eval n) expr env)) as Hsame.
  { apply optimized_eval_body_carries_over; try done.
    - tauto.
    - intros e env' h0 r0 h0' H0 _. rewrite <-H0. symmetry. apply IH. lia.
    - intros e env' h0 r0 h0' H0 _. rewrite <-H0. symmetry. apply IH. lia. }
  intros H. apply (Hsame _ _ _ H). tauto.
Qed.

(** [k] forms [if] one in the other, each the last thing that the one
    around it evaluates: [(if #t (if #t ... 1 ... 0) 0)]. *)
Fixpoint tail_nest (k : nat) : value Prim :=
  match k with
  | 0 => Num 1
  | S k' => slist [Sym "if"; Bool true; tail_nest k'; Num 0]
  end.

(** The recursive evaluator takes a level of the stack for each of them. *)
Lemma scheme_eval_tail_nest d k env h :
  d ≤ k → scheme_eval d (tail_nest k) env h = (Raise RecursionError, h).
Proof.
  revert k. induction d as [|[|d] IH]; intros k Hk; [done| |].
  - destruct k as [|k]; [lia|]. reflexivity.
  - destruct k as [|k]; [lia|].
    change (scheme_eval (S (S d)) (tail_nest (S k)) env h)
      with (scheme_eval (S d) (tail_nest k) env h).
    apply IH. lia.
Qed.

(** The trampolined evaluator takes a turn of its loop for each of them,
    and one level of the stack above its own for the tests. *)
Lemma scheme_optimized_eval_tail_nest d n k env h :
  k < n →
  scheme_optimized_eval_on_stack (S (S d)) n (tail_nest k) env h
  = (Ok (Num 1), h).
Proof.
  revert n. induction k as [|k IH]; intros n Hn.
  - destruct n as [|n]; [lia|]. reflexivity.
  - destruct n as [|[|n]]; [lia..|].
    change (scheme_optimized_eval_on_stack (S (S d)) (S (S n))
              (tail_nest (S k)) env h)
      with (scheme_optimized_eval_on_stack (S (S d)) (S n)
              (tail_nest k) env h).
    apply IH. lia.
Qed.

(** **** [let] and [lambda] *)

Definition carries_over_at {A} (h : heap Prim) (m1 m2 : M Prim A) : Prop :=
  ∀ r h', m1 h = (r, h') → r ≠ Timeout → m2 h = (r, h').

Lemma carries_over_at_bind {A B} h (m1 m2 : M Prim A) (k1 k2 : A → M Prim B) :
  carries_over_at h m1 m2 →
  (∀ a h1, m1 h = (Ok a, h1) → carries_over_at h1 (k1 a) (k2 a)) →
  carries_over_at h (m1 ≫= k1) (m2 ≫= k2).
Proof.
  intros Hm Hk r h' H Hr. unfold mbind, M_bind, bnd in *.
  destruct (m1 h) as [[a|e|] h1] eqn:E.
  - rewrite (Hm _ _ E) by done. by eapply Hk.
  - rewrite (Hm _ _ E) by done. done.
  - by simplify_eq.
Qed.

Lemma call_bindings_list_to_map names (vs : list (value Prim)) :
  NoDup names → call_bindings names vs = list_to_map (zip names vs).
Proof.
  unfold call_bindings. intros Hnd.
  assert (∀ d : gmap string (value Prim),
    foldl (λ b p, <[p.1 := p.2]> b) d (zip names vs)
    = list_to_map (zip names vs) ∪ d) as H.
  { revert vs. induction Hnd as [|x names Hx Hnd IH]; intros vs d.
    - cbn. by rewrite (left_id_L ∅ (∪)).
    - destruct vs as [|v vs]; [cbn; by rewrite (left_id_L ∅ (∪))|].
      cbn [zip zip_with foldl list_to_map foldr fst snd].
      rewrite IH. rewrite <-insert_union_l. symmetry.
      apply insert_union_r. apply not_elem_of_list_to_map_1.
      intros Hin. apply Hx.
      apply list_elem_of_fmap in Hin as ([y w] & -> & Hin).
      by apply elem_of_zip_l in Hin. }
  by rewrite H, (right_id_L ∅ (∪)).
Qed.

Lemma eval_let_form n bs body env h :
  body ≠ [] →
  scheme_optimized_eval (S n) (let_form bs body) env h
  = let_spec (scheme_optimized_eval n) bs body env h.
Proof.
  intros Hbody. rewrite scheme_optimized_eval_S.
  unfold optimized_eval_body, let_form.
  cbn [scheme_atomp scheme_listp]. rewrite scheme_listp_slist.
  cbn [negb first second]. rewrite !bind_ret.
  unfold LOGIC_FORMS. compute_is_str.
  rewrite (bind_cong_l _ _ _ _ (do_let_form_slist _ _ _ _ _ Hbody)).
  unfold let_spec. rewrite bind_assoc.
  apply bind_ext_ok. intros vs h1 _. rewrite bind_assoc.
  apply bind_ext_ok. intros new h2 _. rewrite bind_assoc.
  apply bind_ext_ok. intros [] h3 _. by rewrite bind_ret.
Qed.

(** The combination [((lambda (x1 ... xk) b1 ... bm) e1 ... ek)] for the
    bindings [(x1 e1) ... (xk ek)]. *)
Definition lambda_call (bs : list (string * value Prim))
    (body : list (value Prim)) : value Prim :=
  Pair (Pair (Sym "lambda") (slist (slist (Sym <$> bs.*1) :: body)))
       (slist (bs.*2)).

Lemma eval_lambda_call n bs body env h :
  NoDup (bs.*1) → body ≠ [] →
  scheme_optimized_eval (S (S n)) (lambda_call bs body) env h
  = (args ← eval_all (scheme_optimized_eval (S n)) (bs.*2) env;
     new ← make_call_frame env (slist (Sym <$> bs.*1)) (slist args);
     scheme_optimized_eval (S n) (procedure_body body) new) h.
Proof.
  intros Hnd Hbody. unfold lambda_call.
  rewrite eval_combination by done.
  by rewrite (bind_ok _ _ _ _ _
    (proj1 (eval_lambda_form n _ _ env h Hnd Hbody))).
Qed.

Lemma make_call_frame_new_frame env names (vs : list (value Prim)) h :
  NoDup names → List.length vs = List.length names →
  make_call_frame env (slist (Sym <$> names)) (slist vs) h
  = new_frame env (list_to_map (zip names vs)) h.
Proof.
  intros Hnd Hlen. rewrite make_call_frame_slist.
  rewrite Hlen, Nat.leb_refl. by rewrite call_bindings_list_to_map.
Qed.

Lemma let_carries_over_lambda_call n bs body env h :
  NoDup (bs.*1) → body ≠ [] →
  carries_over_at h (scheme_optimized_eval (S n) (let_form bs body) env)
    (scheme_optimized_eval (S (S n)) (lambda_call bs body) env).
Proof.
  intros Hnd Hbody r h' H Hr.
  rewrite eval_let_form in H by done.
  rewrite eval_lambda_call by done. revert r h' H Hr.
  change (carries_over_at h (let_spec (scheme_optimized_eval n) bs body env)
    (args ← eval_all (scheme_optimized_eval (S n)) (bs.*2) env;
     new ← make_call_frame env (slist (Sym <$> bs.*1)) (slist args);
     scheme_optimized_eval (S n) (procedure_body body) new)).
  unfold let_spec. apply carries_over_at_bind.
  { intros r h' H Hr. revert H Hr. apply eval_all_larger_bound.
    apply scheme_optimized_eval_S_carries_over. }
  intros vs h1 Hvs. apply eval_all_length in Hvs.
  rewrite length_fmap in Hvs.
  intros r h' H Hr.
  rewrite (bind_cong_l _ _ _ _ (make_call_frame_new_frame env _ vs h1 Hnd
    ltac:(by rewrite length_fmap))).
  revert r h' H Hr.
  apply carries_over_at_bind; [by intros ????|]. intros new h2 _.
  destruct body as [|b [|b' body]]; [done| |].
  - cbn [removelast for_each List.last procedure_body]. intros r h' H Hr.
    rewrite bind_ret in H. revert H Hr.
    apply scheme_optimized_eval_S_carries_over.
  - intros r h' H Hr. unfold procedure_body.
    rewrite eval_begin_form. exact H.
Qed.

Lemma lambda_call_carries_over_let n bs body env h :
  NoDup (bs.*1) → body ≠ [] →
  carries_over_at h (scheme_optimized_eval (S (S n)) (lambda_call bs body) env)
    (scheme_optimized_eval (S (S n)) (let_form bs body) env).
Proof.
  intros Hnd Hbody r h' H Hr.
  rewrite eval_lambda_call in H by done.
  rewrite eval_let_form by done. revert r h' H Hr.
  change (carries_over_at h
    (args ← eval_all (scheme_optimized_eval (S n)) (bs.*2) env;
     new ← make_call_frame env (slist (Sym <$> bs.*1)) (slist args);
     scheme_optimized_eval (S n) (procedure_body body) new)
    (let_spec (scheme_optimized_eval (S n)) bs body env)).
  unfold let_spec. apply carries_over_at_bind; [by intros ????|].
  intros vs h1 Hvs. apply eval_all_length in Hvs.
  rewrite length_fmap in Hvs.
  intros r h' H Hr.
  rewrite (bind_cong_l _ _ _ _ (make_call_frame_new_frame env _ vs h1 Hnd
    ltac:(by rewrite length_fmap))) in H.
  revert r h' H Hr.
  apply carries_over_at_bind; [by intros ????|]. intros new h2 _.
  destruct body as [|b [|b' body]]; [done| |].
  - cbn [removelast for_each List.last procedure_body]. intros r h' H Hr.
    by rewrite bind_ret.
  - intros r h' H Hr. unfold procedure_body in H.
    rewrite eval_begin_form in H. revert r h' H Hr.
    apply carries_over_at_bind.
    + intros r h' H Hr. revert H Hr. apply for_each_larger_bound.
      intros x. apply carries_over_bind; [|intros; apply carries_over_refl].
      apply scheme_optimized_eval_S_carries_over.
    + intros [] h3 _ r h' H Hr. revert H Hr.
      apply scheme_optimized_eval_S_carries_over.
Qed.

(** X29.  A [let] form whose names are distinct is the call of a [lambda]
    procedure: [(let ((x1 e1) ... (xk ek)) b1 ... bm)] and
    [((lambda (x1 ... xk) b1 ... bm) e1 ... ek)] return the same value or
    raise the same exception, and leave the same heap. *)
Theorem let_is_lambda_call bs body env h r h' :
  NoDup (bs.*1) → body ≠ [] → r ≠ Timeout →
  (∃ n, scheme_optimized_eval n (let_form bs body) env h = (r, h'))
  ↔ (∃ n, scheme_optimized_eval n (lambda_call bs body) env h = (r, h')).
Proof.
  intros Hnd Hbody Hr. split.
  - intros [[|n] H]; [cbn in H; unfold timeout in H; by simplify_eq|].
    exists (S (S n)). by apply let_carries_over_lambda_call.
  - intros [[|[|n]] H]; [cbn in H; unfold timeout in H; by simplify_eq| |].
    + unfold lambda_call in H. rewrite eval_combination in H by done.
      unfold mbind, M_bind, bnd in H. cbn in H. by simplify_eq.
    + exists (S (S n)). by apply lambda_call_carries_over_let.
Qed.

(** **** Nothing is unbound *)

(** The heap [h'] has the frames of [h], and every symbol that a frame
    binds in [h], the frame binds in [h']. *)
Definition heap_grows (h h' : heap Prim) : Prop :=
  List.length h ≤ List.length h'
  ∧ ∀ i s, is_Some (default ∅ (h !! i) !! s) →
           is_Some (default ∅ (h' !! i) !! s).

Lemma heap_grows_refl h : heap_grows h h.
Proof. by split. Qed.

Lemma heap_grows_trans h1 h2 h3 :
  heap_grows h1 h2 → heap_grows h2 h3 → heap_grows h1 h3.
Proof. intros [L1 B1] [L2 B2]. split; [lia|]. auto. Qed.

(** A computation that keeps the frames and what they bind. *)
Definition keeps {A} (m : M Prim A) : Prop :=
  ∀ h r h', m h = (r, h') → heap_grows h h'.

Lemma keeps_pure {A} (m : M Prim A) :
  (∀ h, (m h).2 = h) → keeps m.
Proof.
  intros Hm h r h' H. specialize (Hm h). rewrite H in Hm. simpl in Hm.
  subst. apply heap_grows_refl.
Qed.

Lemma keeps_bind {A B} (m : M Prim A) (k : A → M Prim B) :
  keeps m → (∀ a, keeps (k a)) → keeps (m ≫= k).
Proof.
  intros Hm Hk h r h' H. unfold mbind, M_bind, bnd in H.
  destruct (m h) as [[a|e|] h1] eqn:E.
  - eapply heap_grows_trans; [by eapply Hm|by eapply Hk].
  - simplify_eq. by eapply Hm.
  - simplify_eq. by eapply Hm.
Qed.

Lemma keeps_ret {A} (a : A) : keeps (ret a : M Prim A).
Proof. by apply keeps_pure. Qed.

Lemma keeps_raise {A} e : keeps (raise e : M Prim A).
Proof. by apply keeps_pure. Qed.

Lemma keeps_timeout {A} : keeps (timeout : M Prim A).
Proof. by apply keeps_pure. Qed.

Lemma keeps_first x : keeps (first x : M Prim (value Prim)).
Proof. apply keeps_pure. by destruct x. Qed.

Lemma keeps_second x : keeps (second x : M Prim (value Prim)).
Proof. apply keeps_pure. by destruct x. Qed.

Lemma keeps_len (x : value Prim) : keeps (len x).
Proof.
  apply keeps_pure. intros h. unfold len.
  destruct x; try done; by destruct (list_length _).
Qed.

Lemma keeps_Pair_getitem (y : value Prim) k : keeps (Pair_getitem y k).
Proof.
  apply keeps_pure. revert y. induction k as [|k IH]; intros y h.
  - by destruct y.
  - destruct y as [| | | | | |a b| | |]; try done.
    destruct b as [| | | | | |b1 b2| | |]; try done.
    change (Pair_getitem (Pair a (Pair b1 b2)) (S k) h)
      with (Pair_getitem (Pair b1 b2) k h).
    apply IH.
Qed.

Lemma keeps_getitem (x : value Prim) k : keeps (getitem x k).
Proof.
  destruct x; try (by apply keeps_pure);
    try (apply keeps_pure; intros h; cbn; by destruct (String.get k _)).
  apply keeps_Pair_getitem.
Qed.

Lemma keeps_truth (x : value Prim) : keeps (truth x).
Proof.
  destruct x; try (by apply keeps_pure).
  cbn [truth]. apply keeps_bind; [apply keeps_len|]. intros. apply keeps_ret.
Qed.

Lemma keeps_check_form (expr : value Prim) min max :
  keeps (check_form expr min max).
Proof.
  unfold check_form. destruct (negb _); [apply keeps_raise|].
  apply keeps_bind; [apply keeps_len|]. intros k.
  destruct (k <? min); [apply keeps_raise|].
  destruct max as [m|]; [|apply keeps_ret].
  destruct (m <? k); [apply keeps_raise|apply keeps_ret].
Qed.

Lemma keeps_check_formals (formals : value Prim) :
  keeps (check_formals formals).
Proof.
  apply keeps_pure. intros h. unfold check_formals.
  by destruct (check_formals_from_raises [] formals h) as [->| ->].
Qed.

Lemma keeps_lookup env s : keeps (lookup env s : M Prim (value Prim)).
Proof.
  apply keeps_pure. intros h. unfold lookup.
  by destruct (Frame_lookup h s env).
Qed.

Lemma keeps_setitem env target (val : value Prim) :
  keeps (setitem env target val).
Proof.
  intros h r h' H. unfold setitem in H.
  destruct target as [| | | |x| | | | |]; simplify_eq;
    try apply heap_grows_refl.
  split; [by rewrite length_insert|]. intros i s Hs.
  destruct (decide (i = id env)) as [->|Hi].
  - destruct (decide (id env < List.length h)) as [Hlt|Hge].
    + rewrite list_lookup_insert_eq by done.
      cbn [default from_option Datatypes.id].
      destruct (decide (s = x)) as [->|Hsx].
      * rewrite lookup_insert_eq. by eexists.
      * by rewrite lookup_insert_ne.
    + by rewrite list_insert_ge by lia.
  - by rewrite list_lookup_insert_ne.
Qed.

Lemma keeps_Frame_new p : keeps (Frame_new p : M Prim Frame).
Proof.
  intros h r h' H. unfold Frame_new in H. simplify_eq.
  split; [rewrite length_app; lia|]. intros i s Hs.
  destruct (decide (i < List.length h)) as [Hlt|Hge].
  - by rewrite lookup_app_l.
  - rewrite lookup_ge_None_2 in Hs by lia. cbn in Hs.
    rewrite lookup_empty in Hs. by destruct Hs.
Qed.

Lemma keeps_for_each {A} (xs : list A) (body : A → M Prim ()) :
  (∀ x, keeps (body x)) → keeps (for_each xs body).
Proof.
  intros Hb. induction xs as [|x xs IH]; [apply keeps_ret|].
  cbn [for_each]. apply keeps_bind; [apply Hb|]. intros. apply IH.
Qed.

Lemma keeps_bind_formals frame (formals vals : value Prim) :
  keeps (bind_formals frame formals vals).
Proof.
  revert vals. induction formals as [| | | | | |a _ b IH| | |]; intros vals;
    cbn [bind_formals];
    (apply keeps_bind; [apply keeps_len|]; intros k);
    (destruct (k =? 0); [apply keeps_ret|]); try apply keeps_raise.
  apply keeps_bind; [apply keeps_first|]. intros v.
  apply keeps_bind; [apply keeps_setitem|]. intros _.
  apply keeps_bind; [apply keeps_second|]. intros vals'. apply IH.
Qed.

Lemma keeps_make_call_frame self (formals vals : value Prim) :
  keeps (make_call_frame self formals vals).
Proof.
  unfold make_call_frame. apply keeps_bind; [apply keeps_Frame_new|].
  intros frame. apply keeps_bind; [apply keeps_bind_formals|].
  intros. apply keeps_ret.
Qed.

Lemma keeps_py_list (args : value Prim) : keeps (py_list args).
Proof.
  induction args as [| | | | | |a _ b IH| | |];
    try apply keeps_raise; try apply keeps_ret.
  cbn [py_list]. apply keeps_bind; [apply IH|]. intros. apply keeps_ret.
Qed.

Section keeps_forms.
(** The native functions keep the frames and what they bind. *)
Hypothesis call_keeps : ∀ fn l env, keeps (call fn l env).
Context (ev : value Prim → Frame → M Prim (value Prim)).
Hypothesis ev_keeps : ∀ e env, keeps (ev e env).

Ltac keeps_step :=
  first
    [ apply keeps_ret | apply keeps_raise | apply keeps_timeout
    | apply ev_keeps
    | apply keeps_first | apply keeps_second | apply keeps_len
    | apply keeps_getitem | apply keeps_truth | apply keeps_check_form
    | apply keeps_check_formals | apply keeps_lookup | apply keeps_setitem
    | apply keeps_make_call_frame
    | apply keeps_bind; [|intros]
    | match goal with
      | |- keeps (if ?b then _ else _) => destruct b
      | |- keeps (match ?v with _ => _ end) => destruct v
      | |- keeps (let (_, _) := ?v in _) => destruct v
      end ].

Lemma keeps_try_call fn l env : keeps (try_call call fn l env).
Proof.
  intros h r h' H. unfold try_call in H.
  destruct (call fn l env h) as [r0 h0] eqn:E.
  apply call_keeps in E.
  destruct r0 as [|[]|]; by simplify_eq.
Qed.

Lemma keeps_apply_primitive fn use_env args env :
  keeps (apply_primitive call fn use_env args env).
Proof.
  unfold apply_primitive. apply keeps_bind; [apply keeps_py_list|].
  intros. apply keeps_try_call.
Qed.

Lemma keeps_do_lambda_form vals env : keeps (do_lambda_form vals env).
Proof. unfold do_lambda_form. repeat keeps_step. Qed.

Lemma keeps_do_mu_form vals : keeps (@do_mu_form Prim vals).
Proof. unfold do_mu_form. repeat keeps_step. Qed.

Lemma keeps_do_quote_form vals : keeps (@do_quote_form Prim vals).
Proof. unfold do_quote_form. repeat keeps_step. Qed.

Lemma keeps_do_define_form vals env : keeps (do_define_form ev vals env).
Proof. unfold do_define_form. repeat keeps_step. Qed.

Lemma keeps_let_bindings bindings names values env :
  keeps (let_bindings ev bindings names values env).
Proof.
  revert names values.
  induction bindings as [| | | | | |k _ rest IH| | |]; intros names values;
    cbn [let_bindings]; try apply keeps_raise; try apply keeps_ret.
  repeat first [apply IH | keeps_step].
Qed.

Lemma keeps_do_let_form vals env : keeps (do_let_form ev vals env).
Proof.
  unfold do_let_form.
  repeat first
    [ apply keeps_let_bindings
    | apply keeps_for_each; intros
    | keeps_step ].
Qed.

Lemma keeps_do_if_form vals env : keeps (do_if_form ev vals env).
Proof. unfold do_if_form. repeat keeps_step. Qed.

Lemma keeps_and_loop vals env : keeps (and_loop ev vals env).
Proof.
  induction vals as [| | | | | |a _ rest IH| | |]; cbn [and_loop];
    repeat first [apply IH | keeps_step].
Qed.

Lemma keeps_do_and_form vals env : keeps (do_and_form ev vals env).
Proof. unfold do_and_form. repeat first [apply keeps_and_loop | keeps_step]. Qed.

Lemma keeps_or_loop vals env : keeps (or_loop ev vals env).
Proof.
  induction vals as [| | | | | |a _ rest IH| | |]; cbn [or_loop];
    repeat first [apply IH | keeps_step].
Qed.

Lemma keeps_do_or_form vals env : keeps (do_or_form ev vals env).
Proof. unfold do_or_form. repeat first [apply keeps_or_loop | keeps_step]. Qed.

Lemma keeps_cond_clause num_clauses i clause env :
  keeps (cond_clause ev num_clauses i clause env).
Proof. unfold cond_clause. repeat keeps_step. Qed.

Lemma keeps_cond_loop vals num_clauses indices env :
  keeps (cond_loop ev vals num_clauses indices env).
Proof.
  induction indices as [|i indices IH]; cbn [cond_loop];
    repeat first [apply IH | apply keeps_cond_clause | keeps_step].
Qed.

Lemma keeps_do_cond_form vals env : keeps (do_cond_form ev vals env).
Proof. unfold do_cond_form. repeat first [apply keeps_cond_loop | keeps_step]. Qed.

Lemma keeps_do_begin_form vals env : keeps (do_begin_form ev vals env).
Proof.
  induction vals as [| | | | | |a _ rest IH| | |]; cbn [do_begin_form];
    repeat first [apply IH | keeps_step].
Qed.

Lemma keeps_map_eval rest env : keeps (map_eval ev rest env).
Proof.
  induction rest as [| | | | | |a _ rest IH| | |]; cbn [map_eval];
    repeat first [apply IH | keeps_step].
Qed.

Lemma keeps_LOGIC_FORMS name form rest env :
  LOGIC_FORMS ev name = Some form → keeps (form rest env).
Proof.
  unfold LOGIC_FORMS.
  repeat match goal with
  | |- context [if ?b then _ else _] => destruct b
  end; intros; simplify_eq;
  auto using keeps_do_and_form, keeps_do_or_form, keeps_do_if_form,
    keeps_do_cond_form, keeps_do_begin_form.
Qed.

Lemma keeps_optimized_eval_body expr env :
  keeps (optimized_eval_body call ev ev expr env).
Proof.
  unfold optimized_eval_body.
  destruct expr; try apply keeps_raise; try apply keeps_lookup;
    (destruct (scheme_atomp _); [apply keeps_ret|]);
    (destruct (negb _); [apply keeps_raise|]);
    (apply keeps_bind; [apply keeps_first|]; intros first);
    (apply keeps_bind; [apply keeps_second|]; intros rest);
    (destruct (LOGIC_FORMS ev first) as [form|] eqn:Hform;
     [apply keeps_bind; [by eapply keeps_LOGIC_FORMS|intros; apply ev_keeps]|]);
    repeat first
      [ apply keeps_do_lambda_form
      | apply keeps_do_mu_form
      | apply keeps_do_quote_form
      | apply keeps_do_define_form
      | apply keeps_do_let_form
      | apply keeps_map_eval
      | apply keeps_apply_primitive
      | keeps_step ].
Qed.

End keeps_forms.

Lemma keeps_scheme_optimized_eval n expr env :
  (∀ fn l env, keeps (call fn l env)) →
  keeps (scheme_optimized_eval n expr env).
Proof.
  intros Hcall. revert expr env. induction n as [|n IH]; intros expr env.
  - apply keeps_timeout.
  - rewrite (scheme_optimized_eval_S call n).
    by apply keeps_optimized_eval_body.
Qed.

(** X30.  Evaluation unbinds nothing, when the native functions unbind
    nothing: every frame of the heap is still there after an evaluation,
    whether it returns or raises, and every symbol that a frame bound is
    still bound in it, to the same value or to a later one.  So a symbol
    that could be looked up from a frame can be looked up from it
    afterwards. *)
Theorem evaluation_unbinds_nothing n expr env h r h' :
  (∀ fn l env h r h', call fn l env h = (r, h') → heap_grows h h') →
  scheme_optimized_eval n expr env h = (r, h') →
  heap_grows h h'
  ∧ ∀ frame s, is_Some (Frame_lookup h s frame) →
               is_Some (Frame_lookup h' s frame).
Proof.
  intros Hcall H.
  assert (heap_grows h h') as Hg.
  { eapply keeps_scheme_optimized_eval; [|done].
    intros fn l e h0 r0 h0'. apply Hcall. }
  split; [done|]. intros frame s. destruct Hg as [_ Hb].
  induction frame as [i|i up IH] using Frame_chain_ind; cbn [Frame_lookup].
  - intros Hs. destruct (default ∅ (h !! i) !! s) as [v|] eqn:E;
      [|by destruct Hs].
    destruct (Hb i s) as [w Hw]; [by rewrite E|]. by rewrite Hw.
  - intros Hs. destruct (default ∅ (h !! i) !! s) as [v|] eqn:E.
    + destruct (Hb i s) as [w Hw]; [by rewrite E|]. by rewrite Hw.
    + destruct (default ∅ (h' !! i) !! s); [done|]. by apply IH.
Qed.

End properties.

(** *** Runs that the statements above apply to *)

Ltac decide_NoDup :=
  match goal with
  | |- NoDup ?l => apply (bool_decide_unpack (NoDup l)); vm_compute; exact I
  end.

Lemma define_in_new_frame_witness :
  ∃ new h',
    (new ← Frame_new (Some the_global_frame);
     _ ← define new "x" (Num 1); ret new) empty_heap = (Ok new, h')
    ∧ (∀ s, Frame_lookup h' s the_global_frame
            = Frame_lookup empty_heap s the_global_frame)
    ∧ Frame_lookup h' "x" new = Some (Num 1)
    ∧ ∀ s, s ≠ "x" →
        Frame_lookup h' s new = Frame_lookup empty_heap s the_global_frame.
Proof.
  apply (define_in_new_frame the_global_frame "x" (Num 1) empty_heap).
  simpl. lia.
Defined.

Lemma make_call_frame_binds_witness :
  ∃ new h',
    make_call_frame the_global_frame (slist (Sym <$> ["a"; "b"]))
      (slist [Num 1; Num 2]) empty_heap = (Ok new, h')
    ∧ (∀ i x, ["a"; "b"] !! i = Some x →
         Frame_lookup h' x new = [Num 1; Num 2] !! i)
    ∧ (∀ s, s ∉ ["a"; "b"] →
         Frame_lookup h' s new = Frame_lookup empty_heap s the_global_frame)
    ∧ ∀ s, Frame_lookup h' s the_global_frame
           = Frame_lookup empty_heap s the_global_frame.
Proof.
  apply (make_call_frame_binds the_global_frame ["a"; "b"] [Num 1; Num 2]
           empty_heap).
  - decide_NoDup.
  - simpl. lia.
  - simpl. lia.
Defined.

(** [(lambda (x) x)], [(mu (x) x)] *)
Lemma lambda_evaluation_witness :
  scheme_optimized_eval no_primitives 1
    (Pair (Sym "lambda") (slist (slist (Sym <$> ["x"]) :: [Sym "x"])))
    the_global_frame empty_heap
  = (Ok (LambdaProcedure (slist (Sym <$> ["x"])) (procedure_body [Sym "x"])
           the_global_frame), empty_heap)
  ∧ scheme_optimized_eval no_primitives 1
      (Pair (Sym "mu") (slist (slist (Sym <$> ["x"]) :: [Sym "x"])))
      the_global_frame empty_heap
    = (Ok (MuProcedure (slist (Sym <$> ["x"])) (procedure_body [Sym "x"])),
       empty_heap).
Proof.
  apply (lambda_evaluation no_primitives 0 ["x"] [Sym "x"]).
  - decide_NoDup.
  - discriminate.
Defined.

(** [(define (f x) x)] and [(define f (lambda (x) x))] *)
Lemma define_procedure_form_witness :
  scheme_optimized_eval no_primitives 2
    (Pair (Sym "define")
       (Pair (Pair (Sym "f") (slist [Sym "x"])) (slist [Sym "x"])))
    the_global_frame empty_heap
  = scheme_optimized_eval no_primitives 2
      (slist [Sym "define"; Sym "f";
              Pair (Sym "lambda") (Pair (slist [Sym "x"]) (slist [Sym "x"]))])
      the_global_frame empty_heap.
Proof.
  apply (define_procedure_form no_primitives 1 "f" (slist [Sym "x"])
           [Sym "x"]).
  discriminate.
Defined.

(** [(define x 1)], then [x] *)
Lemma define_then_evaluate_witness :
  ∃ h2,
    scheme_optimized_eval no_primitives 2
      (slist [Sym "define"; Sym "x"; Num 1]) the_global_frame empty_heap
      = (Ok PyNone, h2)
    ∧ scheme_optimized_eval no_primitives 1 (Sym "x") the_global_frame h2
      = (Ok (Num 1), h2).
Proof.
  apply (define_then_evaluate no_primitives 1 0 "x" (Num 1) the_global_frame
           empty_heap (Num 1) empty_heap).
  - reflexivity.
  - simpl. lia.
Defined.

(** [(cond (#f 1) (#t 2))] *)
Lemma cond_first_true_witness :
  scheme_optimized_eval no_primitives 2
    (Pair (Sym "cond")
       (slist ([slist [Bool false; Num 1]]
               ++ Pair (Bool true) (slist [Num 2]) :: [])))
    the_global_frame empty_heap
  = scheme_optimized_eval no_primitives 1
      (if @is_nil Empty_set (slist [Num 2]) then Bool true
       else Pair (Sym "begin") (slist [Num 2]))
      the_global_frame empty_heap.
Proof.
  apply (cond_first_true no_primitives 1 [slist [Bool false; Num 1]]
           (Bool true) (slist [Num 2]) [] the_global_frame
           empty_heap empty_heap (Bool true) empty_heap).
  - eapply tests_false_cons; [reflexivity..|apply tests_false_nil].
  - reflexivity.
  - reflexivity.
  - reflexivity.
  - reflexivity.
Defined.

(** [(cond (#f 1) (else 2))] *)
Lemma cond_else_clause_witness :
  scheme_optimized_eval no_primitives 2
    (Pair (Sym "cond")
       (slist ([slist [Bool false; Num 1]]
               ++ Pair (Sym "else") (slist [Num 2]) :: [])))
    the_global_frame empty_heap
  = scheme_optimized_eval no_primitives 1
      (Pair (Sym "begin") (slist [Num 2])) the_global_frame empty_heap.
Proof.
  apply (cond_else_clause no_primitives 1 [slist [Bool false; Num 1]]
           [Num 2] [] the_global_frame empty_heap empty_heap).
  eapply tests_false_cons; [reflexivity..|apply tests_false_nil].
Defined.

(** [(cond 1)] *)
Lemma cond_clause_not_a_list_witness :
  scheme_optimized_eval no_primitives 1
    (Pair (Sym "cond") (slist ([] ++ Num 1 :: [])))
    the_global_frame empty_heap
  = (Raise (Exception "badly formed expression: %s" (Num 1)), empty_heap).
Proof.
  apply (cond_clause_not_a_list no_primitives 0 [] (Num 1) []
           the_global_frame empty_heap empty_heap).
  - apply tests_false_nil.
  - reflexivity.
Defined.

(** [(if 0 1 2)] and [(cond (0 1))] *)
Lemma cond_tests_as_python_witness :
  scheme_optimized_eval no_primitives 2
    (slist [Sym "if"; Num 0; Num 1; Num 2]) the_global_frame empty_heap
    = scheme_optimized_eval no_primitives 1 (Num 1) the_global_frame
        empty_heap
  ∧ scheme_optimized_eval no_primitives 2
      (slist [Sym "cond"; Pair (Num 0) (slist [Num 1])]) the_global_frame
      empty_heap
    = (Raise (SchemeError "Cannot evaluate an undefined expression."),
       empty_heap).
Proof.
  apply (cond_tests_as_python no_primitives 1 (Num 0) (slist [Num 1])
           (Num 1) (Num 2) the_global_frame empty_heap (Num 0) empty_heap);
    reflexivity.
Defined.

(** [(and 1 #f 2)] *)
Lemma deciding_operand_twice_witness :
  scheme_optimized_eval no_primitives 2
    (Pair (Sym "and") (slist ([Num 1] ++ Bool false :: [Num 2])))
    the_global_frame empty_heap
  = scheme_optimized_eval no_primitives 1 (Bool false) the_global_frame
      empty_heap.
Proof.
  apply (deciding_operand_twice no_primitives 1 "and" scheme_true [Num 1]
           (Bool false) [Num 2] the_global_frame empty_heap empty_heap
           (Bool false) empty_heap).
  - left. split; reflexivity.
  - eapply evaluate_cons; [reflexivity..|apply evaluate_nil].
  - reflexivity.
  - reflexivity.
  - right. discriminate.
Defined.

(** [(or #f 2)] *)
Lemma last_operand_once_witness :
  scheme_optimized_eval no_primitives 2
    (Pair (Sym "or") (slist ([Bool false] ++ [Num 2])))
    the_global_frame empty_heap
  = scheme_optimized_eval no_primitives 1 (Num 2) the_global_frame
      empty_heap.
Proof.
  apply (last_operand_once no_primitives 1 "or" scheme_false [Bool false]
           (Num 2) the_global_frame empty_heap empty_heap).
  - right. split; reflexivity.
  - eapply evaluate_cons; [reflexivity..|apply evaluate_nil].
  - discriminate.
Defined.

(** [(and 5)] and [(and)] *)
Lemma and_one_operand_witness :
  scheme_optimized_eval no_primitives 2 (slist [Sym "and"; Num 5])
    the_global_frame empty_heap
    = (Ok (Bool true), empty_heap)
  ∧ scheme_optimized_eval no_primitives 2 (slist [Sym "and"])
      the_global_frame empty_heap
    = (Ok (Bool true), empty_heap).
Proof.
  apply (and_one_operand no_primitives 1 (Num 5) the_global_frame empty_heap
           (Num 5) empty_heap); reflexivity.
Defined.

(** [(1 2)] *)
Lemma call_non_procedure_witness :
  scheme_optimized_eval no_primitives 2 (Pair (Num 1) (slist [Num 2]))
    the_global_frame empty_heap
  = (Raise (SchemeErrorOn "Cannot call " (Num 1)), empty_heap).
Proof.
  apply (call_non_procedure no_primitives 1 (Num 1) [Num 2] the_global_frame
           empty_heap (Num 1) empty_heap [Num 2] empty_heap); reflexivity.
Defined.

(** A global frame that binds [y] to 7, and a frame under it that binds [y]
    to 8. *)
Definition two_frames : heap Empty_set :=
  [{["y" := Num 7]}; {["y" := Num 8]}].

Definition the_inner_frame : Frame := mkFrame 1 (Some the_global_frame).

(** [((mu (x) y) 1)], called in the inner frame. *)
Lemma scope_of_free_symbol_witness :
  scheme_optimized_eval no_primitives 3
    (Pair (slist [Sym "mu"; slist [Sym "x"]; Sym "y"]) (slist [Num 1]))
    the_inner_frame two_frames
  = (match Frame_lookup two_frames "y" the_inner_frame with
     | Some v => Ok v
     | None => Raise (SchemeErrorOn "unknown identifier: " (Sym "y"))
     end, two_frames ++ [call_bindings ["x"] [Num 1]]).
Proof.
  apply (scope_of_free_symbol no_primitives 1
           (slist [Sym "mu"; slist [Sym "x"]; Sym "y"]) [Num 1]
           the_inner_frame two_frames
           (MuProcedure (slist (Sym <$> ["x"])) (Sym "y")) the_inner_frame
           ["x"] "y" two_frames [Num 1] two_frames).
  - reflexivity.
  - reflexivity.
  - reflexivity.
  - right. split; reflexivity.
  - decide_NoDup.
  - simpl. lia.
  - apply (bool_decide_unpack ("y" ∉ ["x"])). vm_compute. exact I.
  - simpl. lia.
Defined.

(** [(let ((x 1)) x)] and [((lambda (x) x) 1)] *)
Lemma let_is_lambda_call_witness :
  (∃ n, scheme_optimized_eval no_primitives n
          (let_form [("x", Num 1)] [Sym "x"]) the_global_frame empty_heap
        = (Ok (Num 1), [∅; {["x" := Num 1]}]))
  ↔ (∃ n, scheme_optimized_eval no_primitives n
            (lambda_call [("x", Num 1)] [Sym "x"]) the_global_frame
            empty_heap
          = (Ok (Num 1), [∅; {["x" := Num 1]}])).
Proof.
  apply (let_is_lambda_call no_primitives [("x", Num 1)] [Sym "x"]).
  - decide_NoDup.
  - discriminate.
  - discriminate.
Defined.

(** A native function that takes the frame it is called in, as [eval] and
    [load] do, and binds [z] to 0 in it. *)
Inductive native : Type := BindZ.

Definition call_native (fn : native) (l : list (value native))
    (env : option Frame) : M native (value native) :=
  match env with
  | Some frame => _ ← define frame "z" (Num 0); ret PyNone
  | None => raise TypeError
  end.

(** The global frame binds [x] to 1 and [bind-z] to the native function. *)
Definition a_heap : heap native :=
  [{["x" := Num 1; "bind-z" := PrimitiveProcedure BindZ true]}].

(** [(begin (define x 2) (bind-z) ((lambda (y) y) 3))] *)
Definition a_program : value native :=
  slist [Sym "begin"; slist [Sym "define"; Sym "x"; Num 2];
         slist [Sym "bind-z"];
         Pair (slist [Sym "lambda"; slist [Sym "y"]; Sym "y"])
              (slist [Num 3])].

(** The heap after it: [x] is bound anew, the native function has bound
    [z], and the call has made a frame that binds [y]. *)
Definition a_later_heap : heap native :=
  [{["x" := Num 2; "bind-z" := PrimitiveProcedure BindZ true; "z" := Num 0]};
   {["y" := Num 3]}].

Lemma evaluation_unbinds_nothing_witness :
  scheme_optimized_eval call_native 6 a_program the_global_frame a_heap
  = (Ok (Num 3), a_later_heap)
  ∧ heap_grows a_heap a_later_heap
  ∧ ∀ frame s, is_Some (Frame_lookup a_heap s frame) →
               is_Some (Frame_lookup a_later_heap s frame).
Proof.
  assert (scheme_optimized_eval call_native 6 a_program the_global_frame
            a_heap = (Ok (Num 3), a_later_heap)) as Hrun
    by (vm_compute; reflexivity).
  split; [exact Hrun|].
  apply (evaluation_unbinds_nothing call_native 6 a_program the_global_frame
           a_heap (Ok (Num 3))); [|exact Hrun].
  intros fn l [frame|] h r h'; unfold call_native.
  - apply keeps_bind; [apply keeps_setitem|intros; apply keeps_ret].
  - intros [= _ <-]. apply heap_grows_refl.
Defined.

(** [(if #t 1 0)]: on a stack of two levels both evaluators return 1, and
    the recursive one on a stack of seven. *)
Lemma scheme_eval_optimized_witness :
  scheme_eval no_primitives 2 (tail_nest 1) the_global_frame empty_heap
    = (Ok (Num 1), empty_heap)
  ∧ scheme_optimized_eval_on_stack no_primitives 2 5 (tail_nest 1)
      the_global_frame empty_heap
    = (Ok (Num 1), empty_heap)
  ∧ scheme_eval no_primitives 7 (tail_nest 1) the_global_frame empty_heap
    = (Ok (Num 1), empty_heap).
Proof.
  destruct (scheme_eval_optimized no_primitives (tail_nest 1)
              the_global_frame empty_heap (Ok (Num 1)) empty_heap)
    as [Hrec Hopt]; [discriminate..|].
  assert (scheme_eval no_primitives 2 (tail_nest 1) the_global_frame
            empty_heap = (Ok (Num 1), empty_heap)) as H2 by reflexivity.
  split; [exact H2|].
  pose proof (Hrec 2 H2 5 ltac:(lia)) as H5.
  split; [exact H5|].
  apply (Hopt 2 5 H5 7). lia.
Defined.

(** Three forms [if], each in the tail position of the one around it, on
    a stack of three levels: the recursive evaluator raises
    [RecursionError] and the trampolined one returns 1.  The same on every
    stack of two levels or more, with as many forms as the stack has
    levels. *)
Lemma tail_calls_use_up_the_stack :
  (scheme_eval no_primitives 3 (tail_nest 3) the_global_frame empty_heap
     = (Raise RecursionError, empty_heap)
   ∧ scheme_optimized_eval_on_stack no_primitives 3 4 (tail_nest 3)
       the_global_frame empty_heap
     = (Ok (Num 1), empty_heap))
  ∧ ∀ k env h,
      scheme_eval no_primitives (k + 2) (tail_nest (k + 2)) env h
        = (Raise RecursionError, h)
      ∧ scheme_optimized_eval_on_stack no_primitives (k + 2) (k + 3)
          (tail_nest (k + 2)) env h
        = (Ok (Num 1), h).
Proof.
  split; [by split|]. intros k env h. split.
  - by apply scheme_eval_tail_nest.
  - replace (k + 2) with (S (S k)) at 1 by lia.
    apply scheme_optimized_eval_tail_nest. lia.
Qed.

End SchemeTheory.
